(** * Event Storming workshop server: domain graph, mutations and queries

    A shallow embedding of [eventstorming_mcp.py]: the entity model
    (workshop, elements, bounded contexts), the mutating tools
    ([add_element], [update_element], [delete_element],
    [assign_to_context]), and the read side ([paginate_list],
    [get_statistics], [visualize_flow] with its nested [trace_flow]).

    Conventions of the embedding.
    - A Python [int] is a [Z]; [len] of a list is [Z.of_nat (length _)].
    - A Python [str] is a [string], one character of the one for one
      character of the other; an [Optional[str]] is an [option string]. The
      two non-ASCII literals of the source (the mark that opens a flow line,
      the sign before the display limit) are written as the source file has
      them; no length is taken of them.
    - The field constraints of the input models (bounds, lengths, whitespace
      stripping) are applied before a tool runs and are not part of the
      embedding; in particular [page_size] is never 0 where [paginate_list]
      divides by it.
    - A [List[...]] is a [list]; lists mutated in place are returned updated.
    - The directory of workshop files is a finite map from the workshop id
      to the stored workshop ([gmap string Workshop]); the files hold
      workshops of the current schema, on which the migration done at load
      time is the identity.
    - [generate_id ()] and [get_timestamp ()] read the environment: every
      tool receives the values these calls return as arguments, one per call,
      in call order.
    - The set [visited] of [trace_flow] is a [gset string]; the one-cell list
      [element_count] is an integer threaded through the calls. *)

From stdpp Require Import base option list gmap strings fin_maps pretty sorting.
From Stdlib Require Import ZArith Lia.
From Stdlib Require OrderedTypeEx.

#[local] Open Scope Z_scope.

(** ** Enumerations *)

Inductive ElementType :=
  | EVENT | COMMAND | ACTOR | AGGREGATE | POLICY
  | READ_MODEL | EXTERNAL_SYSTEM | HOTSPOT.

#[export] Instance ElementType_eq_dec : EqDecision ElementType.
Proof. solve_decision. Defined.

(** [ElementType.value] *)
Definition type_value (t : ElementType) : string :=
  match t with
  | EVENT => "event"
  | COMMAND => "command"
  | ACTOR => "actor"
  | AGGREGATE => "aggregate"
  | POLICY => "policy"
  | READ_MODEL => "read_model"
  | EXTERNAL_SYSTEM => "external_system"
  | HOTSPOT => "hotspot"
  end.

(** Iteration order of [for etype in ElementType]. *)
Definition all_element_types : list ElementType :=
  [EVENT; COMMAND; ACTOR; AGGREGATE; POLICY; READ_MODEL; EXTERNAL_SYSTEM; HOTSPOT].

(** ** Data models *)

Record WorkshopMetadata := mkMetadata {
  md_id : string;
  md_name : string;
  md_description : option string;
  md_domain : option string;
  md_created_at : string;
  md_updated_at : string;
  md_facilitators : list string;
  md_schema_version : string
}.

Record BoundedContext := mkContext {
  ctx_id : string;
  ctx_name : string;
  ctx_description : option string;
  element_ids : list string;
  ctx_color : option string
}.

Record EventStormingElement := mkElement {
  el_id : string;
  el_type : ElementType;
  el_name : string;
  position : Z;
  notes : option string;
  created_at : string;
  updated_at : string;
  created_by : option string;
  triggers : list string;
  triggered_by : list string;
  bounded_context_id : option string
}.

Record Workshop := mkWorkshop {
  metadata : WorkshopMetadata;
  elements : list EventStormingElement;
  bounded_contexts : list BoundedContext
}.

Record PaginationInfo := mkPagination {
  pg_page : Z;
  pg_page_size : Z;
  pg_total_items : Z;
  pg_total_pages : Z;
  has_next : bool;
  has_prev : bool
}.

(** ** Python primitives used by the tools *)

(** Truth value of an [Optional[str]]: [None] and the empty string are false. *)
Definition truthy (o : option string) : bool :=
  match o with
  | Some s => negb (String.eqb s "")
  | None => false
  end.

(** [a or ""] on an [Optional[str]]. *)
Definition or_empty (o : option string) : string :=
  if truthy o then default "" o else "".

(** [len] *)
Definition len {A} (l : list A) : Z := Z.of_nat (length l).

(** Normalisation of one bound of a slice with step 1 on a list of length [n]:
    a negative index counts from the end, and the result is clamped to [0, n]. *)
Definition slice_index (n i : Z) : Z :=
  if i <? 0 then Z.max 0 (n + i) else Z.min i n.

(** [items[start:stop]] *)
Definition py_slice {A} (items : list A) (start stop : Z) : list A :=
  let n := len items in
  let lo := slice_index n start in
  let hi := slice_index n stop in
  take (Z.to_nat (hi - lo)) (drop (Z.to_nat lo) items).

(** [sep.join(parts)] *)
Fixpoint join (sep : string) (parts : list string) : string :=
  match parts with
  | [] => ""
  | [s] => s
  | s :: rest => s +:+ sep +:+ join sep rest
  end.

(** The separator of the final ["\n".join(lines)]. *)
Definition newline : string := String (Ascii.ascii_of_nat 10) EmptyString.

(** [s * n] for a string [s] and [n >= 0]. *)
Fixpoint str_repeat (s : string) (n : nat) : string :=
  match n with
  | O => ""
  | S k => s +:+ str_repeat s k
  end.

(** [next((x for x in l if p x), None)] *)
Definition next_match {A} (p : A -> bool) (l : list A) : option A :=
  List.find p l.

(** The lookups the tools repeat: first element, first context with an id. *)
Definition find_element (w : Workshop) (element_id : string) : option EventStormingElement :=
  next_match (fun e => String.eqb (el_id e) element_id) (elements w).

Definition find_context (w : Workshop) (context_id : string) : option BoundedContext :=
  next_match (fun c => String.eqb (ctx_id c) context_id) (bounded_contexts w).

(** ** Persistence *)

Inductive Error :=
  | WorkshopNotFound (workshop_id : string)
  | ElementNotFound (element_id : string)
  | ContextNotFound (context_id : string)
  | StartElementNotFound (element_id : string).

(** The text of the ["error"] field of the response. *)
Definition error_message (e : Error) : string :=
  match e with
  | WorkshopNotFound i => "Workshop not found: " +:+ i
  | ElementNotFound i => "Element not found: " +:+ i
  | ContextNotFound i => "Bounded context not found: " +:+ i
  | StartElementNotFound i => "Start element not found: " +:+ i
  end.

Definition load_workshop (store : gmap string Workshop) (workshop_id : string)
  : Error + Workshop :=
  match store !! workshop_id with
  | Some w => inr w
  | None => inl (WorkshopNotFound workshop_id)
  end.

Definition set_md_updated_at (m : WorkshopMetadata) (ts : string) : WorkshopMetadata :=
  mkMetadata (md_id m) (md_name m) (md_description m) (md_domain m)
             (md_created_at m) ts (md_facilitators m) (md_schema_version m).

(** [save_workshop]: stamps the metadata and writes the file named after the
    workshop id. [now] is the value of [get_timestamp ()]. *)
Definition save_workshop (store : gmap string Workshop) (now : string) (w : Workshop)
  : gmap string Workshop :=
  let w' := mkWorkshop (set_md_updated_at (metadata w) now)
                       (elements w) (bounded_contexts w) in
  <[md_id (metadata w') := w']> store.

(** ** Pagination *)

Definition paginate_list {A} (items : list A) (page page_size : Z)
  : list A * PaginationInfo :=
  let total_items := len items in
  let total_pages :=
    if 0 <? total_items then (total_items + page_size - 1) `div` page_size else 0 in
  let page := Z.max 1 (Z.min page (if 0 <? total_pages then total_pages else 1)) in
  let start_idx := (page - 1) * page_size in
  let end_idx := start_idx + page_size in
  let paginated_items := py_slice items start_idx end_idx in
  (paginated_items,
   mkPagination page page_size total_items total_pages
                (page <? total_pages) (1 <? page)).

(** ** Helpers for in-place updates

    The tools mutate the objects they find in the workshop's lists. An object
    found by [next_match] is the first match of its list, so a mutation of it
    is an update of the first match. *)

Fixpoint update_first {A} (p : A -> bool) (f : A -> A) (l : list A) : list A :=
  match l with
  | [] => []
  | x :: rest => if p x then f x :: rest else x :: update_first p f rest
  end.

(** [l.remove(x)], when [x] is known to occur: drops the first occurrence. *)
Fixpoint remove_first (x : string) (l : list string) : list string :=
  match l with
  | [] => []
  | y :: rest => if String.eqb y x then rest else y :: remove_first x rest
  end.

(** [if x not in l: l.append(x)] *)
Definition append_if_absent (x : string) (l : list string) : list string :=
  if bool_decide (x ∈ l) then l else l ++ [x].

Definition set_element_ids (c : BoundedContext) (ids : list string) : BoundedContext :=
  mkContext (ctx_id c) (ctx_name c) (ctx_description c) ids (ctx_color c).

Definition set_bounded_context_id (e : EventStormingElement) (b : option string)
  : EventStormingElement :=
  mkElement (el_id e) (el_type e) (el_name e) (position e) (notes e)
            (created_at e) (updated_at e) (created_by e)
            (triggers e) (triggered_by e) b.

Definition set_updated_at (e : EventStormingElement) (ts : string) : EventStormingElement :=
  mkElement (el_id e) (el_type e) (el_name e) (position e) (notes e)
            (created_at e) ts (created_by e)
            (triggers e) (triggered_by e) (bounded_context_id e).

Definition set_links (e : EventStormingElement) (ts tb : list string) : EventStormingElement :=
  mkElement (el_id e) (el_type e) (el_name e) (position e) (notes e)
            (created_at e) (updated_at e) (created_by e)
            ts tb (bounded_context_id e).

Definition has_id (element_id : string) (e : EventStormingElement) : bool :=
  String.eqb (el_id e) element_id.

Definition ctx_has_id (context_id : string) (c : BoundedContext) : bool :=
  String.eqb (ctx_id c) context_id.

(** [str.title ()] on the eight values of [ElementType]. *)
Definition type_title (t : ElementType) : string :=
  match t with
  | EVENT => "Event"
  | COMMAND => "Command"
  | ACTOR => "Actor"
  | AGGREGATE => "Aggregate"
  | POLICY => "Policy"
  | READ_MODEL => "Read_Model"
  | EXTERNAL_SYSTEM => "External_System"
  | HOTSPOT => "Hotspot"
  end.

(** ** add_element *)

Record AddElementInput := mkAddElementInput {
  ae_workshop_id : string;
  ae_type : ElementType;
  ae_name : string;
  ae_position : option Z;
  ae_notes : option string;
  ae_created_by : option string;
  ae_triggers : list string;
  ae_triggered_by : list string;
  ae_bounded_context_id : option string
}.

Record AddElementResponse := mkAddElementResponse {
  ar_element_id : string;
  ar_type : string;
  ar_name : string;
  ar_position : Z;
  ar_message : string
}.

(** [element_id] is the value of [generate_id ()], [timestamp] the value of
    the tool's own [get_timestamp ()], [now] the one read by [save_workshop]. *)
Definition add_element (store : gmap string Workshop)
    (element_id timestamp now : string) (params : AddElementInput)
  : (Error + AddElementResponse) * gmap string Workshop :=
  match load_workshop store (ae_workshop_id params) with
  | inl err => (inl err, store)
  | inr workshop =>
    let position :=
      match ae_position params with
      | Some p => p
      | None =>
        len (filter (fun e => el_type e = ae_type params) (elements workshop))
      end in
    let element :=
      mkElement element_id (ae_type params) (ae_name params) position
                (Some (or_empty (ae_notes params))) timestamp timestamp
                (Some (or_empty (ae_created_by params)))
                (ae_triggers params) (ae_triggered_by params)
                (ae_bounded_context_id params) in
    let elements' := elements workshop ++ [element] in
    let contexts' :=
      if truthy (ae_bounded_context_id params) then
        update_first
          (fun c => bool_decide (Some (ctx_id c) = ae_bounded_context_id params))
          (fun c => set_element_ids c (append_if_absent element_id (element_ids c)))
          (bounded_contexts workshop)
      else bounded_contexts workshop in
    let workshop' := mkWorkshop (metadata workshop) elements' contexts' in
    (inr (mkAddElementResponse element_id (type_value (ae_type params))
            (ae_name params) position
            (type_title (ae_type params) +:+ " '" +:+ ae_name params
               +:+ "' added successfully")),
     save_workshop store now workshop')
  end.

(** ** update_element *)

Record UpdateElementInput := mkUpdateElementInput {
  ue_workshop_id : string;
  ue_element_id : string;
  ue_name : option string;
  ue_position : option Z;
  ue_notes : option string;
  ue_triggers : option (list string);
  ue_triggered_by : option (list string);
  ue_bounded_context_id : option string
}.

Record UpdateElementResponse := mkUpdateElementResponse {
  ur_element_id : string;
  updated_fields : list string;
  ur_message : string
}.

(** The assignments guarded by [is not None], up to the context change. *)
Definition apply_patch (params : UpdateElementInput) (e : EventStormingElement)
  : EventStormingElement * list string :=
  let name' := default (el_name e) (ue_name params) in
  let position' := default (position e) (ue_position params) in
  let notes' := match ue_notes params with Some n => Some n | None => notes e end in
  let triggers' := default (triggers e) (ue_triggers params) in
  let triggered_by' := default (triggered_by e) (ue_triggered_by params) in
  let fields :=
    (if ue_name params is Some _ then ["name"] else []) ++
    (if ue_position params is Some _ then ["position"] else []) ++
    (if ue_notes params is Some _ then ["notes"] else []) ++
    (if ue_triggers params is Some _ then ["triggers"] else []) ++
    (if ue_triggered_by params is Some _ then ["triggered_by"] else []) in
  (mkElement (el_id e) (el_type e) name' position' notes'
             (created_at e) (updated_at e) (created_by e)
             triggers' triggered_by' (bounded_context_id e),
   fields).

(** One iteration of the loop over the contexts after a context change. *)
Definition move_membership (element_id : string) (old_context new_context : option string)
    (c : BoundedContext) : BoundedContext :=
  let ids1 :=
    if bool_decide (Some (ctx_id c) = old_context)
       && bool_decide (element_id ∈ element_ids c)
    then remove_first element_id (element_ids c)
    else element_ids c in
  let ids2 :=
    if bool_decide (Some (ctx_id c) = new_context)
       && negb (bool_decide (element_id ∈ ids1))
    then ids1 ++ [element_id]
    else ids1 in
  set_element_ids c ids2.

(** [timestamp] stamps the element, [now] is read by [save_workshop]. *)
Definition update_element (store : gmap string Workshop)
    (timestamp now : string) (params : UpdateElementInput)
  : (Error + UpdateElementResponse) * gmap string Workshop :=
  match load_workshop store (ue_workshop_id params) with
  | inl err => (inl err, store)
  | inr workshop =>
    match find_element workshop (ue_element_id params) with
    | None => (inl (ElementNotFound (ue_element_id params)), store)
    | Some element =>
      let '(element1, fields1) := apply_patch params element in
      let old_context := bounded_context_id element1 in
      let '(element2, fields2, contexts') :=
        match ue_bounded_context_id params with
        | Some b =>
          let new_context := if String.eqb b "null" then None else Some b in
          (set_bounded_context_id element1 new_context,
           fields1 ++ ["bounded_context_id"],
           map (move_membership (el_id element1) old_context new_context)
               (bounded_contexts workshop))
        | None => (element1, fields1, bounded_contexts workshop)
        end in
      let element3 := set_updated_at element2 timestamp in
      let elements' :=
        update_first (has_id (ue_element_id params)) (fun _ => element3)
                     (elements workshop) in
      let workshop' := mkWorkshop (metadata workshop) elements' contexts' in
      (inr (mkUpdateElementResponse (ue_element_id params) fields2
              "Element updated successfully"),
       save_workshop store now workshop')
    end
  end.

(** ** delete_element *)

Record DeleteElementInput := mkDeleteElementInput {
  de_workshop_id : string;
  de_element_id : string
}.

Record DeleteElementResponse := mkDeleteElementResponse {
  dr_id : string;
  dr_name : string;
  dr_type : string;
  dr_message : string
}.

(** [[t for t in l if t != x]] *)
Definition without (x : string) (l : list string) : list string :=
  filter (fun t => t ≠ x) l.

Definition delete_element (store : gmap string Workshop)
    (now : string) (params : DeleteElementInput)
  : (Error + DeleteElementResponse) * gmap string Workshop :=
  match load_workshop store (de_workshop_id params) with
  | inl err => (inl err, store)
  | inr workshop =>
    match find_element workshop (de_element_id params) with
    | None => (inl (ElementNotFound (de_element_id params)), store)
    | Some element =>
      let element_name := el_name element in
      let element_type := type_value (el_type element) in
      let kept := filter (fun e => el_id e ≠ de_element_id params) (elements workshop) in
      let elements' :=
        map (fun e => set_links e (without (de_element_id params) (triggers e))
                                  (without (de_element_id params) (triggered_by e)))
            kept in
      let contexts' :=
        map (fun c => set_element_ids c (without (de_element_id params) (element_ids c)))
            (bounded_contexts workshop) in
      let workshop' := mkWorkshop (metadata workshop) elements' contexts' in
      (inr (mkDeleteElementResponse (de_element_id params) element_name element_type
              (type_title (el_type element) +:+ " '" +:+ element_name
                 +:+ "' deleted successfully")),
       save_workshop store now workshop')
    end
  end.

(** ** assign_to_context *)

Record AssignToContextInput := mkAssignToContextInput {
  ac_workshop_id : string;
  ac_context_id : string;
  ac_element_ids : list string
}.

Record AssignToContextResponse := mkAssignToContextResponse {
  context_name : string;
  assigned_count : Z;
  assigned_elements : list string;
  warnings : option string
}.

(** The state of the loop over [params.element_ids]. *)
Record AssignState := mkAssignState {
  as_workshop : Workshop;
  assigned : list string;
  not_found : list string
}.

(** One iteration. [context] is the first context whose id is [context_id],
    [element] the first element whose id is [element_id]. *)
Definition assign_one (context_id : string) (st : AssignState) (element_id : string)
  : AssignState :=
  let w := as_workshop st in
  match find_element w element_id with
  | Some _ =>
    let elements' :=
      update_first (has_id element_id)
                   (fun e => set_bounded_context_id e (Some context_id))
                   (elements w) in
    let contexts' :=
      update_first (ctx_has_id context_id)
                   (fun c => set_element_ids c (append_if_absent element_id (element_ids c)))
                   (bounded_contexts w) in
    mkAssignState (mkWorkshop (metadata w) elements' contexts')
                  (assigned st ++ [element_id]) (not_found st)
  | None =>
    mkAssignState w (assigned st) (not_found st ++ [element_id])
  end.

Definition assign_loop (context_id : string) (w : Workshop) (ids : list string)
  : AssignState :=
  foldl (assign_one context_id) (mkAssignState w [] []) ids.

Definition assign_to_context (store : gmap string Workshop)
    (now : string) (params : AssignToContextInput)
  : (Error + AssignToContextResponse) * gmap string Workshop :=
  match load_workshop store (ac_workshop_id params) with
  | inl err => (inl err, store)
  | inr workshop =>
    match find_context workshop (ac_context_id params) with
    | None => (inl (ContextNotFound (ac_context_id params)), store)
    | Some context =>
      let st := assign_loop (ac_context_id params) workshop (ac_element_ids params) in
      (inr (mkAssignToContextResponse
              (ctx_name context) (len (assigned st)) (assigned st)
              (if not_found st is [] then None
               else Some ("Elements not found: " +:+ join ", " (not_found st)))),
       save_workshop store now (as_workshop st))
    end
  end.

(** ** get_statistics

    The embedding stops at the dictionary [stats], which the tool then prints
    as JSON or as markdown. A Python [dict] with string keys is a [gmap]. *)

Record Statistics := mkStatistics {
  st_name : string;
  st_domain : option string;
  st_created_at : string;
  st_updated_at : string;
  total_elements : Z;
  total_bounded_contexts : Z;
  by_type : gmap string Z;
  by_context : gmap string Z;
  elements_with_triggers : Z;
  elements_with_triggered_by : Z;
  total_trigger_links : Z;
  elements_in_contexts : Z;
  elements_without_context : Z
}.

(** [for etype in ElementType: stats["by_type"][etype.value] = count] *)
Definition count_by_type (w : Workshop) : gmap string Z :=
  foldl (fun d etype =>
           <[type_value etype := len (filter (fun e => el_type e = etype) (elements w))]> d)
        ∅ all_element_types.

(** [for ctx in workshop.bounded_contexts:
       stats["by_context"][ctx.name] = len(ctx.element_ids)] *)
Definition count_by_context (w : Workshop) : gmap string Z :=
  foldl (fun d ctx => <[ctx_name ctx := len (element_ids ctx)]> d)
        ∅ (bounded_contexts w).

(** The loop over the relationships: the three counters of
    [stats["relationships"]], in the order of the dictionary. *)
Definition count_relationships (w : Workshop) : Z * Z * Z :=
  foldl (fun '(with_triggers, with_triggered_by, links) element =>
           let '(with_triggers, links) :=
             if triggers element is [] then (with_triggers, links)
             else (with_triggers + 1, links + len (triggers element)) in
           let with_triggered_by :=
             if triggered_by element is [] then with_triggered_by
             else with_triggered_by + 1 in
           (with_triggers, with_triggered_by, links))
        (0, 0, 0) (elements w).

Definition count_coverage (w : Workshop) : Z * Z :=
  foldl (fun '(inside, outside) element =>
           if truthy (bounded_context_id element) then (inside + 1, outside)
           else (inside, outside + 1))
        (0, 0) (elements w).

Definition get_statistics (store : gmap string Workshop) (workshop_id : string)
  : Error + Statistics :=
  match load_workshop store workshop_id with
  | inl err => inl err
  | inr workshop =>
    let '(with_triggers, with_triggered_by, links) := count_relationships workshop in
    let '(inside, outside) := count_coverage workshop in
    inr (mkStatistics
           (md_name (metadata workshop)) (md_domain (metadata workshop))
           (md_created_at (metadata workshop)) (md_updated_at (metadata workshop))
           (len (elements workshop)) (len (bounded_contexts workshop))
           (count_by_type workshop) (count_by_context workshop)
           with_triggers with_triggered_by links inside outside)
  end.

(** ** visualize_flow *)

Record VisualizeFlowInput := mkVisualizeFlowInput {
  vf_workshop_id : string;
  start_element_id : option string;
  max_depth : Z;
  max_elements : Z
}.

(** The mutable state shared by the calls of [trace_flow]: the set [visited]
    handed down from the top-level call and the cell [element_count[0]]. *)
Record TraceState := mkTraceState {
  visited : gset string;
  element_count : Z
}.

Definition limit_line (prefix : string) : string :=
  prefix +:+ "... (max elements limit reached)".

Definition element_line (prefix : string) (element : EventStormingElement) : string :=
  prefix +:+ "â†’ [" +:+ type_value (el_type element) +:+ "] **"
         +:+ el_name element +:+ "** `" +:+ el_id element +:+ "`".

Definition notes_line (prefix : string) (n : string) : string :=
  prefix +:+ "  _" +:+ n +:+ "_".

(** [if element.notes and len(element.notes) < 100] *)
Definition short_notes (element : EventStormingElement) : option string :=
  match notes element with
  | Some n =>
    if negb (String.eqb n "") && (Z.of_nat (String.length n) <? 100) then Some n else None
  | None => None
  end.

(** The loop [for trigger_id in element.triggers] of [trace_flow]; [call] is
    the recursive call, at the depth and indentation of the children. It has
    no result when a recursive call has none. *)
Fixpoint follow_triggers
    (call : string -> TraceState -> option (list string * TraceState))
    (max_elements : Z) (prefix : string)
    (trigger_ids : list string) (lines : list string) (st : TraceState)
  : option (list string * TraceState) :=
  match trigger_ids with
  | [] => Some (lines, st)
  | trigger_id :: rest =>
    if max_elements <=? element_count st
    then Some (lines ++ [limit_line (prefix +:+ "  ")], st)
    else
      match call trigger_id st with
      | None => None
      | Some (sub, st') =>
        follow_triggers call max_elements prefix rest (lines ++ sub) st'
      end
  end.

(** [trace_flow], the nested function of [visualize_flow]. The recursion of
    the source is on [depth]; [fuel] bounds the number of nested calls, and
    [None] is the answer of a call that ran out of it. *)
Fixpoint trace_flow (fuel : nat) (w : Workshop) (params : VisualizeFlowInput)
    (element_id : string) (depth : Z) (indent : nat) (st : TraceState)
  : option (list string * TraceState) :=
  match fuel with
  | O => None
  | S fuel' =>
    if (max_depth params <=? depth) || bool_decide (element_id ∈ visited st)
    then Some ([], st)
    else if max_elements params <=? element_count st
    then Some ([limit_line (str_repeat "  " indent)], st)
    else
      let st1 := mkTraceState ({[element_id]} ∪ visited st) (element_count st + 1) in
      match find_element w element_id with
      | None => Some ([], st1)
      | Some element =>
        let prefix := str_repeat "  " indent in
        let lines :=
          element_line prefix element ::
          (if short_notes element is Some n then [notes_line prefix n] else []) in
        follow_triggers
          (fun trigger_id => trace_flow fuel' w params trigger_id (depth + 1) (S indent))
          (max_elements params) prefix (triggers element) lines st1
      end
  end.

(** What one run of the body of [visualize_flow] leaves behind: the list
    [lines], the final value of [element_count[0]], and the set [visited] of
    every top-level call of [trace_flow], in call order. The sets are local
    to the source (each is dropped when its call returns); the run keeps them
    so that the nodes visited by the whole call can be counted. *)
Record FlowRun := mkFlowRun {
  fr_lines : list string;
  fr_element_count : Z;
  fr_visited : list (gset string)
}.

(** The loop [for root in roots]. *)
Fixpoint trace_roots (fuel : nat) (w : Workshop) (params : VisualizeFlowInput)
    (roots : list EventStormingElement) (run : FlowRun) : option FlowRun :=
  match roots with
  | [] => Some run
  | root :: rest =>
    if max_elements params <=? fr_element_count run
    then Some (mkFlowRun (fr_lines run ++ [limit_line ""])
                         (fr_element_count run) (fr_visited run))
    else
      match trace_flow fuel w params (el_id root) 0 0
                       (mkTraceState ∅ (fr_element_count run)) with
      | None => None
      | Some (sub, st) =>
        trace_roots fuel w params rest
          (mkFlowRun (fr_lines run ++ ["## Flow from: " +:+ el_name root] ++ sub ++ [""])
                     (element_count st) (fr_visited run ++ [visited st]))
      end
  end.

Definition display_limit_line (params : VisualizeFlowInput) : string :=
  "âš ï¸ Display limit reached (" +:+ pretty (max_elements params) +:+ " elements). "
  +:+ "Use start_element_id to focus on specific flows.".

(** The body of [visualize_flow] on a loaded workshop, up to the final join. *)
Definition flow_run (fuel : nat) (w : Workshop) (params : VisualizeFlowInput)
  : option (Error + FlowRun) :=
  let header := ["# Event Flow Visualization: " +:+ md_name (metadata w); ""] in
  let traced :=
    if truthy (start_element_id params) then
      let start_id := default "" (start_element_id params) in
      match find_element w start_id with
      | None => Some (inl (StartElementNotFound start_id))
      | Some start =>
        match trace_flow fuel w params start_id 0 0 (mkTraceState ∅ 0) with
        | None => None
        | Some (sub, st) =>
          Some (inr (mkFlowRun (header ++ ["## Flow from: " +:+ el_name start; ""] ++ sub)
                               (element_count st) [visited st]))
        end
      end
    else
      let roots := filter (fun e => triggered_by e = []) (elements w) in
      if roots is [] then
        Some (inr (mkFlowRun
          (header ++
           ["No root elements found (all elements are triggered by something).";
            "This might indicate circular dependencies or incomplete modeling."])
          0 []))
      else
        match trace_roots fuel w params roots
                (mkFlowRun (header ++ ["Found " +:+ pretty (len roots) +:+ " root element(s)"; ""])
                           0 []) with
        | None => None
        | Some run => Some (inr run)
        end in
  match traced with
  | Some (inr run) =>
    if max_elements params <=? fr_element_count run
    then Some (inr (mkFlowRun (fr_lines run ++ [""; display_limit_line params])
                              (fr_element_count run) (fr_visited run)))
    else Some (inr run)
  | other => other
  end.

(** Nested calls of [trace_flow] go from depth 0 to depth [max_depth]. *)
Definition flow_fuel (params : VisualizeFlowInput) : nat :=
  S (Z.to_nat (max_depth params)).

Definition visualize_flow (store : gmap string Workshop) (params : VisualizeFlowInput)
  : option (Error + string) :=
  match load_workshop store (vf_workshop_id params) with
  | inl err => Some (inl err)
  | inr workshop =>
    match flow_run (flow_fuel params) workshop params with
    | None => None
    | Some (inl err) => Some (inl err)
    | Some (inr run) => Some (inr (join newline (fr_lines run)))
    end
  end.

(** ** create_workshop and create_bounded_context *)

Record CreateWorkshopInput := mkCreateWorkshopInput {
  cw_name : string;
  cw_description : option string;
  cw_domain : option string;
  cw_facilitators : list string
}.

(** The response, but for ["storage_path"], the place of the file on the
    machine. *)
Record CreateWorkshopResponse := mkCreateWorkshopResponse {
  cwr_workshop_id : string;
  cwr_name : string;
  cwr_message : string
}.

(** [workshop_id] is the value of [generate_id ()], [timestamp] the value of
    the tool's own [get_timestamp ()], [now] the one read by [save_workshop].
    The schema version is the default of the metadata model. *)
Definition create_workshop (store : gmap string Workshop)
    (workshop_id timestamp now : string) (params : CreateWorkshopInput)
  : CreateWorkshopResponse * gmap string Workshop :=
  let metadata :=
    mkMetadata workshop_id (cw_name params)
               (Some (or_empty (cw_description params)))
               (Some (or_empty (cw_domain params)))
               timestamp timestamp (cw_facilitators params) "2.0" in
  let workshop := mkWorkshop metadata [] [] in
  (mkCreateWorkshopResponse workshop_id (cw_name params)
     ("Workshop '" +:+ cw_name params +:+ "' created successfully"),
   save_workshop store now workshop).

Record CreateBoundedContextInput := mkCreateBoundedContextInput {
  cb_workshop_id : string;
  cb_name : string;
  cb_description : option string;
  cb_color : option string
}.

Record CreateBoundedContextResponse := mkCreateBoundedContextResponse {
  cbr_context_id : string;
  cbr_name : string;
  cbr_message : string
}.

(** [context_id] is the value of [generate_id ()]. *)
Definition create_bounded_context (store : gmap string Workshop)
    (context_id now : string) (params : CreateBoundedContextInput)
  : (Error + CreateBoundedContextResponse) * gmap string Workshop :=
  match load_workshop store (cb_workshop_id params) with
  | inl err => (inl err, store)
  | inr workshop =>
    let context :=
      mkContext context_id (cb_name params) (Some (or_empty (cb_description params)))
                [] (cb_color params) in
    let workshop' :=
      mkWorkshop (metadata workshop) (elements workshop)
                 (bounded_contexts workshop ++ [context]) in
    (inr (mkCreateBoundedContextResponse context_id (cb_name params)
            ("Bounded context '" +:+ cb_name params +:+ "' created successfully")),
     save_workshop store now workshop')
  end.

(** ** Formatting helpers of the queries *)

Record ElementSummary := mkElementSummary {
  es_id : string;
  es_type : string;
  es_name : string;
  es_position : Z;
  es_bounded_context_id : option string
}.

Definition format_element_summary (element : EventStormingElement) : ElementSummary :=
  mkElementSummary (el_id element) (type_value (el_type element)) (el_name element)
                   (position element) (bounded_context_id element).

(** [len(range(a, b))] *)
Definition range_len (a b : Z) : Z := Z.max 0 (b - a).

(** The number the pagination line announces as shown. *)
Definition showing (pagination : PaginationInfo) : Z :=
  range_len ((pg_page pagination - 1) * pg_page_size pagination)
            (Z.min (pg_page pagination * pg_page_size pagination)
                   (pg_total_items pagination)).

Definition format_pagination_markdown (pagination : PaginationInfo) : string :=
  let lines :=
    ["**Page " +:+ pretty (pg_page pagination) +:+ " of "
       +:+ pretty (pg_total_pages pagination) +:+ "** "
       +:+ "(showing " +:+ pretty (showing pagination) +:+ " "
       +:+ "of " +:+ pretty (pg_total_items pagination) +:+ " items)"] in
  let hints :=
    (if has_next pagination
     then ["Use `page=" +:+ pretty (pg_page pagination + 1) +:+ "` for next page"]
     else []) ++
    (if has_prev pagination
     then ["Use `page=" +:+ pretty (pg_page pagination - 1) +:+ "` for previous page"]
     else []) in
  let lines :=
    if hints is [] then lines
    else lines ++ ["ðŸ’¡ " +:+ join " | " hints] in
  join newline lines.

(** ** get_timeline

    The embedding of the three paginated queries stops at the page of
    elements and the pagination record, which the tool then prints as JSON or
    as markdown. *)

(** [sorted(l, key=key)] is a stable sort that compares keys with [<] only:
    an insertion sort that puts an item before the first one whose key is not
    below its own gives the same list. *)
Section Sorted.
Context {A K : Type} (key : A -> K) (ltb : K -> K -> bool).

Fixpoint sorted_insert (x : A) (l : list A) : list A :=
  match l with
  | [] => [x]
  | y :: rest =>
    if ltb (key y) (key x) then y :: sorted_insert x rest else x :: y :: rest
  end.

Definition py_sorted (l : list A) : list A := foldr sorted_insert [] l.
End Sorted.

(** [<] on the tuples [(e.position, e.created_at)]: the integers first, then
    the strings, character by character. *)
Definition timeline_key (e : EventStormingElement) : Z * string :=
  (position e, created_at e).

Definition timeline_ltb (k1 k2 : Z * string) : bool :=
  (k1.1 <? k2.1) || ((k1.1 =? k2.1) && String.ltb k1.2 k2.2).

Record GetTimelineInput := mkGetTimelineInput {
  gt_workshop_id : string;
  gt_element_type : option ElementType;
  gt_bounded_context_id : option string;
  gt_page : Z;
  gt_page_size : Z
}.

(** The two optional filters shared by the timeline and the search. *)
Definition type_filter (t : option ElementType) (e : EventStormingElement) : bool :=
  match t with
  | Some t => bool_decide (el_type e = t)
  | None => true
  end.

Definition context_filter (b : option string) (e : EventStormingElement) : bool :=
  if truthy b then bool_decide (bounded_context_id e = b) else true.

(** The list [elements] of [get_timeline] before pagination. *)
Definition timeline_elements (w : Workshop) (params : GetTimelineInput)
  : list EventStormingElement :=
  let elements := elements w in
  let elements :=
    if gt_element_type params is Some t
    then filter (fun e => el_type e = t) elements else elements in
  let elements :=
    if truthy (gt_bounded_context_id params)
    then filter (fun e => bounded_context_id e = gt_bounded_context_id params) elements
    else elements in
  py_sorted timeline_key timeline_ltb elements.

Definition get_timeline (store : gmap string Workshop) (params : GetTimelineInput)
  : Error + (list EventStormingElement * PaginationInfo) :=
  match load_workshop store (gt_workshop_id params) with
  | inl err => inl err
  | inr workshop =>
    inr (paginate_list (timeline_elements workshop params)
                       (gt_page params) (gt_page_size params))
  end.

(** ** search_elements *)

(** [needle in haystack] on strings. *)
Fixpoint is_substring (needle haystack : string) : bool :=
  String.prefix needle haystack ||
  match haystack with
  | EmptyString => false
  | String _ rest => is_substring needle rest
  end.

Record SearchElementsInput := mkSearchElementsInput {
  se_workshop_id : string;
  se_query : string;
  se_element_type : option ElementType;
  se_bounded_context_id : option string;
  se_page : Z;
  se_page_size : Z
}.

Section Search.
(** [str.lower], a function of the Python library. *)
Variable lower : string -> string.

(** [query_lower in element.name.lower() or query_lower in
    element.notes.lower()]. The second test is evaluated only when the first
    fails, and raises [AttributeError] on an element whose [notes] is [None]:
    the result is then [None]. *)
Definition query_matches (query_lower : string) (element : EventStormingElement)
  : option bool :=
  if is_substring query_lower (lower (el_name element)) then Some true
  else
    match notes element with
    | Some n => Some (is_substring query_lower (lower n))
    | None => None
    end.

(** The loop that fills [matches]; [None] when an iteration raises. *)
Fixpoint search_matches (params : SearchElementsInput) (query_lower : string)
    (elements : list EventStormingElement) : option (list EventStormingElement) :=
  match elements with
  | [] => Some []
  | element :: rest =>
    if negb (type_filter (se_element_type params) element)
    then search_matches params query_lower rest
    else if negb (context_filter (se_bounded_context_id params) element)
    then search_matches params query_lower rest
    else
      match query_matches query_lower element with
      | None => None
      | Some hit =>
        match search_matches params query_lower rest with
        | None => None
        | Some matches => Some (if hit then element :: matches else matches)
        end
      end
  end.

(** [None] is the uncaught exception. *)
Definition search_elements (store : gmap string Workshop) (params : SearchElementsInput)
  : option (Error + (list EventStormingElement * PaginationInfo)) :=
  match load_workshop store (se_workshop_id params) with
  | inl err => Some (inl err)
  | inr workshop =>
    match search_matches params (lower (se_query params)) (elements workshop) with
    | None => None
    | Some matches =>
      Some (inr (paginate_list matches (se_page params) (se_page_size params)))
    end
  end.
End Search.

(** ** get_context_overview *)

Record GetContextOverviewInput := mkGetContextOverviewInput {
  go_workshop_id : string;
  go_context_id : option string;
  go_page : Z;
  go_page_size : Z
}.

(** One entry of the list [result] of the JSON branch, before the elements of
    the page are printed. *)
Record ContextOverview := mkContextOverview {
  co_context : BoundedContext;
  co_elements : list EventStormingElement;
  co_pagination : PaginationInfo;
  type_breakdown : gmap string Z
}.

(** [[e for e in workshop.elements if e.id in ctx.element_ids]] *)
Definition context_elements (w : Workshop) (ctx : BoundedContext)
  : list EventStormingElement :=
  filter (fun e => el_id e ∈ element_ids ctx) (elements w).

(** [{etype.value: len([e for e in elements if e.type == etype])
      for etype in ElementType}] *)
Definition breakdown (elements : list EventStormingElement) : gmap string Z :=
  foldl (fun d etype =>
           <[type_value etype := len (filter (fun e => el_type e = etype) elements)]> d)
        ∅ all_element_types.

Definition context_overview (w : Workshop) (params : GetContextOverviewInput)
    (ctx : BoundedContext) : ContextOverview :=
  let elements := context_elements w ctx in
  let '(paginated_elements, pagination) :=
    paginate_list elements (go_page params) (go_page_size params) in
  mkContextOverview ctx paginated_elements pagination (breakdown elements).

Definition get_context_overview (store : gmap string Workshop)
    (params : GetContextOverviewInput) : Error + list ContextOverview :=
  match load_workshop store (go_workshop_id params) with
  | inl err => inl err
  | inr workshop =>
    let contexts := bounded_contexts workshop in
    let contexts :=
      if truthy (go_context_id params)
      then filter (fun c => Some (ctx_id c) = go_context_id params) contexts
      else contexts in
    inr (map (context_overview workshop params) contexts)
  end.

(** ** migrate_workshop_data

    The function works on the dictionary read from a workshop file, before
    validation. The embedding takes this dictionary with the shape of a
    workshop file: ["metadata"], when present, is a dictionary, and
    ["elements"], when present, is a list of dictionaries. The values under
    the keys of these dictionaries are arbitrary: a string, or anything else.
    The other top-level keys are not read. *)

Section Migration.
(** The JSON values that are not strings. *)
Variable other : Type.
(** [str.strip], a function of the Python library. *)
Variable strip : string -> string.

Inductive RawValue :=
  | RStr (s : string)
  | ROther (v : other).

Record RawData := mkRawData {
  raw_metadata : option (gmap string RawValue);
  raw_elements : option (list (gmap string RawValue))
}.

(** [element.get(k, "").strip()]: [None] stands for the [AttributeError] of a
    value without [strip]. *)
Definition get_stripped (element : gmap string RawValue) (k : string) : option string :=
  match element !! k with
  | None => Some (strip "")
  | Some (RStr s) => Some (strip s)
  | Some (ROther _) => None
  end.

(** The body of the loop over the elements. *)
Definition migrate_element (element : gmap string RawValue)
  : option (gmap string RawValue) :=
  let merged :=
    if bool_decide (is_Some (element !! "description")) then
      match get_stripped element "description" with
      | None => None
      | Some description =>
        match get_stripped element "notes" with
        | None => None
        | Some notes =>
          let element' :=
            if negb (String.eqb description "") && negb (String.eqb notes "")
            then <["notes" := RStr (description +:+ newline +:+ newline +:+ notes)]> element
            else if negb (String.eqb description "")
            then <["notes" := RStr description]> element
            else if String.eqb notes ""
            then <["notes" := RStr ""]> element
            else element in
          Some (delete "description" element')
        end
      end
    else Some element in
  match merged with
  | None => None
  | Some element =>
    Some (if bool_decide (is_Some (element !! "notes")) then element
          else <["notes" := RStr ""]> element)
  end.

(** [None] when an element raises. *)
Definition migrate_workshop_data (data : RawData) : option RawData :=
  let schema_version :=
    default (RStr "1.0") (default ∅ (raw_metadata data) !! "schema_version") in
  if schema_version is RStr "2.0" then Some data
  else
    match mapM migrate_element (default [] (raw_elements data)) with
    | None => None
    | Some migrated =>
      Some (mkRawData
              ((fun m => <["schema_version" := RStr "2.0"]> m) <$> raw_metadata data)
              ((fun _ => migrated) <$> raw_elements data))
    end.
End Migration.

(** * Notions of the specification *)

(** The ceiling of [n / p] as the specification writes it. *)
Definition ceil_div (n p : Z) : Z := - ((- n) `div` p).

(** A patch that supplies no optional field. *)
Definition empty_patch (params : UpdateElementInput) : Prop :=
  ue_name params = None /\ ue_position params = None /\ ue_notes params = None /\
  ue_triggers params = None /\ ue_triggered_by params = None /\
  ue_bounded_context_id params = None.

(** The ids appended to a context by the successive [append_if_absent]. *)
Definition add_all (l ids : list string) : list string :=
  foldl (fun acc x => append_if_absent x acc) l ids.

(** The supplied ids that name an element of the workshop, and those that
    name none, in the order supplied. *)
Definition found_ids (w : Workshop) (ids : list string) : list string :=
  filter (fun x => is_Some (find_element w x)) ids.

Definition missing_ids (w : Workshop) (ids : list string) : list string :=
  filter (fun x => find_element w x = None) ids.

(** The state of [trace_flow] after a call, against the state before: the
    set [visited] only grows, the counter grows by the number of ids added to
    the set, and it does not pass [max_elements] unless it was already
    beyond. *)
Definition trace_step (params : VisualizeFlowInput) (st st' : TraceState) : Prop :=
  visited st ⊆ visited st' /\
  Z.of_nat (size (visited st')) + element_count st
  = Z.of_nat (size (visited st)) + element_count st' /\
  element_count st <= element_count st' /\
  element_count st' <= Z.max (element_count st) (max_elements params).

(** The ids visited by the top-level calls of one run, each counted in every
    call that visited it. *)
Definition visited_total (sets : list (gset string)) : Z :=
  foldr (fun X n => Z.of_nat (size X) + n) 0 sets.

(** The state of the loop over the roots after some iterations, against the
    state before: the counter grows by the number of ids the new top-level
    calls visited and stays within [max_elements]. *)
Definition roots_step (params : VisualizeFlowInput) (run run' : FlowRun) : Prop :=
  visited_total (fr_visited run') + fr_element_count run
  = visited_total (fr_visited run) + fr_element_count run' /\
  fr_element_count run <= fr_element_count run' /\
  fr_element_count run' <= Z.max (fr_element_count run) (max_elements params).

(** The trigger graph as [trace_flow] reads it: an edge goes from the id [x]
    to every id listed in the [triggers] of the element found under [x]. *)
Definition edge (w : Workshop) (x y : string) : Prop :=
  match find_element w x with
  | Some e => y ∈ triggers e
  | None => False
  end.

(** [walk w x ys]: from [x], trigger edges lead through the ids [ys] in turn.
    The walk has [length ys] edges and ends at [walk_end x ys]. *)
Fixpoint walk (w : Workshop) (x : string) (ys : list string) : Prop :=
  match ys with
  | [] => True
  | y :: rest => edge w x y /\ walk w y rest
  end.

Definition walk_end (x : string) (ys : list string) : string :=
  default x (last ys).

(** [ys] is the only path from [start] to [target]: the only walk between
    the two that passes no id twice. *)
Definition only_path (w : Workshop) (start : string) (ys : list string)
    (target : string) : Prop :=
  walk w start ys /\ walk_end start ys = target /\ NoDup (start :: ys) /\
  forall zs, walk w start zs -> NoDup (start :: zs) ->
             walk_end start zs = target -> zs = ys.

(** [y] is at the end of a path from [x] that passes no id twice and no id
    of [blocked] and that, started at [depth], ends below [max_depth]. *)
Definition reached_from (w : Workshop) (params : VisualizeFlowInput)
    (blocked : gset string) (x : string) (depth : Z) (y : string) : Prop :=
  exists zs, walk w x zs /\ walk_end x zs = y /\ NoDup (x :: zs) /\
             (forall v, v ∈ x :: zs -> v ∉ blocked) /\
             depth + Z.of_nat (length zs) < max_depth params.

(** A line without the spaces of its indentation. *)
Fixpoint lstrip (s : string) : string :=
  match s with
  | EmptyString => EmptyString
  | String c rest => if Ascii.eqb c Ascii.Space then lstrip rest else s
  end.

(** The line that the trace prints for [e], the element found under
    [target], is the line of no element found under another id. *)
Definition line_of_no_other (w : Workshop) (target : string)
    (e : EventStormingElement) : Prop :=
  forall x e' n m,
    find_element w x = Some e' ->
    element_line (str_repeat "  " n) e' = element_line (str_repeat "  " m) e ->
    x = target.

(** Every workshop file is named after the id in its metadata, as are the
    files that [save_workshop] writes. *)
Definition store_consistent (store : gmap string Workshop) : Prop :=
  forall k w, store !! k = Some w -> md_id (metadata w) = k.

(** [store'] differs from [store] at most in the file [k]. *)
Definition writes_only (k : string) (store store' : gmap string Workshop) : Prop :=
  forall j, j <> k -> store' !! j = store !! j.

(** The element ids of a workshop are distinct, and every context lists an id
    at most once and lists ids of elements only. *)
Definition well_formed (w : Workshop) : Prop :=
  NoDup (map el_id (elements w)) /\
  forall c, c ∈ bounded_contexts w ->
    NoDup (element_ids c) /\
    forall i, i ∈ element_ids c -> i ∈ map el_id (elements w).

(** An id that the workshop does not use: it names no element and occurs in
    no list of triggers and in no context. *)
Definition unused_id (w : Workshop) (i : string) : Prop :=
  (forall e, e ∈ elements w ->
     el_id e <> i /\ (i ∉ triggers e) /\ (i ∉ triggered_by e)) /\
  (forall c, c ∈ bounded_contexts w -> i ∉ element_ids c).

(** What a mutating tool leaves in the store: nothing new, or the stamped
    save of a workshop with the metadata of the one it loaded. *)
Definition saved_from (store : gmap string Workshop) (workshop_id : string)
    (store' : gmap string Workshop) : Prop :=
  store' = store \/
  exists w w' now,
    store !! workshop_id = Some w /\ metadata w' = metadata w /\
    store' = save_workshop store now w'.

(** The number of trigger edges that leave the elements of a list. *)
Definition total_links (l : list EventStormingElement) : Z :=
  foldr (fun e n => len (triggers e) + n) 0 l.

(** The number of elements of a type. *)
Definition count_of_type (l : list EventStormingElement) (t : ElementType) : Z :=
  len (filter (fun e => el_type e = t) l).

(** The sum of the counts of the eight types. *)
Definition sum_over_types (count : ElementType -> Z) : Z :=
  foldr (fun t n => count t + n) 0 all_element_types.

(** The elements after the successive assignments of the loop of
    [assign_to_context]: for each id in turn, the first element of that id
    gets the context id. *)
Definition assign_all (context_id : string) (ids : list string)
    (l : list EventStormingElement) : list EventStormingElement :=
  foldl (fun els x =>
           update_first (has_id x)
                        (fun e => set_bounded_context_id e (Some context_id)) els)
        l ids.

(** The order of the timeline: by position, and by creation time among the
    elements of one position. *)
Definition timeline_le (a b : EventStormingElement) : Prop :=
  position a < position b \/
  (position a = position b /\ String.leb (created_at a) (created_at b) = true).

(** An element that passes the optional filters of the timeline and of the
    search. *)
Definition passes_filters (t : option ElementType) (b : option string)
    (e : EventStormingElement) : bool :=
  type_filter t e && context_filter b e.

Section SearchNotions.
Variable lower : string -> string.

(** The two tests of the search, each on its own. *)
Definition name_matches (query_lower : string) (e : EventStormingElement) : bool :=
  is_substring query_lower (lower (el_name e)).

Definition notes_match (query_lower : string) (e : EventStormingElement) : bool :=
  match notes e with
  | Some n => is_substring query_lower (lower n)
  | None => false
  end.
End SearchNotions.

(** Every element has notes, empty or not. *)
Definition notes_present (w : Workshop) : Prop :=
  forall e, e ∈ elements w -> notes e <> None.

(** * Sample workshops *)

Module Sample.

Definition meta : WorkshopMetadata :=
  mkMetadata "w1" "Shop" (Some "") (Some "Retail") "t0" "t0" [] "2.0".

(** A chain A -> B -> C: one command and two events, in two contexts. *)
Definition place_order : EventStormingElement :=
  mkElement "A" COMMAND "Place Order" 0 (Some "") "t1" "t1" (Some "")
            ["B"] [] (Some "ctx2").
Definition order_placed : EventStormingElement :=
  mkElement "B" EVENT "Order Placed" 0 (Some "") "t2" "t2" (Some "")
            ["C"] ["A"] (Some "ctx1").
Definition payment_taken : EventStormingElement :=
  mkElement "C" EVENT "Payment Taken" 1 (Some "") "t3" "t3" (Some "")
            [] ["B"] (Some "ctx1").

Definition ordering : BoundedContext :=
  mkContext "ctx1" "Ordering" (Some "") ["B"; "C"] None.
Definition billing : BoundedContext :=
  mkContext "ctx2" "Billing" (Some "") ["A"] None.

Definition workshop : Workshop :=
  mkWorkshop meta [place_order; order_placed; payment_taken] [ordering; billing].

Definition store : gmap string Workshop := {[ "w1" := workshop ]}.

(** The two-cycle A -> B, B -> A. *)
Definition ping : EventStormingElement :=
  mkElement "A" EVENT "Ping" 0 (Some "") "t1" "t1" (Some "") ["B"] ["B"] None.
Definition pong : EventStormingElement :=
  mkElement "B" EVENT "Pong" 1 (Some "") "t2" "t2" (Some "") ["A"] ["A"] None.

Definition cycle : Workshop := mkWorkshop meta [ping; pong] [].

(** Two contexts with one name. *)
Definition sales1 : BoundedContext :=
  mkContext "ctx1" "Sales" (Some "") ["B"; "C"] None.
Definition sales2 : BoundedContext :=
  mkContext "ctx2" "Sales" (Some "") ["A"] None.

Definition homonyms : Workshop :=
  mkWorkshop meta [place_order; order_placed; payment_taken] [sales1; sales2].

Definition homonym_store : gmap string Workshop := {[ "w1" := homonyms ]}.

(** A workshop read from a file in which an element has no notes. *)
Definition unnoted : EventStormingElement :=
  mkElement "N" POLICY "Refund Policy" 0 None "t4" "t4" None [] [] None.

Definition legacy : Workshop :=
  mkWorkshop meta [place_order; unnoted] [billing].

Definition legacy_store : gmap string Workshop := {[ "w1" := legacy ]}.

(** [str.lower] on the letters A to Z. *)
Definition lower_char (c : Ascii.ascii) : Ascii.ascii :=
  let n := Ascii.nat_of_ascii c in
  if (Nat.leb 65 n && Nat.leb n 90)%bool then Ascii.ascii_of_nat (n + 32)%nat else c.

Fixpoint lower (s : string) : string :=
  match s with
  | EmptyString => EmptyString
  | String c rest => String (lower_char c) (lower rest)
  end.

End Sample.

(** * Properties *)

(** ** Pagination *)

Lemma ceil_div_bounds (n p : Z) :
  0 < p -> (ceil_div n p - 1) * p < n <= ceil_div n p * p.
Proof.
  intros Hp. unfold ceil_div.
  pose proof (Z.div_mod (- n) p ltac:(lia)) as Hdm.
  pose proof (Z.mod_pos_bound (- n) p Hp) as Hb.
  nia.
Qed.

Lemma ceil_div_unique (n p k : Z) :
  0 < p -> (k - 1) * p < n <= k * p -> k = ceil_div n p.
Proof.
  intros Hp Hk. pose proof (ceil_div_bounds n p Hp) as Hc. nia.
Qed.

Lemma total_pages_ceil (n p : Z) :
  0 < p -> 0 < n -> (n + p - 1) `div` p = ceil_div n p.
Proof.
  intros Hp Hn. apply ceil_div_unique; [done|].
  pose proof (Z.div_mod (n + p - 1) p ltac:(lia)) as Hdm.
  pose proof (Z.mod_pos_bound (n + p - 1) p Hp) as Hb.
  nia.
Qed.

(** A slice between non-negative bounds drops [start] items and keeps the
    next [stop - start]. *)
Lemma py_slice_nonneg {A} (items : list A) (start stop : Z) :
  0 <= start <= stop ->
  py_slice items start stop
  = take (Z.to_nat (stop - start)) (drop (Z.to_nat start) items).
Proof.
  intros H. unfold py_slice, slice_index, len.
  destruct (Z.ltb_spec start 0); [lia|].
  destruct (Z.ltb_spec stop 0); [lia|].
  destruct (Z_le_gt_dec start (Z.of_nat (length items))) as [Hle|Hgt].
  - rewrite (Z.min_l start) by lia.
    destruct (Z_le_gt_dec stop (Z.of_nat (length items))).
    + by rewrite (Z.min_l stop) by lia.
    + rewrite (Z.min_r stop) by lia.
      rewrite !take_ge; [done| |]; rewrite length_drop; lia.
  - rewrite !Z.min_r by lia.
    rewrite !drop_ge by lia. by rewrite !take_nil.
Qed.

(** The pages [0 .. n-1] of size [p], read one after the other, are the first
    [n * p] items. *)
Lemma chunks_concat {A} (items : list A) (p n : nat) :
  concat (map (fun k => take p (drop (k * p) items)) (seq 0 n))
  = take (n * p) items.
Proof.
  induction n as [|n IH]; [done|].
  rewrite seq_S, map_app, concat_app, IH. simpl.
  rewrite app_nil_r, take_take_drop. f_equal. lia.
Qed.

(** Every page of a paginated list: the page number and the slice. *)
Lemma paginate_list_page {A} (items : list A) (page page_size : Z) :
  0 < page_size ->
  let info := (paginate_list items page page_size).2 in
  1 <= pg_page info /\
  (paginate_list items page page_size).1
  = take (Z.to_nat page_size)
         (drop (Z.to_nat ((pg_page info - 1) * page_size)) items).
Proof.
  intros Hp. simpl. split; [lia|].
  rewrite py_slice_nonneg by nia. do 2 f_equal. lia.
Qed.

Lemma paginate_list_total_pages {A} (items : list A) (page page_size : Z) :
  0 < page_size ->
  pg_total_pages (paginate_list items page page_size).2
  = ceil_div (len items) page_size.
Proof.
  intros Hp. simpl.
  destruct (Z.ltb_spec 0 (len items)) as [Hn|Hn].
  - by apply total_pages_ceil.
  - assert (len items = 0) as -> by (unfold len in *; lia).
    unfold ceil_div. simpl. by rewrite Z.div_0_l by lia.
Qed.

Lemma paginate_list_in_range {A} (items : list A) (page page_size : Z) :
  0 < page_size ->
  1 <= page <= ceil_div (len items) page_size ->
  (paginate_list items page page_size).1
  = take (Z.to_nat page_size) (drop (Z.to_nat ((page - 1) * page_size)) items).
Proof.
  intros Hp Hpage.
  destruct (paginate_list_page items page page_size Hp) as [_ ->].
  pose proof (paginate_list_total_pages items page page_size Hp) as Htp.
  simpl in *. rewrite Htp.
  destruct (Z.ltb_spec 0 (ceil_div (len items) page_size)); [|lia].
  rewrite Z.min_l, Z.max_r by lia. done.
Qed.

(** C2. For a page size in [1,200] and any requested page: [total_pages] is
    the ceiling of N / page_size (0 for an empty list); the page is clamped
    into [1, max(total_pages, 1)]; the slice returned is
    [items[(page-1)*page_size : page*page_size]] at the clamped page; and the
    pages 1 .. ceil(N / page_size), concatenated in order, are the list. *)
Theorem paginate_list_contract {A} (items : list A) (page page_size : Z) :
  1 <= page_size <= 200 ->
  let N := len items in
  let result := paginate_list items page page_size in
  let info := result.2 in
  pg_total_pages info = (if N =? 0 then 0 else ceil_div N page_size) /\
  pg_page info = Z.max 1 (Z.min page (Z.max (pg_total_pages info) 1)) /\
  1 <= pg_page info <= Z.max (pg_total_pages info) 1 /\
  result.1 = py_slice items ((pg_page info - 1) * page_size) (pg_page info * page_size) /\
  concat (map (fun k => (paginate_list items (Z.of_nat k) page_size).1)
              (seq 1 (Z.to_nat (ceil_div N page_size)))) = items.
Proof.
  intros Hp N result info.
  assert (0 < page_size) as Hp' by lia.
  pose proof (paginate_list_total_pages items page page_size Hp') as Htp.
  pose proof (ceil_div_bounds N page_size Hp') as Hceil.
  fold result info N in Htp.
  assert (0 <= N) as HN by (unfold N, len; lia).
  assert (0 <= ceil_div N page_size) as Hc0.
  { destruct (Z_lt_le_dec (ceil_div N page_size) 0); [nia|done]. }
  assert (0 <= pg_total_pages info) as Htp0 by (rewrite Htp; exact Hc0).
  split; [|split; [|split; [|split]]].
  - rewrite Htp. destruct (Z.eqb_spec N 0) as [->|]; [|done].
    unfold ceil_div. simpl. by rewrite Z.div_0_l by lia.
  - change (pg_page info) with
      (Z.max 1 (Z.min page (if 0 <? pg_total_pages info then pg_total_pages info else 1))).
    destruct (Z.ltb_spec 0 (pg_total_pages info)); lia.
  - change (pg_page info) with
      (Z.max 1 (Z.min page (if 0 <? pg_total_pages info then pg_total_pages info else 1))).
    destruct (Z.ltb_spec 0 (pg_total_pages info)); lia.
  - subst info result. simpl. do 2 f_equal. lia.
  - rewrite <- seq_shift, map_map.
    rewrite (map_ext_in _ (fun k => take (Z.to_nat page_size)
                                      (drop (k * Z.to_nat page_size) items))).
    + rewrite chunks_concat. apply take_ge. unfold N, len in *. nia.
    + intros k Hk%in_seq.
      rewrite paginate_list_in_range by (fold N; lia).
      do 2 f_equal. lia.
Qed.

Lemma paginate_list_contract_witness :
  1 <= 2 <= 200 /\
  concat (map (fun k => (paginate_list [10; 20; 30; 40; 50] (Z.of_nat k) 2).1)
              (seq 1 (Z.to_nat (ceil_div (len [10; 20; 30; 40; 50]) 2))))
  = [10; 20; 30; 40; 50].
Proof.
  split; [lia|].
  exact (proj2 (proj2 (proj2 (proj2
    (paginate_list_contract [10; 20; 30; 40; 50] 2 2 ltac:(lia)))))).
Defined.

(** ** Lookups after an in-place update *)

Section UpdateFirst.
Context {A : Type} (key : A -> string).

Lemma find_update_first (f : A -> A) (k x : string) (l : list A) :
  (forall a, key a = k -> key (f a) = k) ->
  next_match (fun a => String.eqb (key a) x)
             (update_first (fun a => String.eqb (key a) k) f l)
  = if decide (x = k)
    then f <$> next_match (fun a => String.eqb (key a) x) l
    else next_match (fun a => String.eqb (key a) x) l.
Proof.
  intros Hf. unfold next_match.
  induction l as [|a l IH]; simpl.
  - by destruct (decide (x = k)).
  - destruct (String.eqb_spec (key a) k) as [Hk|Hk]; simpl.
    + rewrite (Hf a Hk). destruct (String.eqb_spec k x) as [Hx|Hx].
      * rewrite decide_True by congruence.
        destruct (String.eqb_spec (key a) x); [done | congruence].
      * rewrite decide_False by congruence.
        destruct (String.eqb_spec (key a) x); [congruence | done].
    + destruct (String.eqb_spec (key a) x) as [Hx|Hx].
      * rewrite decide_False by congruence. done.
      * exact IH.
Qed.

Lemma update_first_keys (f : A -> A) (k : string) (l : list A) :
  (forall a, key a = k -> key (f a) = k) ->
  map key (update_first (fun a => String.eqb (key a) k) f l) = map key l.
Proof.
  intros Hf. induction l as [|a l IH]; simpl; [done|].
  destruct (String.eqb_spec (key a) k) as [Hk|Hk]; simpl.
  - rewrite (Hf a Hk). by rewrite Hk.
  - by rewrite IH.
Qed.

Lemma next_match_Some (x : string) (l : list A) (a : A) :
  next_match (fun a => String.eqb (key a) x) l = Some a ->
  a ∈ l /\ key a = x.
Proof.
  unfold next_match. intros [Hin Heq]%find_some.
  split; [by apply list_elem_of_In | by apply String.eqb_eq].
Qed.

Lemma next_match_None (x : string) (l : list A) :
  next_match (fun a => String.eqb (key a) x) l = None <-> x ∉ map key l.
Proof.
  unfold next_match. induction l as [|a l IH]; simpl.
  - split; [intros _; apply not_elem_of_nil | done].
  - rewrite not_elem_of_cons.
    destruct (String.eqb_spec (key a) x) as [Hx|Hx].
    + split; [done | intros [? _]; congruence].
    + rewrite IH. split; [intros ?; split; [congruence | done] | by intros [_ ?]].
Qed.
End UpdateFirst.

Lemma elem_of_without (x y : string) (l : list string) :
  y ∈ without x l <-> y ∈ l /\ y <> x.
Proof. unfold without. rewrite list_elem_of_filter. tauto. Qed.

Lemma load_workshop_Some (store : gmap string Workshop) (i : string) (w : Workshop) :
  store !! i = Some w -> load_workshop store i = inr w.
Proof. intros H. unfold load_workshop. by rewrite H. Qed.

(** ** delete_element *)

(** C3. Deleting an existing element id X saves the workshop with its
    metadata, with the elements whose id is not X, in their order and each
    with its [triggers] and its [triggered_by] filtered of X and its other
    fields as they were, and with every context, in order, with its
    [element_ids] filtered of X and its other fields as they were. So no
    element has id X afterwards, and X is in no list of triggers and in no
    context, while every other id stays where it was. When no element has id
    X the tool answers with the not-found error and the store is unchanged. *)
Theorem delete_element_cascade (store : gmap string Workshop) (now : string)
    (params : DeleteElementInput) (w : Workshop) :
  store !! de_workshop_id params = Some w ->
  let X := de_element_id params in
  (forall e, find_element w X = Some e ->
     exists resp w',
       delete_element store now params = (inr resp, save_workshop store now w') /\
       dr_id resp = X /\ dr_name resp = el_name e /\
       dr_type resp = type_value (el_type e) /\
       metadata w' = metadata w /\
       Forall2 (fun a a' =>
                  triggers a' = filter (fun t => t <> X) (triggers a) /\
                  triggered_by a' = filter (fun t => t <> X) (triggered_by a) /\
                  el_id a' = el_id a /\ el_type a' = el_type a /\
                  el_name a' = el_name a /\ position a' = position a /\
                  notes a' = notes a /\ created_at a' = created_at a /\
                  updated_at a' = updated_at a /\ created_by a' = created_by a /\
                  bounded_context_id a' = bounded_context_id a)
               (filter (fun a => el_id a <> X) (elements w)) (elements w') /\
       Forall2 (fun c c' =>
                  element_ids c' = filter (fun i => i <> X) (element_ids c) /\
                  ctx_id c' = ctx_id c /\ ctx_name c' = ctx_name c /\
                  ctx_description c' = ctx_description c /\
                  ctx_color c' = ctx_color c)
               (bounded_contexts w) (bounded_contexts w') /\
       map el_id (elements w') = without X (map el_id (elements w)) /\
       (forall e', e' ∈ elements w' ->
          el_id e' <> X /\ (X ∉ triggers e') /\ (X ∉ triggered_by e')) /\
       map ctx_id (bounded_contexts w') = map ctx_id (bounded_contexts w) /\
       (forall c, c ∈ bounded_contexts w' -> X ∉ element_ids c)) /\
  (find_element w X = None ->
     delete_element store now params = (inl (ElementNotFound X), store)).
Proof.
  intros Hload X. unfold delete_element.
  rewrite (load_workshop_Some _ _ _ Hload). fold X. split.
  - intros e ->. eexists _, _. split; [reflexivity|]. simpl.
    do 4 (split; [done|]). split; [|split; [|split; [|split; [|split]]]].
    + apply Forall2_fmap_r, Forall_Forall2_diag, Forall_forall.
      intros a _. by destruct a.
    + apply Forall2_fmap_r, Forall_Forall2_diag, Forall_forall.
      intros c _. by destruct c.
    + unfold without.
      induction (elements w) as [|a l IH]; [done|].
      simpl. rewrite !filter_cons.
      destruct (decide (el_id a <> X)); simpl; by rewrite IH.
    + intros e' (a & -> & Ha)%list_elem_of_fmap.
      apply list_elem_of_filter in Ha as [Hne _]. simpl.
      split; [done|]. split; intros [_ ?]%elem_of_without; done.
    + rewrite map_map. done.
    + intros c (a & -> & _)%list_elem_of_fmap. simpl.
      intros [_ ?]%elem_of_without. done.
  - intros ->. done.
Qed.

Lemma delete_element_cascade_witness :
  exists resp w',
    delete_element Sample.store "t9" (mkDeleteElementInput "w1" "B")
    = (inr resp, save_workshop Sample.store "t9" w') /\
    metadata w' = Sample.meta /\
    map el_id (elements w') = ["A"; "C"] /\
    map triggers (elements w') = [[]; []] /\
    map triggered_by (elements w') = [[]; []] /\
    map element_ids (bounded_contexts w') = [["C"]; ["A"]].
Proof.
  destruct (proj1 (delete_element_cascade Sample.store "t9"
                     (mkDeleteElementInput "w1" "B") Sample.workshop eq_refl)
                  Sample.order_placed eq_refl)
    as (resp & w' & Hrun & _ & _ & _ & Hmd & Hels & Hctx & Hids & _).
  exists resp, w'. split; [exact Hrun|]. split; [exact Hmd|]. split; [exact Hids|].
  cbn in Hels, Hctx.
  destruct (elements w') as [|a1 [|a2 [|a3 l]]];
    [by inversion Hels | by inversion Hels as [|? ? ? ? _ H]; inversion H | |
     by inversion Hels as [|? ? ? ? _ H]; inversion H as [|? ? ? ? _ H']; inversion H'].
  apply Forall2_cons in Hels as [(Ht1 & Hb1 & _) Hels].
  apply Forall2_cons in Hels as [(Ht2 & Hb2 & _) _].
  destruct (bounded_contexts w') as [|c1 [|c2 [|c3 l]]];
    [by inversion Hctx | by inversion Hctx as [|? ? ? ? _ H]; inversion H | |
     by inversion Hctx as [|? ? ? ? _ H]; inversion H as [|? ? ? ? _ H']; inversion H'].
  apply Forall2_cons in Hctx as [(Hc1 & _) Hctx].
  apply Forall2_cons in Hctx as [(Hc2 & _) _].
  cbn. by rewrite Ht1, Ht2, Hb1, Hb2, Hc1, Hc2.
Defined.

(** ** add_element *)

(** C7. Without a position, the new element is appended with, as position,
    the number of elements of its type already in the workshop. *)
Theorem add_element_auto_position (store : gmap string Workshop)
    (element_id timestamp now : string) (params : AddElementInput) (w : Workshop) :
  store !! ae_workshop_id params = Some w ->
  ae_position params = None ->
  let same_type := filter (fun e => el_type e = ae_type params) (elements w) in
  exists resp w' element,
    add_element store element_id timestamp now params
    = (inr resp, save_workshop store now w') /\
    elements w' = elements w ++ [element] /\
    el_id element = element_id /\
    el_type element = ae_type params /\
    position element = len same_type /\
    ar_position resp = len same_type.
Proof.
  intros Hload Hpos same_type. unfold add_element.
  rewrite (load_workshop_Some _ _ _ Hload), Hpos.
  eexists _, _, _. split; [reflexivity|]. simpl. done.
Qed.

Lemma add_element_auto_position_witness :
  exists resp w' element,
    add_element Sample.store "D" "t8" "t9"
      (mkAddElementInput "w1" EVENT "Order Shipped" None None None [] ["C"] None)
    = (inr resp, save_workshop Sample.store "t9" w') /\
    elements w' = elements Sample.workshop ++ [element] /\
    position element = 2.
Proof.
  destruct (add_element_auto_position Sample.store "D" "t8" "t9"
              (mkAddElementInput "w1" EVENT "Order Shipped" None None None [] ["C"] None)
              Sample.workshop eq_refl eq_refl)
    as (resp & w' & element & Hrun & Hel & _ & _ & Hpos & _).
  exists resp, w', element. split; [exact Hrun|]. split; [exact Hel | exact Hpos].
Defined.

(** ** update_element *)

(** C10. An update of an existing element with no optional field succeeds
    with an empty list of updated fields; the element keeps every field but
    [updated_at], which takes the new timestamp; the other elements and the
    contexts are untouched; and the workshop is saved, its metadata stamped
    with the time of the save. *)
Theorem update_element_empty_patch (store : gmap string Workshop)
    (timestamp now : string) (params : UpdateElementInput)
    (w : Workshop) (e : EventStormingElement) :
  store !! ue_workshop_id params = Some w ->
  find_element w (ue_element_id params) = Some e ->
  empty_patch params ->
  exists resp w' e',
    update_element store timestamp now params
    = (inr resp, <[md_id (metadata w) := w']> store) /\
    ur_element_id resp = ue_element_id params /\
    updated_fields resp = [] /\
    md_updated_at (metadata w') = now /\
    bounded_contexts w' = bounded_contexts w /\
    elements w' = update_first (has_id (ue_element_id params)) (fun _ => e') (elements w) /\
    find_element w' (ue_element_id params) = Some e' /\
    updated_at e' = timestamp /\
    el_id e' = el_id e /\ el_type e' = el_type e /\ el_name e' = el_name e /\
    position e' = position e /\ notes e' = notes e /\
    created_at e' = created_at e /\ created_by e' = created_by e /\
    triggers e' = triggers e /\ triggered_by e' = triggered_by e /\
    bounded_context_id e' = bounded_context_id e.
Proof.
  intros Hload Hfind (Hn & Hp & Hno & Ht & Htb & Hc).
  unfold update_element, apply_patch.
  rewrite (load_workshop_Some _ _ _ Hload), Hfind, Hn, Hp, Hno, Ht, Htb, Hc.
  simpl. eexists _, _, _. split; [reflexivity|]. simpl.
  repeat (split; [reflexivity|]).
  split; [|repeat (split; [reflexivity|]); reflexivity].
  unfold find_element in *. simpl. unfold has_id.
  pose proof (next_match_Some el_id _ _ _ Hfind) as [_ Hid].
  rewrite (find_update_first el_id) by (intros; exact Hid).
  rewrite decide_True by done. by rewrite Hfind.
Qed.

Lemma update_element_empty_patch_witness :
  exists resp w' e',
    update_element Sample.store "t8" "t9"
      (mkUpdateElementInput "w1" "B" None None None None None None)
    = (inr resp, <["w1" := w']> Sample.store) /\
    updated_fields resp = [] /\
    md_updated_at (metadata w') = "t9" /\
    find_element w' "B" = Some e' /\
    updated_at e' = "t8" /\
    el_name e' = "Order Placed".
Proof.
  destruct (update_element_empty_patch Sample.store "t8" "t9"
              (mkUpdateElementInput "w1" "B" None None None None None None)
              Sample.workshop Sample.order_placed eq_refl eq_refl
              (conj eq_refl (conj eq_refl (conj eq_refl
                 (conj eq_refl (conj eq_refl eq_refl))))))
    as (resp & w' & e' & Hrun & _ & Hfields & Hmd & _ & _ & Hfind & Hts & _ & _ & Hname & _).
  exists resp, w', e'. repeat split; assumption.
Defined.

(** ** assign_to_context *)

Lemma add_all_spec (l ids : list string) :
  exists new,
    add_all l ids = l ++ new /\ NoDup new /\
    (forall x, x ∈ new <-> x ∈ ids /\ x ∉ l).
Proof.
  unfold add_all. revert l. induction ids as [|a ids IH]; intros l; simpl.
  - exists []. rewrite app_nil_r. split; [done|]. split; [constructor|].
    intros x. rewrite !elem_of_nil. tauto.
  - destruct (IH (append_if_absent a l)) as (new & Heq & Hnd & Hin).
    unfold append_if_absent in *. case_bool_decide as Ha.
    + exists new. split; [done|]. split; [done|].
      intros x. rewrite Hin, elem_of_cons.
      split; [tauto|]. intros [[->|?] ?]; tauto.
    + exists (a :: new). rewrite Heq, <- app_assoc. split; [done|].
      split.
      * constructor; [|done]. rewrite Hin, elem_of_app, list_elem_of_singleton. tauto.
      * intros x. rewrite !elem_of_cons, Hin, elem_of_app, list_elem_of_singleton.
        destruct (decide (x = a)) as [->|]; tauto.
Qed.

Lemma set_element_ids_same (c : BoundedContext) :
  set_element_ids c (element_ids c) = c.
Proof. by destruct c. Qed.

Lemma update_first_compose {A} (p : A -> bool) (f g : A -> A) (l : list A) :
  (forall a, p a = true -> p (g a) = true) ->
  update_first p f (update_first p g l) = update_first p (fun a => f (g a)) l.
Proof.
  intros Hp. induction l as [|a l IH]; simpl; [done|].
  destruct (p a) eqn:Ha; simpl.
  - by rewrite (Hp a Ha).
  - by rewrite Ha, IH.
Qed.

Lemma update_first_ext {A} (p : A -> bool) (f g : A -> A) (l : list A) :
  (forall a, f a = g a) -> update_first p f l = update_first p g l.
Proof.
  intros H. induction l as [|a l IH]; simpl; [done|].
  destruct (p a); [by rewrite H | by rewrite IH].
Qed.

Lemma update_first_id {A} (p : A -> bool) (f : A -> A) (l : list A) :
  (forall a, f a = a) -> update_first p f l = l.
Proof.
  intros H. induction l as [|a l IH]; simpl; [done|].
  destruct (p a); [by rewrite H | by rewrite IH].
Qed.

Lemma find_element_assign_one (cid : string) (st : AssignState) (a x : string) :
  find_element (as_workshop (assign_one cid st a)) x
  = if decide (x = a)
    then (fun e => set_bounded_context_id e (Some cid)) <$> find_element (as_workshop st) x
    else find_element (as_workshop st) x.
Proof.
  unfold assign_one. destruct (find_element (as_workshop st) a) eqn:Ha.
  - unfold find_element, has_id. simpl.
    by rewrite (find_update_first el_id).
  - simpl. destruct (decide (x = a)) as [->|]; [by rewrite Ha | done].
Qed.

Lemma assign_one_found (cid : string) (st : AssignState) (a : string) :
  is_Some (find_element (as_workshop st) a) ->
  assign_one cid st a
  = mkAssignState
      (mkWorkshop (metadata (as_workshop st))
         (update_first (has_id a) (fun e => set_bounded_context_id e (Some cid))
                       (elements (as_workshop st)))
         (update_first (ctx_has_id cid)
            (fun c => set_element_ids c (append_if_absent a (element_ids c)))
            (bounded_contexts (as_workshop st))))
      (assigned st ++ [a]) (not_found st).
Proof. intros [e He]. unfold assign_one. by rewrite He. Qed.

Lemma assign_one_missing (cid : string) (st : AssignState) (a : string) :
  find_element (as_workshop st) a = None ->
  assign_one cid st a
  = mkAssignState (as_workshop st) (assigned st) (not_found st ++ [a]).
Proof. intros He. unfold assign_one. by rewrite He. Qed.

Lemma ids_cons_found (w : Workshop) (a : string) (ids : list string) :
  is_Some (find_element w a) ->
  found_ids w (a :: ids) = a :: found_ids w ids /\
  missing_ids w (a :: ids) = missing_ids w ids.
Proof.
  intros Ha. unfold found_ids, missing_ids. rewrite !filter_cons.
  rewrite (decide_True (P := is_Some _)) by done.
  rewrite (decide_False (P := _ = None)); [done|].
  intros Hn. rewrite Hn in Ha. by destruct Ha.
Qed.

Lemma ids_cons_missing (w : Workshop) (a : string) (ids : list string) :
  find_element w a = None ->
  found_ids w (a :: ids) = found_ids w ids /\
  missing_ids w (a :: ids) = a :: missing_ids w ids.
Proof.
  intros Ha. unfold found_ids, missing_ids. rewrite !filter_cons.
  rewrite (decide_True (P := _ = None)) by done.
  rewrite (decide_False (P := is_Some _)); [done|]. rewrite Ha. by intros [? ?].
Qed.

Lemma assign_fold (cid : string) (ids : list string) (st : AssignState) :
  let st' := foldl (assign_one cid) st ids in
  let w := as_workshop st in
  assigned st' = assigned st ++ found_ids w ids /\
  not_found st' = not_found st ++ missing_ids w ids /\
  metadata (as_workshop st') = metadata w /\
  (forall x, find_element (as_workshop st') x
             = if bool_decide (x ∈ found_ids w ids)
               then (fun e => set_bounded_context_id e (Some cid)) <$> find_element w x
               else find_element w x) /\
  bounded_contexts (as_workshop st')
  = update_first (ctx_has_id cid)
      (fun c => set_element_ids c (add_all (element_ids c) (found_ids w ids)))
      (bounded_contexts w).
Proof.
  revert st. induction ids as [|a ids IH]; intros st; simpl.
  - rewrite !app_nil_r. repeat split.
    symmetry. apply update_first_id. intros c. apply set_element_ids_same.
  - destruct (IH (assign_one cid st a)) as (Has & Hnf & Hmd & Hfind & Hctx).
    clear IH.
    set (st1 := assign_one cid st a) in *.
    set (w := as_workshop st) in *.
    set (w1 := as_workshop st1) in *.
    assert (forall x, find_element w1 x
                      = if decide (x = a)
                        then (fun e => set_bounded_context_id e (Some cid)) <$> find_element w x
                        else find_element w x) as Hw1
      by (intros x; apply find_element_assign_one).
    assert (forall x, is_Some (find_element w1 x) <-> is_Some (find_element w x)) as Hsome.
    { intros x. rewrite Hw1. destruct (decide (x = a)); [apply fmap_is_Some | done]. }
    assert (found_ids w1 ids = found_ids w ids) as Hfound
      by (by apply list_filter_iff).
    assert (missing_ids w1 ids = missing_ids w ids) as Hmissing.
    { apply list_filter_iff. intros x. rewrite !eq_None_not_Some.
      by rewrite Hsome. }
    rewrite Hfound in Has, Hfind, Hctx. rewrite Hmissing in Hnf.
    rewrite Has, Hnf, Hmd, Hctx.
    destruct (find_element w a) as [e|] eqn:Ha.
    + destruct (ids_cons_found w a ids) as [-> ->]; [by rewrite Ha|].
      pose proof (assign_one_found cid st a) as Hst1.
      fold st1 w in Hst1. specialize (Hst1 ltac:(by rewrite Ha)).
      assert (assigned st1 = assigned st ++ [a]) as -> by (by rewrite Hst1).
      assert (not_found st1 = not_found st) as -> by (by rewrite Hst1).
      assert (metadata w1 = metadata w) as -> by (unfold w1; by rewrite Hst1).
      assert (bounded_contexts w1
              = update_first (ctx_has_id cid)
                  (fun c => set_element_ids c (append_if_absent a (element_ids c)))
                  (bounded_contexts w)) as -> by (unfold w1; by rewrite Hst1).
      rewrite <- app_assoc. split; [done|]. split; [done|].
      split; [done|]. split.
      * intros x. rewrite Hfind, Hw1.
        destruct (decide (x = a)) as [->|Hne].
        -- rewrite (bool_decide_eq_true_2 (a ∈ a :: _)) by apply list_elem_of_here.
           case_bool_decide; [|done].
           rewrite Ha. done.
        -- case_bool_decide as H1; case_bool_decide as H2; try done.
           ++ exfalso. apply H2. by apply list_elem_of_further.
           ++ exfalso. apply elem_of_cons in H2 as [?|?]; done.
      * rewrite update_first_compose by done.
        by apply update_first_ext.
    + destruct (ids_cons_missing w a ids Ha) as [-> ->].
      pose proof (assign_one_missing cid st a) as Hst1.
      fold st1 w in Hst1. specialize (Hst1 Ha).
      assert (assigned st1 = assigned st) as -> by (by rewrite Hst1).
      assert (not_found st1 = not_found st ++ [a]) as -> by (by rewrite Hst1).
      assert (w1 = w) as Hww by (unfold w1; by rewrite Hst1).
      rewrite Hww.
      rewrite <- app_assoc. split; [done|]. split; [done|]. split; [done|].
      split; [|done].
      intros x. rewrite Hfind, Hw1.
      destruct (decide (x = a)) as [->|]; [|done].
      rewrite Ha. simpl. by case_bool_decide.
Qed.

(** What the loop of [assign_to_context] leaves, from the workshop loaded. *)
Lemma assign_loop_spec (cid : string) (w : Workshop) (ids : list string) :
  let st := assign_loop cid w ids in
  assigned st = found_ids w ids /\
  not_found st = missing_ids w ids /\
  (forall x, find_element (as_workshop st) x
             = if bool_decide (x ∈ found_ids w ids)
               then (fun e => set_bounded_context_id e (Some cid)) <$> find_element w x
               else find_element w x) /\
  (forall k, find_context (as_workshop st) k
             = if decide (k = cid)
               then (fun c => set_element_ids c (add_all (element_ids c) (found_ids w ids)))
                      <$> find_context w k
               else find_context w k).
Proof.
  destruct (assign_fold cid ids (mkAssignState w [] [])) as (Ha & Hn & _ & Hf & Hc).
  simpl in *. unfold assign_loop. split; [done|]. split; [done|]. split; [done|].
  intros k. unfold find_context. rewrite Hc. unfold ctx_has_id.
  by rewrite (find_update_first ctx_id).
Qed.

Lemma elem_of_found_ids (w : Workshop) (ids : list string) (x : string) :
  x ∈ found_ids w ids <-> x ∈ ids /\ is_Some (find_element w x).
Proof. unfold found_ids. rewrite list_elem_of_filter. tauto. Qed.

(** C6. With the workshop loaded, [assign_to_context] fails exactly when no
    context has the target id, and then leaves the store alone. Otherwise it
    succeeds: the supplied ids that name an element are the assigned ones,
    each such element gets the context id as [bounded_context_id], its id is
    in the context's [element_ids], to which only ids not yet there are
    appended, each once; the ids that name no element are collected and
    reported in the warning, and the elements not named are untouched. *)
Theorem assign_to_context_partial_success (store : gmap string Workshop)
    (now : string) (params : AssignToContextInput) (w : Workshop) :
  store !! ac_workshop_id params = Some w ->
  let cid := ac_context_id params in
  let ids := ac_element_ids params in
  (find_context w cid = None ->
     assign_to_context store now params = (inl (ContextNotFound cid), store)) /\
  (forall ctx, find_context w cid = Some ctx ->
     exists resp w',
       assign_to_context store now params = (inr resp, save_workshop store now w') /\
       assigned_elements resp = found_ids w ids /\
       assigned_count resp = len (found_ids w ids) /\
       warnings resp
       = (if missing_ids w ids is [] then None
          else Some ("Elements not found: " +:+ join ", " (missing_ids w ids))) /\
       (forall x e, x ∈ ids -> find_element w x = Some e ->
          find_element w' x = Some (set_bounded_context_id e (Some cid))) /\
       (forall x, x ∉ ids -> find_element w' x = find_element w x) /\
       (exists new,
          find_context w' cid = Some (set_element_ids ctx (element_ids ctx ++ new)) /\
          NoDup new /\
          (forall x, x ∈ new <-> x ∈ found_ids w ids /\ x ∉ element_ids ctx)) /\
       (forall x, x ∈ found_ids w ids ->
          exists ctx', find_context w' cid = Some ctx' /\ x ∈ element_ids ctx')).
Proof.
  intros Hload cid ids. unfold assign_to_context.
  rewrite (load_workshop_Some _ _ _ Hload). fold cid ids. split.
  - by intros ->.
  - intros ctx Hctx. rewrite Hctx.
    destruct (assign_loop_spec cid w ids) as (Ha & Hn & Hf & Hc).
    eexists _, _. split; [reflexivity|]. simpl.
    rewrite Ha, Hn. split; [done|]. split; [done|]. split; [done|].
    assert (exists new,
      find_context (as_workshop (assign_loop cid w ids)) cid
      = Some (set_element_ids ctx (element_ids ctx ++ new)) /\
      NoDup new /\
      (forall x, x ∈ new <-> x ∈ found_ids w ids /\ x ∉ element_ids ctx)) as Hnew.
    { destruct (add_all_spec (element_ids ctx) (found_ids w ids)) as (new & Heq & Hnd & Hin).
      exists new. split; [|done].
      rewrite Hc, decide_True by done.
      rewrite Hctx. simpl. by rewrite Heq. }
    split; [|split; [|split]].
    + intros x e Hx He. rewrite Hf.
      rewrite bool_decide_eq_true_2 by (apply elem_of_found_ids; by rewrite He).
      by rewrite He.
    + intros x Hx. rewrite Hf.
      rewrite bool_decide_eq_false_2; [done|].
      by intros [? _]%elem_of_found_ids.
    + exact Hnew.
    + intros x Hx. destruct Hnew as (new & -> & _ & Hin).
      eexists. split; [done|]. simpl.
      apply elem_of_app.
      destruct (decide (x ∈ element_ids ctx)); [by left | right; by apply Hin].
Qed.

Lemma assign_to_context_partial_success_witness :
  exists resp w',
    assign_to_context Sample.store "t9"
      (mkAssignToContextInput "w1" "ctx2" ["B"; "C"; "missing"])
    = (inr resp, save_workshop Sample.store "t9" w') /\
    assigned_elements resp = ["B"; "C"] /\
    warnings resp = Some "Elements not found: missing" /\
    find_element w' "B" = Some (set_bounded_context_id Sample.order_placed (Some "ctx2")).
Proof.
  destruct (proj2 (assign_to_context_partial_success Sample.store "t9"
                     (mkAssignToContextInput "w1" "ctx2" ["B"; "C"; "missing"])
                     Sample.workshop eq_refl)
                  Sample.billing eq_refl)
    as (resp & w' & Hrun & Has & _ & Hwarn & Hset & _).
  exists resp, w'. split; [exact Hrun|]. split; [exact Has|]. split; [exact Hwarn|].
  apply Hset; [|reflexivity]. apply list_elem_of_here.
Defined.

(** C8. Assigning to a context B an element whose id is listed by another
    context A sets the element's [bounded_context_id] to B and lists its id
    in B, and leaves the context A as it was: the id stays in the
    [element_ids] of A and is now in those of both contexts. *)
Theorem assign_to_context_stale_membership (store : gmap string Workshop)
    (now : string) (params : AssignToContextInput) (w : Workshop)
    (A : string) (ctxA ctxB : BoundedContext) (x : string) (e : EventStormingElement) :
  store !! ac_workshop_id params = Some w ->
  let B := ac_context_id params in
  A <> B ->
  find_context w A = Some ctxA ->
  x ∈ element_ids ctxA ->
  find_context w B = Some ctxB ->
  find_element w x = Some e ->
  x ∈ ac_element_ids params ->
  exists resp w' ctxB' e',
    assign_to_context store now params = (inr resp, save_workshop store now w') /\
    find_element w' x = Some e' /\
    bounded_context_id e' = Some B /\
    find_context w' B = Some ctxB' /\
    x ∈ element_ids ctxB' /\
    find_context w' A = Some ctxA /\
    x ∈ element_ids ctxA.
Proof.
  intros Hload B HAB HA HxA HB He Hx. unfold assign_to_context.
  rewrite (load_workshop_Some _ _ _ Hload). fold B. rewrite HB.
  destruct (assign_loop_spec B w (ac_element_ids params)) as (_ & _ & Hf & Hc).
  assert (x ∈ found_ids w (ac_element_ids params)) as Hfound
    by (apply elem_of_found_ids; by rewrite He).
  eexists _, _, _, _. split; [reflexivity|].
  split; [|split; [|split; [|split; [|split]]]].
  - rewrite Hf, bool_decide_eq_true_2, He by done. reflexivity.
  - done.
  - rewrite Hc, decide_True, HB by done. reflexivity.
  - simpl. destruct (add_all_spec (element_ids ctxB)
                       (found_ids w (ac_element_ids params))) as (new & -> & _ & Hin).
    apply elem_of_app.
    destruct (decide (x ∈ element_ids ctxB)); [by left | right; by apply Hin].
  - by rewrite Hc, decide_False.
  - done.
Qed.

Lemma assign_to_context_stale_membership_witness :
  exists resp w' ctxB' e',
    assign_to_context Sample.store "t9" (mkAssignToContextInput "w1" "ctx2" ["B"])
    = (inr resp, save_workshop Sample.store "t9" w') /\
    find_element w' "B" = Some e' /\
    bounded_context_id e' = Some "ctx2" /\
    find_context w' "ctx2" = Some ctxB' /\
    "B" ∈ element_ids ctxB' /\
    find_context w' "ctx1" = Some Sample.ordering /\
    "B" ∈ element_ids Sample.ordering.
Proof.
  apply (assign_to_context_stale_membership Sample.store "t9"
           (mkAssignToContextInput "w1" "ctx2" ["B"]) Sample.workshop
           "ctx1" Sample.ordering Sample.billing "B" Sample.order_placed);
    try reflexivity.
  - discriminate.
  - apply list_elem_of_here.
  - apply list_elem_of_here.
Defined.

(** ** get_statistics *)

Lemma count_by_context_fold (name : string) (l : list BoundedContext) (d : gmap string Z) :
  foldl (fun d ctx => <[ctx_name ctx := len (element_ids ctx)]> d) d l !! name
  = match last (filter (fun c => ctx_name c = name) l) with
    | Some c => Some (len (element_ids c))
    | None => d !! name
    end.
Proof.
  induction l as [|c l IH] using rev_ind; [done|].
  rewrite foldl_app, filter_app, filter_cons, filter_nil. simpl.
  destruct (decide (ctx_name c = name)) as [<-|Hne].
  - by rewrite last_snoc, lookup_insert_eq.
  - by rewrite app_nil_r, lookup_insert_ne.
Qed.

(** C5, as the code has it. The per-context count of the statistics is keyed
    by context name; a name has a key exactly when some context bears it, and
    the count under the key is the number of [element_ids] of the last
    context of that name in the workshop: the counts of the earlier contexts
    of the same name are overwritten, not added. *)
Theorem by_context_last_wins (store : gmap string Workshop) (workshop_id : string)
    (w : Workshop) :
  store !! workshop_id = Some w ->
  exists stats,
    get_statistics store workshop_id = inr stats /\
    forall name,
      by_context stats !! name
      = (fun c => len (element_ids c))
          <$> last (filter (fun c => ctx_name c = name) (bounded_contexts w)).
Proof.
  intros Hload. unfold get_statistics. rewrite (load_workshop_Some _ _ _ Hload).
  destruct (count_relationships w) as [[a b] c]. destruct (count_coverage w) as [i o].
  eexists. split; [reflexivity|]. simpl. intros name.
  unfold count_by_context. rewrite count_by_context_fold.
  by destruct (last _).
Qed.

Lemma by_context_last_wins_witness :
  exists stats,
    get_statistics Sample.homonym_store "w1" = inr stats /\
    by_context stats !! "Sales" = Some 1 /\
    by_context stats !! "Ordering" = None.
Proof.
  destruct (by_context_last_wins Sample.homonym_store "w1" Sample.homonyms eq_refl)
    as (stats & Hrun & Hkey).
  exists stats. split; [exact Hrun|]. split; [exact (Hkey "Sales") | exact (Hkey "Ordering")].
Defined.

(** The two contexts of [Sample.homonyms] are both named Sales and list three
    element ids together, two in the first and one in the second; the count
    under the key Sales is 1, the count of the second alone. *)
Lemma by_context_merge_counterexample :
  ctx_name Sample.sales1 = ctx_name Sample.sales2 /\
  len (element_ids Sample.sales1) + len (element_ids Sample.sales2) = 3 /\
  exists stats,
    get_statistics Sample.homonym_store "w1" = inr stats /\
    by_context stats !! "Sales" = Some 1 /\
    by_context stats !! "Sales" <> Some 3.
Proof.
  split; [reflexivity|]. split; [reflexivity|].
  eexists. split; [reflexivity|]. split; [reflexivity | discriminate].
Qed.

(** ** trace_flow: what a call does to the shared state *)

Section Trace.
Variable w : Workshop.
Variable params : VisualizeFlowInput.

Lemma trace_step_refl (st : TraceState) : trace_step params st st.
Proof. unfold trace_step. split; [done|]. lia. Qed.

Lemma trace_step_trans (st1 st2 st3 : TraceState) :
  trace_step params st1 st2 -> trace_step params st2 st3 -> trace_step params st1 st3.
Proof.
  unfold trace_step. intros (? & ? & ? & ?) (? & ? & ? & ?).
  split; [by etrans|]. lia.
Qed.

Lemma follow_triggers_step
    (call : string -> TraceState -> option (list string * TraceState))
    (prefix : string) (ids : list string) (lines : list string)
    (st : TraceState) (lines' : list string) (st' : TraceState) :
  (forall i s ls s', call i s = Some (ls, s') -> trace_step params s s') ->
  follow_triggers call (max_elements params) prefix ids lines st = Some (lines', st') ->
  trace_step params st st'.
Proof.
  intros Hcall. revert lines st.
  induction ids as [|i ids IH]; intros lines st; simpl.
  - intros [= _ <-]. apply trace_step_refl.
  - destruct (max_elements params <=? element_count st).
    + intros [= _ <-]. apply trace_step_refl.
    + destruct (call i st) as [[sub s1]|] eqn:Hc; [|done].
      intros Hrest. eapply trace_step_trans; [by eapply Hcall | by eapply IH].
Qed.

Lemma trace_flow_step (fuel : nat) (element_id : string) (depth : Z) (indent : nat)
    (st : TraceState) (lines : list string) (st' : TraceState) :
  trace_flow fuel w params element_id depth indent st = Some (lines, st') ->
  trace_step params st st'.
Proof.
  revert element_id depth indent st lines st'.
  induction fuel as [|fuel IH]; intros element_id depth indent st lines st'; [done|].
  simpl.
  destruct (max_depth params <=? depth); simpl.
  { intros [= _ <-]. apply trace_step_refl. }
  case_bool_decide as Hvis.
  { intros [= _ <-]. apply trace_step_refl. }
  destruct (Z.leb_spec (max_elements params) (element_count st)) as [Hmax|Hmax].
  { intros [= _ <-]. apply trace_step_refl. }
  assert (trace_step params st (mkTraceState ({[element_id]} ∪ visited st) (element_count st + 1)))
    as Hfirst.
  { unfold trace_step. simpl. split; [set_solver|].
    rewrite size_union by set_solver. rewrite size_singleton. lia. }
  destruct (find_element w element_id) as [element|].
  - intros Hloop. eapply trace_step_trans; [exact Hfirst|].
    eapply follow_triggers_step; [|exact Hloop].
    intros i s ls s'. apply IH.
  - by intros [= _ <-].
Qed.

(** *** Termination *)

Lemma follow_triggers_returns
    (call : string -> TraceState -> option (list string * TraceState))
    (prefix : string) (ids : list string) (lines : list string) (st : TraceState) :
  (forall i s, is_Some (call i s)) ->
  is_Some (follow_triggers call (max_elements params) prefix ids lines st).
Proof.
  intros Hcall. revert lines st.
  induction ids as [|i ids IH]; intros lines st; simpl; [done|].
  destruct (max_elements params <=? element_count st); [done|].
  destruct (Hcall i st) as [[sub s1] ->]. apply IH.
Qed.

(** A call at [depth] returns as soon as the fuel exceeds the number of
    levels left below [max_depth]. *)
Lemma trace_flow_returns (fuel : nat) (element_id : string) (depth : Z)
    (indent : nat) (st : TraceState) :
  Z.max 0 (max_depth params - depth) < Z.of_nat fuel ->
  is_Some (trace_flow fuel w params element_id depth indent st).
Proof.
  revert element_id depth indent st.
  induction fuel as [|fuel IH]; intros element_id depth indent st Hfuel; simpl.
  - lia.
  - destruct (Z.leb_spec (max_depth params) depth) as [Hd|Hd]; simpl; [done|].
    case_bool_decide; [done|].
    destruct (max_elements params <=? element_count st); [done|].
    destruct (find_element w element_id); [|done].
    apply follow_triggers_returns. intros i s. apply IH. lia.
Qed.

Lemma follow_triggers_mono
    (call call' : string -> TraceState -> option (list string * TraceState))
    (prefix : string) (ids : list string) (lines : list string) (st : TraceState)
    (r : list string * TraceState) :
  (forall i s r, call i s = Some r -> call' i s = Some r) ->
  follow_triggers call (max_elements params) prefix ids lines st = Some r ->
  follow_triggers call' (max_elements params) prefix ids lines st = Some r.
Proof.
  intros Hcall. revert lines st.
  induction ids as [|i ids IH]; intros lines st; simpl; [done|].
  destruct (max_elements params <=? element_count st); [done|].
  destruct (call i st) as [[sub s1]|] eqn:Hc; [|done].
  rewrite (Hcall _ _ _ Hc). apply IH.
Qed.

(** More fuel does not change the result of a call that returned. *)
Lemma trace_flow_mono (fuel fuel' : nat) (element_id : string) (depth : Z)
    (indent : nat) (st : TraceState) (r : list string * TraceState) :
  (fuel <= fuel')%nat ->
  trace_flow fuel w params element_id depth indent st = Some r ->
  trace_flow fuel' w params element_id depth indent st = Some r.
Proof.
  revert fuel' element_id depth indent st r.
  induction fuel as [|fuel IH]; intros fuel' element_id depth indent st r Hle; [done|].
  destruct fuel' as [|fuel']; [lia|]. simpl.
  destruct ((max_depth params <=? depth) || bool_decide (element_id ∈ visited st)); [done|].
  destruct (max_elements params <=? element_count st); [done|].
  destruct (find_element w element_id); [|done].
  apply follow_triggers_mono. intros i s r'. apply IH. lia.
Qed.

Lemma trace_flow_enough_fuel (fuel : nat) (element_id : string) (depth : Z)
    (indent : nat) (st : TraceState) :
  0 <= depth -> (flow_fuel params <= fuel)%nat ->
  trace_flow fuel w params element_id depth indent st
  = trace_flow (flow_fuel params) w params element_id depth indent st /\
  is_Some (trace_flow (flow_fuel params) w params element_id depth indent st).
Proof.
  intros Hd Hfuel.
  assert (is_Some (trace_flow (flow_fuel params) w params element_id depth indent st))
    as [r Hr] by (apply trace_flow_returns; unfold flow_fuel; lia).
  rewrite Hr. split; [|done]. by apply (trace_flow_mono (flow_fuel params)).
Qed.
End Trace.

(** ** The whole run *)

Lemma visited_total_app (l1 l2 : list (gset string)) :
  visited_total (l1 ++ l2) = visited_total l1 + visited_total l2.
Proof.
  unfold visited_total. induction l1 as [|X l1 IH]; simpl; [done|].
  rewrite IH. lia.
Qed.

Lemma size_union_list_le (sets : list (gset string)) :
  Z.of_nat (size (⋃ sets)) <= visited_total sets.
Proof.
  induction sets as [|X sets IH].
  - change (Z.of_nat (size (∅ : gset string)) <= 0). by rewrite size_empty.
  - change (Z.of_nat (size (X ∪ ⋃ sets)) <= Z.of_nat (size X) + visited_total sets).
    pose proof (size_union_alt X (⋃ sets)) as Hu.
    pose proof (subseteq_size (⋃ sets ∖ X) (⋃ sets) ltac:(by apply subseteq_difference_l)) as Hs.
    lia.
Qed.

Section Roots.
Variable w : Workshop.
Variable params : VisualizeFlowInput.

Lemma trace_roots_step (fuel : nat) (roots : list EventStormingElement)
    (run run' : FlowRun) :
  trace_roots fuel w params roots run = Some run' ->
  roots_step params run run'.
Proof.
  revert run. induction roots as [|root roots IH]; intros run; simpl.
  - intros [= <-]. unfold roots_step. lia.
  - destruct (max_elements params <=? fr_element_count run).
    + intros [= <-]. unfold roots_step. simpl. lia.
    + destruct (trace_flow fuel w params (el_id root) 0 0 _) as [[sub st]|] eqn:Ht; [|done].
      intros Hrest. apply IH in Hrest.
      apply trace_flow_step in Ht as (_ & Hsize & Hle & Hmax).
      unfold roots_step in *.
      cbn [fr_element_count fr_visited visited element_count] in *.
      rewrite visited_total_app in Hrest.
      change (visited_total [visited st]) with (Z.of_nat (size (visited st)) + 0) in Hrest.
      rewrite size_empty in Hsize. lia.
Qed.

Lemma trace_roots_enough_fuel (fuel : nat) (roots : list EventStormingElement)
    (run : FlowRun) :
  (flow_fuel params <= fuel)%nat ->
  trace_roots fuel w params roots run
  = trace_roots (flow_fuel params) w params roots run /\
  is_Some (trace_roots (flow_fuel params) w params roots run).
Proof.
  intros Hfuel. revert run.
  induction roots as [|root roots IH]; intros run; cbn [trace_roots]; [done|].
  destruct (max_elements params <=? fr_element_count run); [done|].
  destruct (trace_flow_enough_fuel w params fuel (el_id root) 0 0
              (mkTraceState ∅ (fr_element_count run)) ltac:(lia) Hfuel) as [-> [[sub st] ->]].
  apply IH.
Qed.
End Roots.

Lemma flow_run_enough_fuel (w : Workshop) (params : VisualizeFlowInput) (fuel : nat) :
  (flow_fuel params <= fuel)%nat ->
  flow_run fuel w params = flow_run (flow_fuel params) w params /\
  is_Some (flow_run (flow_fuel params) w params).
Proof.
  intros Hfuel. unfold flow_run.
  destruct (truthy (start_element_id params)).
  - destruct (find_element w _) as [start|]; [|done].
    destruct (trace_flow_enough_fuel w params fuel (default "" (start_element_id params))
                0 0 (mkTraceState ∅ 0) ltac:(lia) Hfuel) as [-> [[sub st] ->]].
    split; [done|]. by destruct (_ <=? _).
  - destruct (filter _ (elements w)) as [|root roots]; [by destruct (_ <=? _)|].
    destruct (trace_roots_enough_fuel w params fuel (root :: roots)
                (mkFlowRun (["# Event Flow Visualization: " +:+ md_name (metadata w); ""] ++
                            ["Found " +:+ pretty (len (root :: roots)) +:+ " root element(s)"; ""])
                           0 []) Hfuel) as [-> [run ->]].
    split; [done|]. by destruct (_ <=? _).
Qed.

(** The counter of a finished run is the number of ids its top-level calls
    visited, and is within the budget. *)
Lemma flow_run_budget (w : Workshop) (params : VisualizeFlowInput) (fuel : nat)
    (run : FlowRun) :
  0 <= max_elements params ->
  flow_run fuel w params = Some (inr run) ->
  visited_total (fr_visited run) = fr_element_count run /\
  fr_element_count run <= max_elements params.
Proof.
  intros Hmax. unfold flow_run.
  set (traced := if truthy (start_element_id params) then _ else _).
  assert (forall r, traced = Some (inr r) ->
            visited_total (fr_visited r) = fr_element_count r /\
            fr_element_count r <= max_elements params) as Htraced.
  { intros r. unfold traced. clear traced.
    destruct (truthy (start_element_id params)).
    - destruct (find_element w _) as [start|]; [|done].
      destruct (trace_flow fuel w params _ 0 0 _) as [[sub st]|] eqn:Ht; [|done].
      intros [= <-]. apply trace_flow_step in Ht as (_ & Hsize & Hle & Hle').
      cbn [fr_element_count fr_visited visited element_count] in *.
      change (visited_total [visited st]) with (Z.of_nat (size (visited st)) + 0).
      rewrite size_empty in Hsize. lia.
    - destruct (filter _ (elements w)) as [|root roots].
      + intros [= <-]. cbn. lia.
      + destruct (trace_roots fuel w params (root :: roots) _) as [r'|] eqn:Ht; [|done].
        intros [= <-]. apply trace_roots_step in Ht as (Hsize & Hle & Hle').
        cbn [fr_element_count fr_visited] in *.
        change (visited_total []) with 0 in Hsize. lia. }
  destruct traced as [[err|r]|]; [done| |done].
  destruct (Htraced r eq_refl) as [Hsum Hle].
  destruct (max_elements params <=? fr_element_count r); by intros [= <-].
Qed.

(** C1. On every workshop, whatever its trigger graph, and for every start
    element or none, a flow trace returns, with a result that no longer
    depends on the fuel once the fuel covers the depth bound; when it is not
    the not-found answer for the start element, the ids visited over the whole
    call are at most [max_elements]. On the two-cycle A -> B, B -> A, the
    trace from A with depth 5 and budget 100 visits A and B and nothing
    else. *)
Theorem flow_trace_terminates_within_budget :
  (forall (w : Workshop) (params : VisualizeFlowInput),
     0 <= max_elements params ->
     exists result,
       (forall fuel, (flow_fuel params <= fuel)%nat ->
                     flow_run fuel w params = Some result) /\
       match result with
       | inl err => err = StartElementNotFound (default "" (start_element_id params))
       | inr run =>
         Z.of_nat (size (⋃ fr_visited run)) <= max_elements params /\
         fr_element_count run <= max_elements params
       end) /\
  (forall fuel, (6 <= fuel)%nat ->
     exists run,
       flow_run fuel Sample.cycle (mkVisualizeFlowInput "w1" (Some "A") 5 100)
       = Some (inr run) /\
       fr_visited run = [ {[ "A"; "B" ]} ] /\
       fr_element_count run = 2).
Proof.
  split.
  - intros w params Hmax.
    destruct (flow_run_enough_fuel w params (flow_fuel params) ltac:(lia)) as [_ [result Hr]].
    exists result. split.
    + intros fuel Hfuel. by destruct (flow_run_enough_fuel w params fuel Hfuel) as [-> _].
    + destruct result as [err|run].
      * revert Hr. unfold flow_run.
        destruct (truthy (start_element_id params)).
        -- destruct (find_element w _); [|by intros [= <-]].
           destruct (trace_flow _ _ _ _ _ _ _) as [[? ?]|]; [|done].
           by destruct (_ <=? _).
        -- destruct (filter _ _); [by destruct (_ <=? _)|].
           destruct (trace_roots _ _ _ _ _); [|done]. by destruct (_ <=? _).
      * destruct (flow_run_budget w params _ run Hmax Hr) as [Hsum Hle].
        pose proof (size_union_list_le (fr_visited run)). lia.
  - intros fuel Hfuel.
    destruct (flow_run_enough_fuel Sample.cycle
                (mkVisualizeFlowInput "w1" (Some "A") 5 100) fuel Hfuel) as [-> _].
    eexists. split; [vm_compute; reflexivity|]. split; [|reflexivity].
    vm_compute. reflexivity.
Qed.

Lemma flow_trace_terminates_within_budget_witness :
  0 <= 2 /\
  exists result,
    (forall fuel, (3 <= fuel)%nat ->
       flow_run fuel Sample.workshop (mkVisualizeFlowInput "w1" None 2 2) = Some result) /\
    match result with
    | inl err => err = StartElementNotFound ""
    | inr run =>
      Z.of_nat (size (⋃ fr_visited run)) <= 2 /\ fr_element_count run <= 2
    end.
Proof.
  split; [lia|].
  exact (proj1 flow_trace_terminates_within_budget Sample.workshop
           (mkVisualizeFlowInput "w1" None 2 2) ltac:(simpl; lia)).
Defined.

(** The tool itself always answers. *)
Lemma visualize_flow_returns (store : gmap string Workshop) (params : VisualizeFlowInput) :
  is_Some (visualize_flow store params).
Proof.
  unfold visualize_flow. destruct (load_workshop store _) as [err|w]; [done|].
  destruct (flow_run_enough_fuel w params (flow_fuel params) ltac:(lia)) as [_ [r ->]].
  by destruct r.
Qed.

(** C9. A call of [trace_flow] that passes the depth, visited and budget
    guards on an id that names no element adds the id to [visited], adds one
    to the counter, and only then returns without a line. *)
Theorem trace_flow_unknown_id (fuel : nat) (w : Workshop) (params : VisualizeFlowInput)
    (trigger_id : string) (depth : Z) (indent : nat) (st : TraceState) :
  find_element w trigger_id = None ->
  depth < max_depth params ->
  trigger_id ∉ visited st ->
  element_count st < max_elements params ->
  trace_flow (S fuel) w params trigger_id depth indent st
  = Some ([], mkTraceState ({[trigger_id]} ∪ visited st) (element_count st + 1)).
Proof.
  intros Hfind Hdepth Hvis Hmax. simpl.
  destruct (Z.leb_spec (max_depth params) depth); [lia|].
  rewrite bool_decide_eq_false_2 by done. simpl.
  destruct (Z.leb_spec (max_elements params) (element_count st)); [lia|].
  by rewrite Hfind.
Qed.

Lemma trace_flow_unknown_id_witness :
  let st := mkTraceState {[ "A" ]} 1 in
  trace_flow 1 Sample.workshop (mkVisualizeFlowInput "w1" (Some "A") 5 100)
             "ghost" 1 1 st
  = Some ([], mkTraceState ({[ "ghost" ]} ∪ visited st) (element_count st + 1)).
Proof.
  intros st.
  apply (trace_flow_unknown_id 0 Sample.workshop
           (mkVisualizeFlowInput "w1" (Some "A") 5 100) "ghost" 1 1 st).
  - reflexivity.
  - simpl. lia.
  - simpl. intros H%elem_of_singleton. discriminate.
  - simpl. lia.
Defined.

(** ** Depth of a trace *)

Lemma walk_end_cons (x y : string) (ys : list string) :
  walk_end x (y :: ys) = walk_end y ys.
Proof.
  unfold walk_end. rewrite last_cons. by destruct (last ys).
Qed.

Lemma walk_app (w : Workshop) (x : string) (l1 l2 : list string) :
  walk w x (l1 ++ l2) <-> walk w x l1 /\ walk w (walk_end x l1) l2.
Proof.
  revert x. induction l1 as [|y l1 IH]; intros x; simpl.
  - unfold walk_end. simpl. tauto.
  - rewrite walk_end_cons, IH. tauto.
Qed.

Lemma walk_end_app (x : string) (l1 l2 : list string) :
  walk_end x (l1 ++ l2) = walk_end (walk_end x l1) l2.
Proof.
  revert x. induction l1 as [|y l1 IH]; intros x; [done|].
  simpl. by rewrite !walk_end_cons, IH.
Qed.

Lemma walk_end_snoc (x v : string) (l : list string) : walk_end x (l ++ [v]) = v.
Proof. unfold walk_end. by rewrite last_snoc. Qed.

Lemma walk_end_in (x : string) (l : list string) : walk_end x l ∈ x :: l.
Proof.
  unfold walk_end. destruct (last l) as [v|] eqn:Hl; simpl.
  - apply list_elem_of_further. apply last_Some in Hl as [l' ->].
    apply elem_of_app. right. apply list_elem_of_here.
  - apply list_elem_of_here.
Qed.

(** The first item of a list that is in another list. *)
Lemma first_common (l ys : list string) :
  (exists v, v ∈ l /\ v ∈ ys) ->
  exists p u q, l = p ++ u :: q /\ u ∈ ys /\ forall v, v ∈ p -> v ∉ ys.
Proof.
  induction l as [|a l IH]; intros (v & Hv & Hys); [by apply elem_of_nil in Hv|].
  destruct (decide (a ∈ ys)) as [Ha|Ha].
  - exists [], a, l. split; [done|]. split; [done|]. intros v' Hv'. by apply elem_of_nil in Hv'.
  - destruct IH as (p & u & q & -> & Hu & Hp).
    { exists v. split; [|done]. apply elem_of_cons in Hv as [->|Hv]; done. }
    exists (a :: p), u, q. split; [done|]. split; [done|].
    intros v' [->|Hv']%elem_of_cons; [done | by apply Hp].
Qed.

(** ** The indentation of the lines *)

Lemma indent_S (n : nat) : str_repeat "  " n +:+ "  " = str_repeat "  " (S n).
Proof.
  induction n as [|n IH]; [done|].
  change (str_repeat "  " (S n)) with ("  " +:+ str_repeat "  " n) at 1.
  change (("  " +:+ str_repeat "  " n) +:+ "  ")
    with ("  " +:+ (str_repeat "  " n +:+ "  ")).
  by rewrite IH.
Qed.

Lemma lstrip_indent (n : nat) (s : string) :
  lstrip (str_repeat "  " n +:+ s) = lstrip s.
Proof. induction n as [|n IH]; [done|]. exact IH. Qed.

Lemma lstrip_element_line (n : nat) (e : EventStormingElement) :
  lstrip (element_line (str_repeat "  " n) e) = element_line "" e.
Proof. unfold element_line. by rewrite lstrip_indent. Qed.

Lemma lstrip_limit_line (n : nat) :
  lstrip (limit_line (str_repeat "  " n)) = limit_line "".
Proof. unfold limit_line. by rewrite lstrip_indent. Qed.

Lemma lstrip_notes_line (n : nat) (s : string) :
  lstrip (notes_line (str_repeat "  " n) s) = "_" +:+ s +:+ "_".
Proof. unfold notes_line. by rewrite lstrip_indent. Qed.

Lemma element_line_not_limit (n m : nat) (e : EventStormingElement) :
  limit_line (str_repeat "  " n) <> element_line (str_repeat "  " m) e.
Proof.
  intros H%(f_equal lstrip). rewrite lstrip_limit_line, lstrip_element_line in H.
  discriminate H.
Qed.

Lemma element_line_not_notes (n m : nat) (s : string) (e : EventStormingElement) :
  notes_line (str_repeat "  " n) s <> element_line (str_repeat "  " m) e.
Proof.
  intros H%(f_equal lstrip). rewrite lstrip_notes_line, lstrip_element_line in H.
  discriminate H.
Qed.

Section Depth.
Variable w : Workshop.
Variable params : VisualizeFlowInput.

Lemma reached_from_mono (blocked blocked' : gset string) (x : string) (depth : Z)
    (y : string) :
  blocked' ⊆ blocked ->
  reached_from w params blocked x depth y -> reached_from w params blocked' x depth y.
Proof.
  intros Hsub (zs & Hw & Hend & Hnd & Hav & Hlen).
  exists zs. repeat (split; [done|]). split; [|done].
  intros v Hv Hin. by apply (Hav v Hv), Hsub.
Qed.

Lemma follow_triggers_reach
    (call : string -> TraceState -> option (list string * TraceState))
    (depth : Z) (prefix : string) (ids : list string) (lines : list string)
    (st : TraceState) (lines' : list string) (st' : TraceState) :
  (forall i s sub s', call i s = Some (sub, s') ->
     visited s ⊆ visited s' /\
     forall y, y ∈ visited s' ->
       y ∈ visited s \/ reached_from w params (visited s) i (depth + 1) y) ->
  follow_triggers call (max_elements params) prefix ids lines st = Some (lines', st') ->
  forall y, y ∈ visited st' ->
    y ∈ visited st \/
    exists i, i ∈ ids /\ reached_from w params (visited st) i (depth + 1) y.
Proof.
  intros Hcall. revert lines st.
  induction ids as [|i ids IH]; intros lines st; simpl.
  - intros [= _ <-] y Hy. by left.
  - destruct (max_elements params <=? element_count st).
    + intros [= _ <-] y Hy. by left.
    + destruct (call i st) as [[sub s1]|] eqn:Hc; [|done].
      intros Hrest y Hy. destruct (Hcall _ _ _ _ Hc) as [Hsub Hnew].
      destruct (IH _ _ Hrest y Hy) as [Hs1|(j & Hj & Hr)].
      * destruct (Hnew y Hs1) as [?|Hr]; [by left|].
        right. exists i. split; [apply list_elem_of_here | done].
      * right. exists j. split; [by apply list_elem_of_further|].
        by apply (reached_from_mono (visited s1)).
Qed.

(** Whatever a call adds to [visited] is at the end of a path from its id
    that the depth bound allows and that keeps off the ids visited before
    the call. *)
Lemma trace_flow_reach (fuel : nat) (element_id : string) (depth : Z) (indent : nat)
    (st : TraceState) (lines : list string) (st' : TraceState) :
  trace_flow fuel w params element_id depth indent st = Some (lines, st') ->
  forall y, y ∈ visited st' ->
    y ∈ visited st \/ reached_from w params (visited st) element_id depth y.
Proof.
  revert element_id depth indent st lines st'.
  induction fuel as [|fuel IH]; intros element_id depth indent st lines st'; [done|].
  simpl.
  destruct (Z.leb_spec (max_depth params) depth) as [Hd|Hd]; simpl.
  { intros [= _ <-] y Hy. by left. }
  case_bool_decide as Hvis.
  { intros [= _ <-] y Hy. by left. }
  destruct (max_elements params <=? element_count st).
  { intros [= _ <-] y Hy. by left. }
  assert (reached_from w params (visited st) element_id depth element_id) as Hself.
  { exists []. split; [done|]. split; [done|]. split; [apply NoDup_singleton|].
    split; [|simpl; lia].
    by intros v ->%list_elem_of_singleton. }
  destruct (find_element w element_id) as [element|] eqn:Hfind.
  - intros Hloop y Hy.
    destruct (follow_triggers_reach _ depth _ _ _ _ _ _
                (fun i s sub s' Hc =>
                   conj (proj1 (trace_flow_step w params _ _ _ _ _ _ _ Hc))
                        (IH i (depth + 1) (S indent) s sub s' Hc)) Hloop y Hy)
      as [Hst1|(i & Hi & zs & Hwalk & Hend & Hnd & Hav & Hlen)].
    + simpl in Hst1. apply elem_of_union in Hst1 as [->%elem_of_singleton|?];
        [by right | by left].
    + right. exists (i :: zs). simpl in Hav. split; [|split; [|split; [|split]]].
      * simpl. split; [|done]. unfold edge. by rewrite Hfind.
      * by rewrite walk_end_cons.
      * apply NoDup_cons. split; [|done]. intros Hin.
        apply (Hav element_id Hin). apply elem_of_union. left. by apply elem_of_singleton.
      * intros v [->|Hv]%elem_of_cons; [done|]. intros Hin.
        apply (Hav v Hv). apply elem_of_union. by right.
      * simpl length. lia.
  - intros [= _ <-] y Hy. simpl in Hy.
    apply elem_of_union in Hy as [->%elem_of_singleton|?]; [by right | by left].
Qed.

(** The loop only appends to the lines it starts from. *)
Lemma follow_triggers_lines
    (call : string -> TraceState -> option (list string * TraceState))
    (prefix : string) (ids : list string) (lines : list string)
    (st : TraceState) (lines' : list string) (st' : TraceState) :
  follow_triggers call (max_elements params) prefix ids lines st = Some (lines', st') ->
  forall l, l ∈ lines -> l ∈ lines'.
Proof.
  revert lines st. induction ids as [|i ids IH]; intros lines st; simpl.
  - by intros [= <- _].
  - destruct (max_elements params <=? element_count st).
    + intros [= <- _] l Hl. apply elem_of_app. by left.
    + destruct (call i st) as [[sub s1]|]; [|done].
      intros Hrest l Hl. apply (IH _ _ Hrest). apply elem_of_app. by left.
Qed.

(** Where the lines of the loop come from. *)
Lemma follow_triggers_lines_from
    (call : string -> TraceState -> option (list string * TraceState))
    (prefix : string) (ids : list string) (lines : list string)
    (st : TraceState) (lines' : list string) (st' : TraceState) :
  (forall i s sub s', call i s = Some (sub, s') -> visited s ⊆ visited s') ->
  follow_triggers call (max_elements params) prefix ids lines st = Some (lines', st') ->
  visited st ⊆ visited st' /\
  forall l, l ∈ lines' ->
    l ∈ lines \/ l = limit_line (prefix +:+ "  ") \/
    exists i s sub s', call i s = Some (sub, s') /\ l ∈ sub /\
                       visited st ⊆ visited s /\ visited s' ⊆ visited st'.
Proof.
  intros Hmono. revert lines st. induction ids as [|i ids IH]; intros lines st; simpl.
  - intros [= <- <-]. split; [done|]. intros l Hl. by left.
  - destruct (max_elements params <=? element_count st).
    + intros [= <- <-]. split; [done|].
      intros l [Hl| ->%list_elem_of_singleton]%elem_of_app; [by left | right; by left].
    + destruct (call i st) as [[sub s1]|] eqn:Hc; [|done].
      intros Hrest. destruct (IH _ _ Hrest) as [Hsub Hfrom].
      pose proof (Hmono _ _ _ _ Hc) as Hsub1.
      split; [by etrans|].
      intros l Hl. destruct (Hfrom l Hl) as [Hin|[->|(j & s & sub' & s' & Hj & Hl' & H1 & H2)]].
      * apply elem_of_app in Hin as [?|Hin]; [by left|].
        right. right. by exists i, st, sub, s1.
      * right. by left.
      * right. right. exists j, s, sub', s'. repeat (split; [done|]).
        split; [by etrans | done].
Qed.

(** Every line of a call is the limit line, a line of notes, or the line of
    an element found under an id that the call added to [visited]. *)
Lemma trace_flow_lines (fuel : nat) (element_id : string) (depth : Z) (indent : nat)
    (st : TraceState) (lines : list string) (st' : TraceState) :
  trace_flow fuel w params element_id depth indent st = Some (lines, st') ->
  forall l, l ∈ lines ->
    (exists n, l = limit_line (str_repeat "  " n)) \/
    (exists n s, l = notes_line (str_repeat "  " n) s) \/
    (exists x e n, x ∈ visited st' /\ (x ∉ visited st) /\ find_element w x = Some e /\
                   l = element_line (str_repeat "  " n) e).
Proof.
  revert element_id depth indent st lines st'.
  induction fuel as [|fuel IH]; intros element_id depth indent st lines st'; [done|].
  simpl.
  destruct (Z.leb_spec (max_depth params) depth) as [Hd|Hd]; simpl.
  { intros [= <- _] l Hl. by apply elem_of_nil in Hl. }
  case_bool_decide as Hvis.
  { intros [= <- _] l Hl. by apply elem_of_nil in Hl. }
  destruct (max_elements params <=? element_count st).
  { intros [= <- _] l ->%list_elem_of_singleton. left. by exists indent. }
  destruct (find_element w element_id) as [element|] eqn:Hfind.
  - intros Hloop.
    destruct (follow_triggers_lines_from _ _ _ _ _ _ _
                (fun i s sub s' Hc => proj1 (trace_flow_step w params _ _ _ _ _ _ _ Hc))
                Hloop) as [Hsub Hfrom].
    simpl in Hsub.
    assert (element_id ∈ visited st') as Hin.
    { apply Hsub, elem_of_union. left. by apply elem_of_singleton. }
    intros l Hl.
    destruct (Hfrom l Hl) as [Hl0|[->|(i & s & sub & s' & Hc & Hl' & H1 & H2)]].
    + apply elem_of_cons in Hl0 as [->|Hl0].
      * right. right. by exists element_id, element, indent.
      * destruct (short_notes element) as [n|]; [|by apply elem_of_nil in Hl0].
        apply list_elem_of_singleton in Hl0 as ->. right. left. by exists indent, n.
    + left. exists (S indent). by rewrite indent_S.
    + destruct (IH _ _ _ _ _ _ Hc l Hl') as [?|[?|(x & e & n & Hx & Hnew & He & ->)]];
        [by left | right; by left |].
      right. right. exists x, e, n. split; [by apply H2|]. split; [|done].
      intros Hold. apply Hnew, H1. simpl. apply elem_of_union. by right.
  - intros [= <- _] l Hl. by apply elem_of_nil in Hl.
Qed.

(** A call that passes the three guards on the id of an element emits the
    line of the element and goes on with the loop over its triggers. *)
Lemma trace_flow_enter (fuel : nat) (element_id : string) (depth : Z) (indent : nat)
    (st : TraceState) (element : EventStormingElement) :
  depth < max_depth params ->
  element_id ∉ visited st ->
  element_count st < max_elements params ->
  find_element w element_id = Some element ->
  trace_flow (S fuel) w params element_id depth indent st
  = follow_triggers
      (fun trigger_id => trace_flow fuel w params trigger_id (depth + 1) (S indent))
      (max_elements params) (str_repeat "  " indent) (triggers element)
      (element_line (str_repeat "  " indent) element ::
       (if short_notes element is Some n
        then [notes_line (str_repeat "  " indent) n] else []))
      (mkTraceState ({[element_id]} ∪ visited st) (element_count st + 1)).
Proof.
  intros Hd Hvis Hmax Hfind. simpl.
  destruct (Z.leb_spec (max_depth params) depth); [lia|].
  rewrite bool_decide_eq_false_2 by done. simpl.
  destruct (Z.leb_spec (max_elements params) (element_count st)); [lia|].
  by rewrite Hfind.
Qed.

(** A call that meets the budget used up on an id it would enter says so
    and changes nothing. *)
Lemma trace_flow_full (fuel : nat) (element_id : string) (depth : Z) (indent : nat)
    (st : TraceState) :
  depth < max_depth params ->
  element_id ∉ visited st ->
  max_elements params <= element_count st ->
  trace_flow (S fuel) w params element_id depth indent st
  = Some ([limit_line (str_repeat "  " indent)], st).
Proof.
  intros Hd Hvis Hmax. simpl.
  destruct (Z.leb_spec (max_depth params) depth); [lia|].
  rewrite bool_decide_eq_false_2 by done. simpl.
  by destruct (Z.leb_spec (max_elements params) (element_count st)); [|lia].
Qed.

(** A trigger [t] other than [y] of the element under [x] leads to no id of
    the only path [y :: rest] from [x] by a path that keeps off the visited
    ids, [x] among them: through the first id it would share with
    [y :: rest] there would be a second path from [x]. *)
Lemma sibling_misses_path (x t y : string) (rest : list string) (blocked seen : gset string)
    (depth : Z) (v : string) :
  walk w x (y :: rest) ->
  NoDup (x :: y :: rest) ->
  (forall zs, walk w x zs -> NoDup (x :: zs) -> (forall u, u ∈ zs -> u ∉ blocked) ->
              walk_end x zs = walk_end x (y :: rest) -> zs = y :: rest) ->
  edge w x t -> t <> y ->
  x ∈ seen -> blocked ⊆ seen ->
  (forall u, u ∈ y :: rest -> u ∉ seen) ->
  v ∈ y :: rest ->
  reached_from w params seen t depth v -> False.
Proof.
  intros Hwalk Hnd Huniq Hedge Hne Hx Hsub Hfresh Hv (zs & Hzs & Hend & Hndz & Hav & _).
  destruct (first_common (t :: zs) (y :: rest)) as (p & u & q & Hsplit & Hu & Hp).
  { exists v. split; [|done]. rewrite <- Hend. apply walk_end_in. }
  apply list_elem_of_split in Hu as (a & b & Hab).
  assert (walk w x (t :: zs)) as Hwt by (by split).
  rewrite Hsplit in Hwt, Hndz.
  replace (p ++ u :: q) with ((p ++ [u]) ++ q) in Hwt by (by rewrite <- app_assoc).
  apply walk_app in Hwt as [Hwp _].
  assert (walk w u b) as Hwb.
  { rewrite Hab in Hwalk.
    replace (a ++ u :: b) with ((a ++ [u]) ++ b) in Hwalk by (by rewrite <- app_assoc).
    apply walk_app in Hwalk as [_ Hwb]. by rewrite walk_end_snoc in Hwb. }
  assert (forall c, c ∈ p ++ [u] -> c ∉ seen) as Havp.
  { intros c Hc. apply Hav. rewrite Hsplit.
    apply elem_of_app in Hc as [Hc| ->%list_elem_of_singleton]; apply elem_of_app;
      [by left | right; apply list_elem_of_here]. }
  assert (forall c, c ∈ b -> c ∈ y :: rest) as Hb.
  { intros c Hc. rewrite Hab. apply elem_of_app. right. by apply list_elem_of_further. }
  assert (NoDup (u :: b)) as Hndb.
  { apply NoDup_cons in Hnd as [_ Hnd]. rewrite Hab in Hnd.
    by apply NoDup_app in Hnd as (_ & _ & Hnd). }
  assert ((p ++ [u]) ++ b = y :: rest) as Heq.
  { apply Huniq.
    - apply walk_app. split; [done|]. by rewrite walk_end_snoc.
    - apply NoDup_cons. split.
      + intros [Hc|Hc]%elem_of_app; [by apply (Havp x Hc)|].
        apply NoDup_cons in Hnd as [Hnd _]. by apply Hnd, Hb.
      + rewrite <- app_assoc. apply NoDup_app. split; [|split; [|done]].
        * by apply NoDup_app in Hndz as (Hndp & _).
        * intros c Hc [->|Hcb]%elem_of_cons.
          -- apply NoDup_app in Hndz as (_ & Hdis & _).
             apply (Hdis u Hc), list_elem_of_here.
          -- by apply (Hp c Hc), Hb.
    - intros c [Hc|Hc]%elem_of_app Hin.
      + by apply (Havp c Hc), Hsub.
      + by apply (Hfresh c (Hb c Hc)), Hsub.
    - rewrite walk_end_app, walk_end_snoc. rewrite Hab.
      replace (a ++ u :: b) with ((a ++ [u]) ++ b) by (by rewrite <- app_assoc).
      by rewrite walk_end_app, walk_end_snoc. }
  destruct p as [|t' p]; simpl in Hsplit, Heq; congruence.
Qed.

(** The loop over the triggers of the element under [x], among them [y],
    with the ids of the only path [y :: rest] unvisited: the call on [y] is
    made, unless the budget is used up first, and what it shows the loop
    shows. *)
Lemma follow_triggers_finds (fuel : nat) (depth : Z) (indent : nat)
    (x y : string) (rest : list string) (blocked : gset string) (line target : string) :
  walk w x (y :: rest) ->
  NoDup (x :: y :: rest) ->
  (forall zs, walk w x zs -> NoDup (x :: zs) -> (forall u, u ∈ zs -> u ∉ blocked) ->
              walk_end x zs = walk_end x (y :: rest) -> zs = y :: rest) ->
  (forall st sub st',
     x ∈ visited st -> blocked ⊆ visited st ->
     (forall v, v ∈ y :: rest -> v ∉ visited st) ->
     trace_flow fuel w params y (depth + 1) (S indent) st = Some (sub, st') ->
     line ∈ sub /\ target ∈ visited st' \/
     max_elements params <= element_count st' /\
     exists n, limit_line (str_repeat "  " n) ∈ sub) ->
  forall (ids : list string) (lines : list string) (st : TraceState)
         (lines' : list string) (st' : TraceState),
    y ∈ ids ->
    (forall t, t ∈ ids -> edge w x t) ->
    x ∈ visited st -> blocked ⊆ visited st ->
    (forall v, v ∈ y :: rest -> v ∉ visited st) ->
    follow_triggers
      (fun trigger_id => trace_flow fuel w params trigger_id (depth + 1) (S indent))
      (max_elements params) (str_repeat "  " indent) ids lines st = Some (lines', st') ->
    line ∈ lines' /\ target ∈ visited st' \/
    max_elements params <= element_count st' /\
    exists n, limit_line (str_repeat "  " n) ∈ lines'.
Proof.
  intros Hwalk Hnd Huniq Hcall ids. induction ids as [|t ids IH];
    intros lines st lines' st' Hy Hedges Hx Hsub Hfresh Hloop.
  - by apply elem_of_nil in Hy.
  - simpl in Hloop.
    destruct (Z.leb_spec (max_elements params) (element_count st)) as [Hfull|_].
    { injection Hloop as <- <-. right. split; [done|]. exists (S indent).
      rewrite <- indent_S. apply elem_of_app. right. apply list_elem_of_here. }
    destruct (trace_flow fuel w params t (depth + 1) (S indent) st)
      as [[sub s1]|] eqn:Hc; [|done].
    assert (trace_step params s1 st') as (Hsub1 & _ & Hle & _).
    { eapply follow_triggers_step; [|exact Hloop].
      intros i s ls s'. apply trace_flow_step. }
    pose proof (trace_flow_step w params _ _ _ _ _ _ _ Hc) as (Hsub0 & _).
    destruct (decide (t = y)) as [->|Hne].
    + destruct (Hcall st sub s1 Hx Hsub Hfresh Hc) as [[Hline Hvis]|[Hfull (n & Hn)]].
      * left. split; [|by apply Hsub1].
        eapply follow_triggers_lines; [exact Hloop|]. apply elem_of_app. by right.
      * right. split; [lia|]. exists n.
        eapply follow_triggers_lines; [exact Hloop|]. apply elem_of_app. by right.
    + apply (IH (lines ++ sub) s1 lines' st'); try done.
      * apply elem_of_cons in Hy as [?|?]; [congruence | done].
      * intros t' Ht'. apply Hedges. by apply list_elem_of_further.
      * by apply Hsub0.
      * by etrans.
      * intros v Hv Hvis.
        destruct (trace_flow_reach _ _ _ _ _ _ _ Hc v Hvis) as [?|Hreach].
        -- by apply (Hfresh v).
        -- apply (sibling_misses_path x t y rest blocked (visited st) (depth + 1) v);
             try done.
           apply Hedges, list_elem_of_here.
Qed.

(** The element at the end of the only path from the id of a call, when the
    path fits under the depth bound and its ids are unvisited, is emitted by
    the call, at the indentation of its depth -- unless the budget is used up
    on the way, which the call reports with the limit line. *)
Lemma trace_flow_emits (e : EventStormingElement) (ys : list string) :
  forall (fuel : nat) (element_id : string) (depth : Z) (indent : nat)
         (st : TraceState) (lines : list string) (st' : TraceState),
    walk w element_id ys ->
    NoDup (element_id :: ys) ->
    (forall zs, walk w element_id zs -> NoDup (element_id :: zs) ->
                (forall u, u ∈ zs -> u ∉ visited st) ->
                walk_end element_id zs = walk_end element_id ys -> zs = ys) ->
    depth + Z.of_nat (length ys) < max_depth params ->
    (forall v, v ∈ element_id :: ys -> v ∉ visited st) ->
    find_element w (walk_end element_id ys) = Some e ->
    trace_flow fuel w params element_id depth indent st = Some (lines, st') ->
    element_line (str_repeat "  " (indent + length ys)) e ∈ lines /\
    walk_end element_id ys ∈ visited st' \/
    max_elements params <= element_count st' /\
    exists n, limit_line (str_repeat "  " n) ∈ lines.
Proof.
  induction ys as [|y rest IH];
    intros fuel element_id depth indent st lines st' Hwalk Hnd Huniq Hdepth Hfresh Hfind
           Htrace.
  - destruct fuel as [|fuel]; [done|].
    change (walk_end element_id []) with element_id in *.
    destruct (Z_lt_le_dec (element_count st) (max_elements params)) as [Hroom|Hfull].
    + rewrite (trace_flow_enter fuel element_id depth indent st e) in Htrace;
        [|simpl in Hdepth; lia | apply Hfresh, list_elem_of_here | done | done].
      left. rewrite Nat.add_0_r. split.
      * eapply follow_triggers_lines; [exact Htrace|]. apply list_elem_of_here.
      * assert (trace_step params
                  (mkTraceState ({[element_id]} ∪ visited st) (element_count st + 1)) st')
          as (Hsub & _).
        { eapply follow_triggers_step; [|exact Htrace].
          intros i s ls s'. apply trace_flow_step. }
        apply Hsub. simpl. apply elem_of_union. left. by apply elem_of_singleton.
    + rewrite trace_flow_full in Htrace;
        [|simpl in Hdepth; lia | apply Hfresh, list_elem_of_here | done].
      injection Htrace as <- <-. right. split; [done|].
      exists indent. apply list_elem_of_here.
  - destruct fuel as [|fuel]; [done|].
    destruct (Z_lt_le_dec (element_count st) (max_elements params)) as [Hroom|Hfull].
    2:{ rewrite trace_flow_full in Htrace;
          [|simpl length in Hdepth; lia | apply Hfresh, list_elem_of_here | done].
        injection Htrace as <- <-. right. split; [done|].
        exists indent. apply list_elem_of_here. }
    pose proof Hwalk as [Hedge Hrest]. unfold edge in Hedge.
    destruct (find_element w element_id) as [e0|] eqn:Hfind0; [|done].
    rewrite (trace_flow_enter fuel element_id depth indent st e0) in Htrace;
      [|simpl length in Hdepth; lia | apply Hfresh, list_elem_of_here | done | done].
    rewrite walk_end_cons in Hfind.
    replace (indent + length (y :: rest))%nat with (S indent + length rest)%nat
      by (simpl; lia).
    rewrite walk_end_cons.
    eapply (follow_triggers_finds fuel depth indent element_id y rest (visited st));
      [exact Hwalk | exact Hnd | exact Huniq | | exact Hedge | | | | | exact Htrace].
    + intros s sub s' Hx Hsub Hs Hcall.
      apply (IH fuel y (depth + 1) (S indent) s sub s'); try done.
      * by apply NoDup_cons in Hnd as [_ Hnd].
      * intros zs Hzs Hndz Hav Hend.
        assert (y :: zs = y :: rest) as [= ->]; [|done].
        apply Huniq.
        -- split; [by destruct Hwalk | done].
        -- apply NoDup_cons. split; [|done].
           intros [Heq|Hin]%elem_of_cons.
           ++ apply (Hs y); [apply list_elem_of_here | by rewrite <- Heq].
           ++ by apply (Hav element_id Hin).
        -- intros u [Heq|Hu]%elem_of_cons Hin.
           ++ apply (Hfresh y); [apply list_elem_of_further, list_elem_of_here|].
              by rewrite <- Heq.
           ++ by apply (Hav u Hu), Hsub.
        -- by rewrite !walk_end_cons.
      * simpl length in Hdepth. lia.
    + intros t Ht. unfold edge. by rewrite Hfind0.
    + simpl. apply elem_of_union. left. by apply elem_of_singleton.
    + simpl. intros u Hu. apply elem_of_union. by right.
    + intros v Hv. simpl. intros [->%elem_of_singleton|Hvis]%elem_of_union.
      * apply NoDup_cons in Hnd as [Hnd _]. done.
      * apply (Hfresh v); [by apply list_elem_of_further | done].
Qed.
End Depth.

(** C4, as the code has it. [max_depth] counts the levels of a directed
    trace, the start element being level 0. An element whose only path from
    the start element has at most [max_depth - 1] trigger edges is visited
    and is in the output of the trace, at the indentation of its depth,
    unless the budget [max_elements] is used up, which the output reports
    with the limit line. An element whose only path from the start has
    [max_depth] edges or more is not visited and not shown: no line of the
    output is its line, at any indentation, provided that no element found
    under another id prints the very same line. *)
Theorem directed_trace_depth_levels (w : Workshop) (params : VisualizeFlowInput)
    (start : string) (ys : list string) (target : string) (e : EventStormingElement) :
  start_element_id params = Some start ->
  start <> "" ->
  only_path w start ys target ->
  find_element w target = Some e ->
  exists run,
    flow_run (flow_fuel params) w params = Some (inr run) /\
    (Z.of_nat (length ys) < max_depth params ->
     element_line (str_repeat "  " (length ys)) e ∈ fr_lines run /\
     target ∈ ⋃ fr_visited run \/
     max_elements params <= fr_element_count run /\
     exists n, limit_line (str_repeat "  " n) ∈ fr_lines run) /\
    (max_depth params <= Z.of_nat (length ys) ->
     (target ∉ ⋃ fr_visited run) /\
     (line_of_no_other w target e ->
      forall n, element_line (str_repeat "  " n) e ∉ fr_lines run)).
Proof.
  intros Hstart Hne (Hwalk & Hend & Hnd & Huniq) Hfind.
  assert (is_Some (find_element w start)) as [s Hs].
  { destruct ys as [|y rest].
    - unfold walk_end in Hend. simpl in Hend. subst target. by eexists.
    - destruct Hwalk as [Hedge _]. unfold edge in Hedge.
      by destruct (find_element w start). }
  destruct (trace_flow_enough_fuel w params (flow_fuel params) start 0 0
              (mkTraceState ∅ 0) ltac:(lia) ltac:(lia)) as [_ [[sub st'] Htrace]].
  assert (truthy (Some start) = true) as Htruthy.
  { simpl. by destruct (String.eqb_spec start ""). }
  assert (forall X : gset string, target ∈ ⋃ [X] <-> target ∈ X) as Hunion.
  { intros X. rewrite elem_of_union_list. split.
    - by intros (Y & ->%list_elem_of_singleton & ?).
    - intros ?. exists X. split; [apply list_elem_of_here | done]. }
  assert (exists run,
            flow_run (flow_fuel params) w params = Some (inr run) /\
            fr_visited run = [visited st'] /\
            fr_element_count run = element_count st' /\
            (forall l, l ∈ sub -> l ∈ fr_lines run) /\
            (forall l, l ∈ fr_lines run ->
               l ∈ sub \/
               l ∈ ["# Event Flow Visualization: " +:+ md_name (metadata w); "";
                    "## Flow from: " +:+ el_name s; display_limit_line params]))
    as (run & Hrun & Hvis & Hcount & Hlines & Hfrom).
  { unfold flow_run. rewrite Hstart, Htruthy.
    change (default "" (Some start)) with start. rewrite Hs, Htrace.
    destruct (max_elements params <=? _); eexists; (split; [reflexivity|]);
      cbn [fr_visited fr_element_count fr_lines]; (split; [done|]); (split; [done|]);
      (split; intros l Hl; [rewrite ?elem_of_app, ?elem_of_cons; tauto|]);
      rewrite ?elem_of_app, ?elem_of_cons, ?elem_of_nil in Hl;
      rewrite ?elem_of_cons; tauto. }
  exists run. split; [exact Hrun|]. rewrite Hvis, Hcount, Hunion. split.
  - intros Hdepth.
    destruct (trace_flow_emits w params e ys (flow_fuel params) start 0 0
                (mkTraceState ∅ 0) sub st' Hwalk Hnd) as [[Hline Hin]|[Hfull (n & Hn)]].
    + intros zs Hzs Hndz _ Hz. apply Huniq; [done | done | congruence].
    + lia.
    + intros v _. apply not_elem_of_empty.
    + by rewrite Hend.
    + exact Htrace.
    + left. split; [by apply Hlines | by rewrite <- Hend].
    + right. split; [done|]. exists n. by apply Hlines.
  - intros Hdepth.
    assert (target ∉ visited st') as Hout.
    { intros Hin.
      destruct (trace_flow_reach w params _ _ _ _ _ _ _ Htrace target Hin)
        as [Hempty|(zs & Hzs & Hz & Hndz & _ & Hlen)].
      + by apply not_elem_of_empty in Hempty.
      + rewrite (Huniq zs Hzs Hndz Hz) in Hlen. lia. }
    split; [exact Hout|].
    intros Hline n Hin.
    destruct (Hfrom _ Hin) as [Hsub|Hhead].
    + destruct (trace_flow_lines w params _ _ _ _ _ _ _ Htrace _ Hsub)
        as [[k Hk]|[(k & notes & Hk)|(x & e' & k & Hx & _ & He' & Hk)]].
      * by apply (element_line_not_limit k n e).
      * by apply (element_line_not_notes k n notes e).
      * apply Hout. by rewrite <- (Hline x e' k n He').
    + repeat (apply elem_of_cons in Hhead as [Hhead|Hhead];
              [apply (f_equal lstrip) in Hhead; rewrite lstrip_element_line in Hhead;
               discriminate Hhead|]).
      by apply elem_of_nil in Hhead.
Qed.

(** In the chain A -> B -> C, the only path from A to C is through B. *)
Lemma sample_only_path_AC : only_path Sample.workshop "A" ["B"; "C"] "C".
Proof.
  split; [|split; [|split]].
  - simpl. unfold edge. simpl. split; [apply list_elem_of_here|].
    split; [apply list_elem_of_here | done].
  - reflexivity.
  - by apply (bool_decide_unpack _).
  - intros zs Hzs _ Hend.
    destruct zs as [|z1 zs]; [discriminate|].
    destruct Hzs as [H1 Hzs]. unfold edge in H1. simpl in H1.
    apply list_elem_of_singleton in H1 as ->.
    destruct zs as [|z2 zs]; [discriminate|].
    destruct Hzs as [H2 Hzs]. unfold edge in H2. simpl in H2.
    apply list_elem_of_singleton in H2 as ->.
    destruct zs as [|z3 zs]; [done|].
    destruct Hzs as [H3 _]. unfold edge in H3. simpl in H3.
    by apply elem_of_nil in H3.
Qed.

Lemma sample_only_path_AB : only_path Sample.workshop "A" ["B"] "B".
Proof.
  split; [|split; [|split]].
  - simpl. unfold edge. simpl. split; [apply list_elem_of_here | done].
  - reflexivity.
  - by apply (bool_decide_unpack _).
  - intros zs Hzs _ Hend.
    destruct zs as [|z1 zs]; [discriminate|].
    destruct Hzs as [H1 Hzs]. unfold edge in H1. simpl in H1.
    apply list_elem_of_singleton in H1 as ->.
    destruct zs as [|z2 zs]; [done|].
    destruct Hzs as [H2 Hzs]. unfold edge in H2. simpl in H2.
    apply list_elem_of_singleton in H2 as ->.
    destruct zs as [|z3 zs]; [discriminate|].
    destruct Hzs as [H3 _]. unfold edge in H3. simpl in H3.
    by apply elem_of_nil in H3.
Qed.

(** No other element of the chain prints the line of C. *)
Lemma sample_line_C : line_of_no_other Sample.workshop "C" Sample.payment_taken.
Proof.
  intros x e' n m Hfind Heq.
  apply (f_equal lstrip) in Heq. rewrite !lstrip_element_line in Heq.
  apply List.find_some in Hfind as [Hin Hid]. apply String.eqb_eq in Hid as <-.
  destruct Hin as [<-|[<-|[<-|[]]]]; [discriminate Heq | discriminate Heq | done].
Qed.

Lemma directed_trace_depth_levels_witness :
  let params := mkVisualizeFlowInput "w1" (Some "A") 2 100 in
  exists run,
    flow_run 3 Sample.workshop params = Some (inr run) /\
    fr_element_count run = 2 /\
    element_line "  " Sample.order_placed ∈ fr_lines run /\
    "B" ∈ ⋃ fr_visited run /\
    ("C" ∉ ⋃ fr_visited run) /\
    forall n, element_line (str_repeat "  " n) Sample.payment_taken ∉ fr_lines run.
Proof.
  intros params.
  destruct (directed_trace_depth_levels Sample.workshop params
              "A" ["B"] "B" Sample.order_placed eq_refl ltac:(discriminate)
              sample_only_path_AB eq_refl) as (run & Hrun & Hpos & _).
  destruct (directed_trace_depth_levels Sample.workshop params
              "A" ["B"; "C"] "C" Sample.payment_taken eq_refl ltac:(discriminate)
              sample_only_path_AC eq_refl) as (run' & Hrun' & _ & Hneg).
  assert (run' = run) as -> by congruence.
  exists run. split; [exact Hrun|].
  assert (fr_element_count run = 2) as Hcount.
  { vm_compute in Hrun. by injection Hrun as <-. }
  split; [exact Hcount|].
  destruct Hpos as [[Hline Hvis]|[Hfull _]]; [simpl; lia | | rewrite Hcount in Hfull; simpl in Hfull; lia].
  destruct Hneg as [Hout Hshown]; [simpl; lia|].
  split; [exact Hline|]. split; [exact Hvis|]. split; [exact Hout|].
  exact (Hshown sample_line_C).
Defined.

(** With [max_depth = 2], the trace from A in the chain A -> B -> C stops at
    B: C, whose only path from A has exactly two trigger edges, is not in the
    output and not visited, although the budget of 100 is far from used. *)
Lemma directed_trace_depth_counterexample :
  let params := mkVisualizeFlowInput "w1" (Some "A") 2 100 in
  only_path Sample.workshop "A" ["B"; "C"] "C" /\
  Z.of_nat (length ["B"; "C"]) = max_depth params /\
  find_element Sample.workshop "C" = Some Sample.payment_taken /\
  exists run,
    flow_run (flow_fuel params) Sample.workshop params = Some (inr run) /\
    fr_element_count run < max_elements params /\
    fr_lines run
    = ["# Event Flow Visualization: Shop"; ""; "## Flow from: Place Order"; "";
       "â†’ [command] **Place Order** `A`";
       "  â†’ [event] **Order Placed** `B`"] /\
    (element_line "    " Sample.payment_taken ∉ fr_lines run) /\
    ("C" ∉ ⋃ fr_visited run).
Proof.
  intros params. split; [exact sample_only_path_AC|].
  split; [reflexivity|]. split; [reflexivity|].
  eexists. split; [vm_compute; reflexivity|].
  split; [simpl; lia|]. split; [reflexivity|]. split.
  - simpl. intros H.
    repeat (apply elem_of_cons in H as [H|H]; [discriminate|]).
    by apply elem_of_nil in H.
  - rewrite elem_of_union_list. intros (X & ->%list_elem_of_singleton & H).
    apply (bool_decide_eq_true_2 _) in H. vm_compute in H. discriminate.
Qed.

(** * Further properties *)

(** ** Pagination: the page and its neighbours *)

(** Where the returned slice starts, and that it starts inside the list. *)
Lemma paginate_list_start {A} (items : list A) (page page_size : Z) :
  1 <= page_size ->
  let info := (paginate_list items page page_size).2 in
  let start := (pg_page info - 1) * page_size in
  0 <= start <= len items /\
  (0 < len items -> start < len items) /\
  (paginate_list items page page_size).1
  = take (Z.to_nat page_size) (drop (Z.to_nat start) items) /\
  (has_prev info = true <-> 0 < start) /\
  (has_next info = true <-> start + page_size < len items).
Proof.
  intros Hp info start.
  assert (0 < page_size) as Hp' by lia.
  destruct (paginate_list_page items page page_size Hp') as [Hpage Hslice].
  pose proof (paginate_list_total_pages items page page_size Hp') as Htp.
  pose proof (ceil_div_bounds (len items) page_size Hp') as Hceil.
  fold info in Hpage, Hslice, Htp.
  assert (0 <= len items) as HN by (unfold len; lia).
  set (tp := pg_total_pages info) in *.
  assert (pg_page info = Z.max 1 (Z.min page (if 0 <? tp then tp else 1))) as Hclamp
    by reflexivity.
  assert (has_prev info = (1 <? pg_page info)) as -> by reflexivity.
  assert (has_next info = (pg_page info <? tp)) as -> by reflexivity.
  rewrite <- Htp in Hceil.
  assert (0 <= tp) as Htp0 by (destruct (Z_lt_le_dec tp 0); [nia | done]).
  assert (len items = 0 -> tp = 0) as Hzero by (intros H0; rewrite H0 in Hceil; nia).
  assert (pg_page info <= Z.max tp 1) as Hle
    by (destruct (Z.ltb_spec 0 tp); lia).
  split; [|split; [|split; [exact Hslice|split]]].
  - unfold start. split; [nia|].
    destruct (Z.eq_dec (len items) 0) as [H0|H0]; [specialize (Hzero H0); nia|].
    assert (0 < tp) by nia. nia.
  - intros Hpos. unfold start. assert (0 < tp) by nia. nia.
  - unfold start. rewrite Z.ltb_lt. nia.
  - unfold start. rewrite Z.ltb_lt. split; [nia|].
    intros H. destruct (Z_lt_le_dec (pg_page info) tp); [done|]. nia.
Qed.

(** X1. The returned page cuts the list in three: the items before it, the
    page, the items after it. [has_prev] says whether there are items before,
    [has_next] whether there are items after. *)
Theorem paginate_list_neighbours {A} (items : list A) (page page_size : Z) :
  1 <= page_size ->
  let result := paginate_list items page page_size in
  exists before after,
    items = before ++ result.1 ++ after /\
    len before = (pg_page result.2 - 1) * page_size /\
    (has_prev result.2 = true <-> before <> []) /\
    (has_next result.2 = true <-> after <> []).
Proof.
  intros Hp result.
  destruct (paginate_list_start items page page_size Hp)
    as (Hstart & _ & Hslice & Hprev & Hnext).
  fold result in Hstart, Hslice, Hprev, Hnext.
  set (start := (pg_page result.2 - 1) * page_size) in *.
  exists (take (Z.to_nat start) items),
         (drop (Z.to_nat page_size) (drop (Z.to_nat start) items)).
  rewrite Hslice, take_drop, take_drop. split; [done|].
  assert (len (take (Z.to_nat start) items) = start) as Hlen
    by (unfold len in *; rewrite length_take; lia).
  split; [exact Hlen|]. split.
  - rewrite Hprev. unfold len in Hlen.
    destruct (take (Z.to_nat start) items); simpl in Hlen; split; intros; (done || lia).
  - rewrite Hnext.
    assert (Z.of_nat (length (drop (Z.to_nat page_size) (drop (Z.to_nat start) items)))
            = Z.max 0 (len items - start - page_size)) as Hafter
      by (unfold len in *; rewrite !length_drop; lia).
    destruct (drop (Z.to_nat page_size) (drop (Z.to_nat start) items));
      simpl in Hafter; split; intros; (done || lia).
Qed.

Lemma paginate_list_neighbours_witness :
  exists before after,
    [10; 20; 30; 40; 50] = before ++ (paginate_list [10; 20; 30; 40; 50] 2 2).1 ++ after /\
    len before = 2 /\ before <> [] /\ after <> [].
Proof.
  destruct (paginate_list_neighbours [10; 20; 30; 40; 50] 2 2 ltac:(lia))
    as (before & after & Heq & Hlen & Hprev & Hnext).
  exists before, after. split; [exact Heq|]. split; [exact Hlen|].
  split; [by apply Hprev | by apply Hnext].
Defined.

(** X2. A page never holds more than [page_size] items, and the page returned
    for a list that is not empty is never empty, whatever page is asked
    for. *)
Theorem paginate_list_page_size {A} (items : list A) (page page_size : Z) :
  1 <= page_size ->
  let slice := (paginate_list items page page_size).1 in
  len slice <= page_size /\ (items <> [] -> slice <> []).
Proof.
  intros Hp slice.
  destruct (paginate_list_start items page page_size Hp)
    as (Hstart & Hin & Hslice & _).
  fold slice in Hslice.
  set (start := (pg_page (paginate_list items page page_size).2 - 1) * page_size) in *.
  assert (len slice = Z.min page_size (len items - start)) as Hlen.
  { rewrite Hslice; unfold len in *; rewrite length_take, length_drop. lia. }
  split; [lia|]. intros Hne Hnil. rewrite Hnil in Hlen.
  assert (0 < len items) by (destruct items; [done | unfold len; simpl; lia]).
  specialize (Hin ltac:(done)). unfold len in *. simpl in Hlen. lia.
Qed.

Lemma paginate_list_page_size_witness :
  len (paginate_list [10; 20; 30; 40; 50] 99 2).1 <= 2 /\
  (paginate_list [10; 20; 30; 40; 50] 99 2).1 <> [].
Proof.
  destruct (paginate_list_page_size [10; 20; 30; 40; 50] 99 2 ltac:(lia)) as [Hle Hne].
  split; [exact Hle | by apply Hne].
Defined.

(** X3. A request for any page is answered as the request for the clamped
    page: a page beyond the last gives the last page, a page below 1 gives
    the first. *)
Theorem paginate_list_clamped_request {A} (items : list A) (page page_size : Z) :
  1 <= page_size ->
  let total_pages := pg_total_pages (paginate_list items page page_size).2 in
  paginate_list items page page_size
  = paginate_list items (pg_page (paginate_list items page page_size).2) page_size /\
  (total_pages <= page ->
   paginate_list items page page_size
   = paginate_list items (Z.max total_pages 1) page_size) /\
  (page <= 1 -> paginate_list items page page_size = paginate_list items 1 page_size).
Proof.
  intros Hp total_pages.
  pose proof (paginate_list_total_pages items page page_size ltac:(lia)) as Htp.
  pose proof (ceil_div_bounds (len items) page_size ltac:(lia)) as Hceil.
  fold total_pages in Htp. rewrite <- Htp in Hceil.
  assert (0 <= len items) as HN by (unfold len; lia).
  assert (0 <= total_pages) as Htp0 by (destruct (Z_lt_le_dec total_pages 0); [nia | done]).
  assert (forall p q,
            Z.max 1 (Z.min p (if 0 <? total_pages then total_pages else 1))
            = Z.max 1 (Z.min q (if 0 <? total_pages then total_pages else 1)) ->
            paginate_list items p page_size = paginate_list items q page_size) as Hsame.
  { intros p q Heq. unfold paginate_list.
    change (if 0 <? len items then (len items + page_size - 1) `div` page_size else 0)
      with total_pages.
    by rewrite Heq. }
  split; [|split].
  - apply Hsame.
    change (pg_page (paginate_list items page page_size).2)
      with (Z.max 1 (Z.min page (if 0 <? total_pages then total_pages else 1))).
    destruct (Z.ltb_spec 0 total_pages); lia.
  - intros Hge. apply Hsame. destruct (Z.ltb_spec 0 total_pages); lia.
  - intros Hle. apply Hsame. destruct (Z.ltb_spec 0 total_pages); lia.
Qed.

Lemma paginate_list_clamped_request_witness :
  paginate_list [10; 20; 30; 40; 50] 99 2 = paginate_list [10; 20; 30; 40; 50] 3 2 /\
  paginate_list [10; 20; 30; 40; 50] (-4) 2 = paginate_list [10; 20; 30; 40; 50] 1 2.
Proof.
  destruct (paginate_list_clamped_request [10; 20; 30; 40; 50] 99 2 ltac:(lia))
    as (_ & Hlast & _).
  destruct (paginate_list_clamped_request [10; 20; 30; 40; 50] (-4) 2 ltac:(lia))
    as (_ & _ & Hfirst).
  split; [exact (Hlast ltac:(vm_compute; discriminate)) | exact (Hfirst ltac:(lia))].
Defined.

(** X4. The number of items that the pagination line announces as shown is
    the number of items of the page that [paginate_list] returned with the
    pagination record. *)
Theorem showing_is_page_length {A} (items : list A) (page page_size : Z) :
  1 <= page_size ->
  showing (paginate_list items page page_size).2
  = len (paginate_list items page page_size).1.
Proof.
  intros Hp.
  destruct (paginate_list_start items page page_size Hp)
    as (Hstart & Hin & Hslice & _).
  set (info := (paginate_list items page page_size).2) in *.
  rewrite Hslice. unfold showing, range_len.
  change (pg_page_size info) with page_size.
  change (pg_total_items info) with (len items).
  unfold len in *. rewrite length_take, length_drop. lia.
Qed.

Lemma showing_is_page_length_witness :
  showing (paginate_list [10; 20; 30; 40; 50] 3 2).2 = 1.
Proof.
  rewrite (showing_is_page_length [10; 20; 30; 40; 50] 3 2 ltac:(lia)). reflexivity.
Defined.

(** ** Persistence *)

(** X5. A workshop that was saved is what a load of its id returns, with the
    time of the save as [updated_at] and nothing else changed; the other
    files are as they were. *)
Theorem save_then_load (store : gmap string Workshop) (now : string) (w : Workshop) :
  (exists w',
     load_workshop (save_workshop store now w) (md_id (metadata w)) = inr w' /\
     elements w' = elements w /\
     bounded_contexts w' = bounded_contexts w /\
     metadata w' = set_md_updated_at (metadata w) now /\
     md_updated_at (metadata w') = now) /\
  (forall k, k <> md_id (metadata w) ->
     load_workshop (save_workshop store now w) k = load_workshop store k).
Proof.
  unfold load_workshop, save_workshop. simpl. split.
  - eexists. rewrite lookup_insert_eq. by repeat split.
  - intros k Hk. by rewrite lookup_insert_ne.
Qed.

Lemma save_workshop_consistent (store : gmap string Workshop) (now : string)
    (w : Workshop) :
  store_consistent store -> store_consistent (save_workshop store now w).
Proof.
  intros Hs k w'. unfold save_workshop. simpl. rewrite lookup_insert.
  case_decide as Hk; [|apply Hs]. intros [= <-]. done.
Qed.

Lemma save_workshop_writes_only (store : gmap string Workshop) (now : string)
    (w : Workshop) :
  writes_only (md_id (metadata w)) store (save_workshop store now w).
Proof. intros j Hj. unfold save_workshop. simpl. by rewrite lookup_insert_ne. Qed.

Lemma saved_from_consistent (store store' : gmap string Workshop) (k : string) :
  store_consistent store -> saved_from store k store' ->
  store_consistent store' /\ writes_only k store store'.
Proof.
  intros Hs [->|(w & w' & now & Hw & Hmd & ->)]; [by split|].
  split; [by apply save_workshop_consistent|].
  pose proof (save_workshop_writes_only store now w') as Hwo.
  rewrite Hmd, (Hs _ _ Hw) in Hwo. exact Hwo.
Qed.

Lemma add_element_saved (store : gmap string Workshop) (i ts now : string)
    (p : AddElementInput) :
  saved_from store (ae_workshop_id p) (add_element store i ts now p).2.
Proof.
  unfold add_element, load_workshop.
  destruct (store !! ae_workshop_id p) as [w|] eqn:Hw; [|by left].
  right. eexists w, _, now. split; [exact Hw|]. split; [|reflexivity]. reflexivity.
Qed.

Lemma update_element_saved (store : gmap string Workshop) (ts now : string)
    (p : UpdateElementInput) :
  saved_from store (ue_workshop_id p) (update_element store ts now p).2.
Proof.
  unfold update_element, load_workshop.
  destruct (store !! ue_workshop_id p) as [w|] eqn:Hw; [|by left].
  destruct (find_element w _); [|by left].
  destruct (apply_patch p _) as [e1 f1].
  destruct (ue_bounded_context_id p); right; eexists w, _, now;
    (split; [exact Hw|]); (split; [|reflexivity]); reflexivity.
Qed.

Lemma delete_element_saved (store : gmap string Workshop) (now : string)
    (p : DeleteElementInput) :
  saved_from store (de_workshop_id p) (delete_element store now p).2.
Proof.
  unfold delete_element, load_workshop.
  destruct (store !! de_workshop_id p) as [w|] eqn:Hw; [|by left].
  destruct (find_element w _); [|by left].
  right. eexists w, _, now. split; [exact Hw|]. split; [|reflexivity]. reflexivity.
Qed.

Lemma create_bounded_context_saved (store : gmap string Workshop) (i now : string)
    (p : CreateBoundedContextInput) :
  saved_from store (cb_workshop_id p) (create_bounded_context store i now p).2.
Proof.
  unfold create_bounded_context, load_workshop.
  destruct (store !! cb_workshop_id p) as [w|] eqn:Hw; [|by left].
  right. eexists w, _, now. split; [exact Hw|]. split; [|reflexivity]. reflexivity.
Qed.

Lemma assign_to_context_saved (store : gmap string Workshop) (now : string)
    (p : AssignToContextInput) :
  saved_from store (ac_workshop_id p) (assign_to_context store now p).2.
Proof.
  unfold assign_to_context, load_workshop.
  destruct (store !! ac_workshop_id p) as [w|] eqn:Hw; [|by left].
  destruct (find_context w _); [|by left].
  right. eexists w, _, now. split; [exact Hw|]. split; [|reflexivity].
  by destruct (assign_fold (ac_context_id p) (ac_element_ids p) (mkAssignState w [] []))
    as (_ & _ & Hmd & _).
Qed.

(** X6. When every file of the store is named after the id in its metadata,
    this is still so after any of the six mutating tools, and a tool changes
    no file but the one of the workshop it is asked for (for
    [create_workshop], the one of the new id). *)
Theorem tools_keep_store_consistent (store : gmap string Workshop) :
  store_consistent store ->
  (forall i ts now p,
     let store' := (create_workshop store i ts now p).2 in
     store_consistent store' /\ writes_only i store store') /\
  (forall i ts now p,
     let store' := (add_element store i ts now p).2 in
     store_consistent store' /\ writes_only (ae_workshop_id p) store store') /\
  (forall ts now p,
     let store' := (update_element store ts now p).2 in
     store_consistent store' /\ writes_only (ue_workshop_id p) store store') /\
  (forall now p,
     let store' := (delete_element store now p).2 in
     store_consistent store' /\ writes_only (de_workshop_id p) store store') /\
  (forall i now p,
     let store' := (create_bounded_context store i now p).2 in
     store_consistent store' /\ writes_only (cb_workshop_id p) store store') /\
  (forall now p,
     let store' := (assign_to_context store now p).2 in
     store_consistent store' /\ writes_only (ac_workshop_id p) store store').
Proof.
  intros Hs. split; [|split; [|split; [|split; [|split]]]].
  - intros i ts now p. simpl. split.
    + by apply save_workshop_consistent.
    + apply (save_workshop_writes_only store now
               (mkWorkshop (mkMetadata i _ _ _ _ _ _ _) [] [])).
  - intros i ts now p. apply saved_from_consistent; [done|]. apply add_element_saved.
  - intros ts now p. apply saved_from_consistent; [done|]. apply update_element_saved.
  - intros now p. apply saved_from_consistent; [done|]. apply delete_element_saved.
  - intros i now p. apply saved_from_consistent; [done|].
    apply create_bounded_context_saved.
  - intros now p. apply saved_from_consistent; [done|]. apply assign_to_context_saved.
Qed.

Lemma sample_store_consistent : store_consistent Sample.store.
Proof.
  intros k w. unfold Sample.store.
  intros [<- <-]%lookup_singleton_Some. reflexivity.
Qed.

Lemma tools_keep_store_consistent_witness :
  store_consistent
    (delete_element Sample.store "t9" (mkDeleteElementInput "w1" "B")).2.
Proof.
  exact (proj1 (proj1 (proj2 (proj2 (proj2
    (tools_keep_store_consistent Sample.store sample_store_consistent))))
    "t9" (mkDeleteElementInput "w1" "B"))).
Defined.

(** ** Statistics *)

Lemma type_value_inj (t1 t2 : ElementType) :
  type_value t1 = type_value t2 -> t1 = t2.
Proof. destruct t1, t2; simpl; intros H; (reflexivity || discriminate H). Qed.

(** The dictionary built by the loop over [ElementType]. *)
Lemma type_counts_lookup (count : ElementType -> Z) (t : ElementType) :
  foldl (fun d etype => <[type_value etype := count etype]> d)
        (∅ : gmap string Z) all_element_types !! type_value t
  = Some (count t).
Proof. destruct t; vm_compute; reflexivity. Qed.

Lemma type_counts_keys (count : ElementType -> Z) (k : string) :
  is_Some (foldl (fun d etype => <[type_value etype := count etype]> d)
                 (∅ : gmap string Z) all_element_types !! k) ->
  exists t, k = type_value t.
Proof.
  unfold all_element_types. cbn [foldl]. intros Hk.
  repeat (rewrite lookup_insert in Hk; case_decide;
          [eexists; symmetry; eassumption|]).
  rewrite lookup_empty in Hk. by destruct Hk.
Qed.

Lemma sum_over_types_total (l : list EventStormingElement) :
  sum_over_types (count_of_type l) = len l.
Proof.
  unfold sum_over_types, count_of_type, all_element_types, len. cbn [foldr].
  induction l as [|e l IH]; [done|].
  rewrite !filter_cons. cbn [length].
  destruct e as [i t n p no ca ua cb tr tb b]; cbn [el_type].
  destruct t; repeat case_decide; try congruence; cbn [length]; lia.
Qed.

Lemma count_relationships_spec (l : list EventStormingElement) (a b c : Z) :
  foldl (fun '(with_triggers, with_triggered_by, links) element =>
           let '(with_triggers, links) :=
             if triggers element is [] then (with_triggers, links)
             else (with_triggers + 1, links + len (triggers element)) in
           let with_triggered_by :=
             if triggered_by element is [] then with_triggered_by
             else with_triggered_by + 1 in
           (with_triggers, with_triggered_by, links))
        (a, b, c) l
  = (a + len (filter (fun e => triggers e <> []) l),
     b + len (filter (fun e => triggered_by e <> []) l),
     c + total_links l).
Proof.
  revert a b c. induction l as [|e l IH]; intros a b c.
  - unfold len. simpl. apply (f_equal2 pair); [apply (f_equal2 pair)|]; lia.
  - cbn [foldl]. rewrite !filter_cons. cbn [total_links foldr].
    fold (total_links l).
    destruct (triggers e) as [|t ts] eqn:Ht, (triggered_by e) as [|u us] eqn:Hu;
      rewrite IH; repeat case_decide; try done; unfold len; cbn [length];
      (apply (f_equal2 pair); [apply (f_equal2 pair)|]; lia).
Qed.

Lemma count_coverage_spec (l : list EventStormingElement) (a b : Z) :
  foldl (fun '(inside, outside) element =>
           if truthy (bounded_context_id element) then (inside + 1, outside)
           else (inside, outside + 1))
        (a, b) l
  = (a + len (filter (fun e => truthy (bounded_context_id e) = true) l),
     b + len (filter (fun e => truthy (bounded_context_id e) = false) l)).
Proof.
  revert a b. induction l as [|e l IH]; intros a b.
  - unfold len. simpl. apply (f_equal2 pair); lia.
  - cbn [foldl]. rewrite !filter_cons.
    destruct (truthy (bounded_context_id e)); rewrite IH;
      repeat case_decide; try done; unfold len; cbn [length];
      apply (f_equal2 pair); lia.
Qed.

Lemma filter_split_len {A} (P : A -> bool) (l : list A) :
  len (filter (fun x => P x = true) l) + len (filter (fun x => P x = false) l) = len l.
Proof.
  unfold len. induction l as [|x l IH]; [done|].
  rewrite !filter_cons. destruct (P x); repeat case_decide; try done;
    cbn [length]; lia.
Qed.

(** X19. The per-type count of the statistics has a key for each of the eight
    element types and no other key, the count under a key is the number of
    elements of the type, zero included, and the eight counts add up to the
    total number of elements. *)
Theorem statistics_by_type (store : gmap string Workshop) (workshop_id : string)
    (w : Workshop) :
  store !! workshop_id = Some w ->
  exists stats,
    get_statistics store workshop_id = inr stats /\
    (forall t, by_type stats !! type_value t = Some (count_of_type (elements w) t)) /\
    (forall k, is_Some (by_type stats !! k) -> exists t, k = type_value t) /\
    total_elements stats = len (elements w) /\
    sum_over_types (fun t => default 0 (by_type stats !! type_value t))
    = total_elements stats.
Proof.
  intros Hload. unfold get_statistics. rewrite (load_workshop_Some _ _ _ Hload).
  destruct (count_relationships w) as [[a b] c]. destruct (count_coverage w) as [i o].
  eexists. split; [reflexivity|]. cbn [by_type total_elements].
  unfold count_by_type.
  split; [intros t; apply (type_counts_lookup (count_of_type (elements w)))|].
  split; [apply (type_counts_keys (count_of_type (elements w)))|].
  split; [done|].
  rewrite <- (sum_over_types_total (elements w)).
  unfold sum_over_types, all_element_types. cbn [foldr].
  by rewrite !(type_counts_lookup (count_of_type (elements w))).
Qed.

Lemma statistics_by_type_witness :
  exists stats,
    get_statistics Sample.store "w1" = inr stats /\
    by_type stats !! "event" = Some 2 /\
    by_type stats !! "hotspot" = Some 0 /\
    total_elements stats = 3.
Proof.
  destruct (statistics_by_type Sample.store "w1" Sample.workshop eq_refl)
    as (stats & Hrun & Hcount & _ & Htotal & _).
  exists stats. split; [exact Hrun|].
  split; [exact (Hcount EVENT)|]. split; [exact (Hcount HOTSPOT) | exact Htotal].
Defined.

(** X20. In the statistics, the elements counted as assigned to a context and
    those counted as without one are all the elements; an element counts as
    assigned when its [bounded_context_id] is a non-empty string. The number
    of trigger links is the sum of the lengths of the [triggers] lists, and
    it is at least the number of elements that have triggers. *)
Theorem statistics_coverage_and_links (store : gmap string Workshop)
    (workshop_id : string) (w : Workshop) :
  store !! workshop_id = Some w ->
  exists stats,
    get_statistics store workshop_id = inr stats /\
    elements_in_contexts stats
    = len (filter (fun e => truthy (bounded_context_id e) = true) (elements w)) /\
    elements_in_contexts stats + elements_without_context stats = total_elements stats /\
    elements_with_triggers stats = len (filter (fun e => triggers e <> []) (elements w)) /\
    elements_with_triggered_by stats
    = len (filter (fun e => triggered_by e <> []) (elements w)) /\
    total_trigger_links stats = total_links (elements w) /\
    0 <= elements_with_triggers stats <= total_trigger_links stats.
Proof.
  intros Hload. unfold get_statistics. rewrite (load_workshop_Some _ _ _ Hload).
  unfold count_relationships, count_coverage.
  rewrite count_relationships_spec, count_coverage_spec.
  eexists. split; [reflexivity|].
  cbn [elements_in_contexts elements_without_context total_elements
       elements_with_triggers elements_with_triggered_by total_trigger_links].
  rewrite !Z.add_0_l. split; [done|].
  split; [apply (filter_split_len (fun e => truthy (bounded_context_id e)))|].
  split; [done|]. split; [done|]. split; [done|].
  unfold len. induction (elements w) as [|e l IH]; [done|].
  rewrite filter_cons. cbn [total_links foldr]. fold (total_links l).
  destruct (triggers e) as [|t ts]; case_decide; try done;
    unfold len; cbn [length]; lia.
Qed.

Lemma statistics_coverage_and_links_witness :
  exists stats,
    get_statistics Sample.store "w1" = inr stats /\
    elements_in_contexts stats + elements_without_context stats = total_elements stats /\
    total_trigger_links stats = 2.
Proof.
  destruct (statistics_coverage_and_links Sample.store "w1" Sample.workshop eq_refl)
    as (stats & Hrun & _ & Hcov & _ & _ & Hlinks & _).
  exists stats. split; [exact Hrun|]. split; [exact Hcov | exact Hlinks].
Defined.

(** ** create_workshop and create_bounded_context *)

(** X7. After [create_workshop], a load of the new id returns a workshop
    with the name given, no element and no context, created at the time the
    tool read and updated at the time of the save, whatever was stored under
    that id before; its statistics count nothing. *)
Theorem create_workshop_is_empty (store : gmap string Workshop)
    (workshop_id timestamp now : string) (params : CreateWorkshopInput) :
  let result := create_workshop store workshop_id timestamp now params in
  cwr_workshop_id result.1 = workshop_id /\
  exists w stats,
    load_workshop result.2 workshop_id = inr w /\
    elements w = [] /\ bounded_contexts w = [] /\
    md_id (metadata w) = workshop_id /\
    md_name (metadata w) = cw_name params /\
    md_created_at (metadata w) = timestamp /\
    md_updated_at (metadata w) = now /\
    get_statistics result.2 workshop_id = inr stats /\
    total_elements stats = 0 /\ total_bounded_contexts stats = 0 /\
    by_context stats = ∅ /\
    (forall t, by_type stats !! type_value t = Some 0) /\
    total_trigger_links stats = 0 /\
    elements_in_contexts stats = 0 /\ elements_without_context stats = 0.
Proof.
  intros result. split; [done|].
  unfold result, create_workshop, get_statistics, load_workshop, save_workshop.
  cbn [fst snd metadata md_id set_md_updated_at]. rewrite lookup_insert_eq.
  eexists _, _. split; [reflexivity|]. cbn.
  repeat (split; [reflexivity|]).
  split; [|done]. intros t. by destruct t.
Qed.

Lemma next_match_app {A} (p : A -> bool) (l1 l2 : list A) :
  next_match p (l1 ++ l2)
  = match next_match p l1 with Some x => Some x | None => next_match p l2 end.
Proof.
  unfold next_match. induction l1 as [|x l1 IH]; [done|].
  simpl. by destruct (p x).
Qed.

(** X8. [create_bounded_context] leaves the elements and the contexts that
    exist alone and appends a context with the id and the name given and no
    element id. The new context is the one found under its id when the id
    was not in use. The statistics then show 0 under its name, also when
    contexts of the same name had elements. A workshop that was well formed
    still is. *)
Theorem create_bounded_context_appends (store : gmap string Workshop)
    (context_id now : string) (params : CreateBoundedContextInput) (w : Workshop) :
  store !! cb_workshop_id params = Some w ->
  exists resp w' ctx,
    create_bounded_context store context_id now params
    = (inr resp, save_workshop store now w') /\
    cbr_context_id resp = context_id /\
    elements w' = elements w /\
    bounded_contexts w' = bounded_contexts w ++ [ctx] /\
    ctx_id ctx = context_id /\ ctx_name ctx = cb_name params /\ element_ids ctx = [] /\
    (find_context w context_id = None -> find_context w' context_id = Some ctx) /\
    count_by_context w' !! cb_name params = Some 0 /\
    (well_formed w -> well_formed w').
Proof.
  intros Hload. unfold create_bounded_context.
  rewrite (load_workshop_Some _ _ _ Hload).
  eexists _, _, _. split; [reflexivity|]. cbn.
  repeat (split; [reflexivity|]). split; [|split].
  - unfold find_context. cbn. intros Hnone.
    rewrite next_match_app, Hnone. unfold next_match. cbn.
    by rewrite String.eqb_refl.
  - unfold count_by_context. cbn. rewrite foldl_app. cbn.
    by rewrite lookup_insert_eq.
  - intros [Hnd Hctx]. split; [done|]. cbn. intros c [Hc|Hc]%elem_of_app.
    + by apply Hctx.
    + apply list_elem_of_singleton in Hc as ->. cbn. split; [constructor|].
      intros i Hi. by apply elem_of_nil in Hi.
Qed.

Lemma create_bounded_context_appends_witness :
  exists resp w' ctx,
    create_bounded_context Sample.homonym_store "ctx3" "t9"
      (mkCreateBoundedContextInput "w1" "Sales" None None)
    = (inr resp, save_workshop Sample.homonym_store "t9" w') /\
    bounded_contexts w' = bounded_contexts Sample.homonyms ++ [ctx] /\
    count_by_context Sample.homonyms !! "Sales" = Some 1 /\
    count_by_context w' !! "Sales" = Some 0.
Proof.
  destruct (create_bounded_context_appends Sample.homonym_store "ctx3" "t9"
              (mkCreateBoundedContextInput "w1" "Sales" None None)
              Sample.homonyms eq_refl)
    as (resp & w' & ctx & Hrun & _ & _ & Hctx & _ & _ & _ & _ & Hcount & _).
  exists resp, w', ctx. split; [exact Hrun|]. split; [exact Hctx|].
  split; [reflexivity | exact Hcount].
Defined.

(** ** More on in-place updates *)

Lemma update_first_pred_ext {A} (p q : A -> bool) (f : A -> A) (l : list A) :
  (forall a, p a = q a) -> update_first p f l = update_first q f l.
Proof.
  intros H. induction l as [|a l IH]; simpl; [done|].
  rewrite <- H. destruct (p a); [done | by rewrite IH].
Qed.

Lemma update_first_none {A} (p : A -> bool) (f : A -> A) (l : list A) :
  (forall a, a ∈ l -> p a = false) -> update_first p f l = l.
Proof.
  induction l as [|a l IH]; intros H; simpl; [done|].
  rewrite (H a) by apply list_elem_of_here.
  rewrite IH; [done|]. intros b Hb. apply H. by apply list_elem_of_further.
Qed.

Lemma map_update_first_absorb {A B} (g : A -> B) (p : A -> bool) (f : A -> A)
    (l : list A) :
  (forall a, g (f a) = g a) -> map g (update_first p f l) = map g l.
Proof.
  intros H. induction l as [|a l IH]; simpl; [done|].
  destruct (p a); simpl; [by rewrite H | by rewrite IH].
Qed.

Lemma elem_of_update_first {A} (p : A -> bool) (f : A -> A) (l : list A) (b : A) :
  b ∈ update_first p f l -> b ∈ l \/ exists a, a ∈ l /\ b = f a.
Proof.
  induction l as [|a l IH]; simpl; [by left|].
  destruct (p a).
  - intros [->|Hb]%elem_of_cons.
    + right. exists a. split; [apply list_elem_of_here | done].
    + left. by apply list_elem_of_further.
  - intros [->|Hb]%elem_of_cons; [left; apply list_elem_of_here|].
    destruct (IH Hb) as [?|(a' & ? & ?)].
    + left. by apply list_elem_of_further.
    + right. exists a'. split; [by apply list_elem_of_further | done].
Qed.

Lemma filter_all {A} (P : A -> Prop) `{forall x, Decision (P x)} (l : list A) :
  (forall x, x ∈ l -> P x) -> filter P l = l.
Proof.
  induction l as [|x l IH]; intros Hl; [done|].
  rewrite filter_cons, decide_True by (apply Hl, list_elem_of_here).
  rewrite IH; [done|]. intros y Hy. by apply Hl, list_elem_of_further.
Qed.

Lemma without_absent (x : string) (l : list string) : x ∉ l -> without x l = l.
Proof.
  intros Hx. apply filter_all. intros y Hy ->. done.
Qed.

Lemma without_append_if_absent (x : string) (l : list string) :
  without x (append_if_absent x l) = without x l.
Proof.
  unfold append_if_absent, without. case_bool_decide; [done|].
  rewrite filter_app, filter_cons, decide_False by (intros H'; by apply H').
  by rewrite filter_nil, app_nil_r.
Qed.

Lemma NoDup_append_if_absent (x : string) (l : list string) :
  NoDup l -> NoDup (append_if_absent x l).
Proof.
  intros Hl. unfold append_if_absent. case_bool_decide as Hx; [done|].
  apply NoDup_app. split; [done|]. split; [|apply NoDup_singleton].
  intros y Hy ->%list_elem_of_singleton. done.
Qed.

Lemma elem_of_append_if_absent (x y : string) (l : list string) :
  y ∈ append_if_absent x l <-> y = x \/ y ∈ l.
Proof.
  unfold append_if_absent. case_bool_decide as Hx.
  - split; [by right | intros [->|?]; done].
  - rewrite elem_of_app, list_elem_of_singleton. tauto.
Qed.

Lemma set_links_same (e : EventStormingElement) :
  set_links e (triggers e) (triggered_by e) = e.
Proof. by destruct e. Qed.

Lemma find_element_None (w : Workshop) (x : string) :
  find_element w x = None <-> x ∉ map el_id (elements w).
Proof. apply (next_match_None el_id). Qed.

Lemma find_element_Some (w : Workshop) (x : string) (e : EventStormingElement) :
  find_element w x = Some e -> e ∈ elements w /\ el_id e = x.
Proof. apply (next_match_Some el_id). Qed.

Lemma find_context_None (w : Workshop) (x : string) :
  find_context w x = None <-> x ∉ map ctx_id (bounded_contexts w).
Proof. apply (next_match_None ctx_id). Qed.

Lemma elem_of_map_el_id (l : list EventStormingElement) (x : string) :
  x ∈ map el_id l <-> exists e, e ∈ l /\ el_id e = x.
Proof.
  rewrite list_elem_of_fmap. split; intros (e & ? & ?); exists e; by split.
Qed.

(** ** add_element and delete_element *)

(** X9. [add_element] appends one element that carries the id, the
    timestamp and the fields given, and changes no other element. With an id
    not in use it is the element found under the id. When its
    [bounded_context_id] is the id of a context, the element id is added to
    the list of the first context of that id, unless it is there already, and
    the other contexts are as before; when it is empty or names no context,
    no context changes, and the element keeps the reference all the same. *)
Theorem add_element_appends (store : gmap string Workshop)
    (element_id timestamp now : string) (params : AddElementInput) (w : Workshop) :
  store !! ae_workshop_id params = Some w ->
  exists resp w' element,
    add_element store element_id timestamp now params
    = (inr resp, save_workshop store now w') /\
    ar_element_id resp = element_id /\
    elements w' = elements w ++ [element] /\
    el_id element = element_id /\ el_type element = ae_type params /\
    el_name element = ae_name params /\
    created_at element = timestamp /\ updated_at element = timestamp /\
    triggers element = ae_triggers params /\
    triggered_by element = ae_triggered_by params /\
    bounded_context_id element = ae_bounded_context_id params /\
    (find_element w element_id = None -> find_element w' element_id = Some element) /\
    (forall b ctx,
       ae_bounded_context_id params = Some b -> b <> "" ->
       find_context w b = Some ctx ->
       find_context w' b
       = Some (set_element_ids ctx (append_if_absent element_id (element_ids ctx))) /\
       forall k, k <> b -> find_context w' k = find_context w k) /\
    (truthy (ae_bounded_context_id params) = false \/
     (exists b, ae_bounded_context_id params = Some b /\ find_context w b = None) ->
     bounded_contexts w' = bounded_contexts w).
Proof.
  intros Hload. unfold add_element. rewrite (load_workshop_Some _ _ _ Hload).
  eexists _, _, _. split; [reflexivity|]. cbn.
  repeat (split; [reflexivity|]). split; [|split].
  - intros Hnone. unfold find_element in *. cbn.
    rewrite next_match_app, Hnone. unfold next_match. cbn.
    by rewrite String.eqb_refl.
  - intros b ctx Hb Hne Hctx. rewrite Hb. cbn.
    rewrite (proj2 (String.eqb_neq b "")) by done. cbn.
    rewrite (update_first_pred_ext _ (fun c => String.eqb (ctx_id c) b)).
    + unfold find_context in *. cbn. split.
      * rewrite (find_update_first ctx_id) by done.
        rewrite decide_True by done. by rewrite Hctx.
      * intros k Hk. rewrite (find_update_first ctx_id) by done.
        by rewrite decide_False.
    + intros c. destruct (String.eqb_spec (ctx_id c) b) as [->|Hc].
      * by rewrite bool_decide_eq_true_2.
      * rewrite bool_decide_eq_false_2; [done|]. by intros [= ?].
  - intros [Hfalsy|(b & Hb & Hnone)]; [by rewrite Hfalsy|].
    destruct (truthy _); [|done]. apply update_first_none.
    intros c Hc. rewrite Hb. apply bool_decide_eq_false_2. intros [= Hid].
    apply find_context_None in Hnone. apply Hnone.
    apply list_elem_of_fmap. by exists c.
Qed.

Lemma add_element_appends_witness :
  exists resp w' element,
    add_element Sample.store "D" "t8" "t9"
      (mkAddElementInput "w1" EVENT "Order Shipped" None None None [] ["C"] (Some "ctx1"))
    = (inr resp, save_workshop Sample.store "t9" w') /\
    find_element w' "D" = Some element /\
    find_context w' "ctx1"
    = Some (set_element_ids Sample.ordering ["B"; "C"; "D"]).
Proof.
  destruct (add_element_appends Sample.store "D" "t8" "t9"
              (mkAddElementInput "w1" EVENT "Order Shipped" None None None [] ["C"]
                                 (Some "ctx1"))
              Sample.workshop eq_refl)
    as (resp & w' & element & Hrun & _ & _ & _ & _ & _ & _ & _ & _ & _ & _ &
        Hfind & Hctx & _).
  exists resp, w', element. split; [exact Hrun|]. split; [exact (Hfind eq_refl)|].
  exact (proj1 (Hctx "ctx1" Sample.ordering eq_refl ltac:(discriminate) eq_refl)).
Defined.

(** X15. [add_element] with an id that no element has keeps a well-formed
    workshop well formed. *)
Theorem add_element_well_formed (store : gmap string Workshop)
    (element_id timestamp now : string) (params : AddElementInput) (w : Workshop) :
  store !! ae_workshop_id params = Some w ->
  well_formed w ->
  element_id ∉ map el_id (elements w) ->
  exists resp w',
    add_element store element_id timestamp now params
    = (inr resp, save_workshop store now w') /\
    well_formed w'.
Proof.
  intros Hload [Hnd Hctx] Hfresh. unfold add_element.
  rewrite (load_workshop_Some _ _ _ Hload).
  eexists _, _. split; [reflexivity|]. split; cbn.
  - rewrite map_app. cbn. apply NoDup_app. split; [done|].
    split; [|apply NoDup_singleton].
    intros i Hi ->%list_elem_of_singleton. done.
  - intros c Hc. rewrite map_app.
    assert (c ∈ bounded_contexts w \/
            exists a, a ∈ bounded_contexts w /\
                      c = set_element_ids a (append_if_absent element_id (element_ids a)))
      as [Hold|(a & Ha & ->)].
    { destruct (truthy _); [by apply elem_of_update_first in Hc | by left]. }
    + destruct (Hctx c Hold) as [Hndc Hclosed]. split; [done|].
      intros i Hi. apply elem_of_app. left. by apply Hclosed.
    + destruct (Hctx a Ha) as [Hndc Hclosed]. cbn. split.
      * by apply NoDup_append_if_absent.
      * intros i [->|Hi]%elem_of_append_if_absent; apply elem_of_app.
        -- right. apply list_elem_of_here.
        -- left. by apply Hclosed.
Qed.

Lemma sample_well_formed : well_formed Sample.workshop.
Proof.
  split.
  - cbn. by apply (bool_decide_unpack _).
  - intros c Hc. cbn in Hc.
    apply elem_of_cons in Hc as [->|Hc];
      [|apply list_elem_of_singleton in Hc as ->]; cbn;
      (split; [by apply (bool_decide_unpack _)|]);
      intros i Hi;
      repeat (apply elem_of_cons in Hi as [->|Hi]; [by apply (bool_decide_unpack _)|]);
      by apply elem_of_nil in Hi.
Qed.

Lemma add_element_well_formed_witness :
  exists resp w',
    add_element Sample.store "D" "t8" "t9"
      (mkAddElementInput "w1" EVENT "Order Shipped" None None None [] ["C"] (Some "ctx1"))
    = (inr resp, save_workshop Sample.store "t9" w') /\
    well_formed w'.
Proof.
  apply (add_element_well_formed Sample.store "D" "t8" "t9"
           (mkAddElementInput "w1" EVENT "Order Shipped" None None None [] ["C"]
                              (Some "ctx1"))
           Sample.workshop eq_refl sample_well_formed).
  cbn. by apply (bool_decide_unpack _).
Defined.

(** The elements and contexts that [delete_element] saves. *)
Lemma delete_element_run (store : gmap string Workshop) (now : string)
    (params : DeleteElementInput) (w : Workshop) (e : EventStormingElement) :
  store !! de_workshop_id params = Some w ->
  find_element w (de_element_id params) = Some e ->
  exists resp w',
    delete_element store now params = (inr resp, save_workshop store now w') /\
    dr_name resp = el_name e /\
    metadata w' = metadata w /\
    elements w'
    = map (fun a => set_links a (without (de_element_id params) (triggers a))
                              (without (de_element_id params) (triggered_by a)))
          (filter (fun a => el_id a <> de_element_id params) (elements w)) /\
    bounded_contexts w'
    = map (fun c => set_element_ids c (without (de_element_id params) (element_ids c)))
          (bounded_contexts w).
Proof.
  intros Hload Hfind. unfold delete_element.
  rewrite (load_workshop_Some _ _ _ Hload), Hfind.
  eexists _, _. by repeat split.
Qed.

Lemma deleted_ids (x : string) (l : list EventStormingElement) :
  map el_id (map (fun a => set_links a (without x (triggers a))
                                       (without x (triggered_by a)))
                 (filter (fun a => el_id a <> x) l))
  = without x (map el_id l).
Proof.
  unfold without. induction l as [|a l IH]; [done|].
  simpl. rewrite !filter_cons.
  destruct (decide (el_id a <> x)); simpl; by rewrite IH.
Qed.

(** X10. Adding an element under an id that the workshop does not use, and
    then deleting that id, gives back the elements and the contexts of the
    workshop as they were before the two calls. *)
Theorem add_then_delete (store : gmap string Workshop)
    (element_id timestamp now1 now2 : string) (params : AddElementInput)
    (w : Workshop) :
  store !! ae_workshop_id params = Some w ->
  md_id (metadata w) = ae_workshop_id params ->
  unused_id w element_id ->
  let store1 := (add_element store element_id timestamp now1 params).2 in
  exists resp w2,
    delete_element store1 now2 (mkDeleteElementInput (ae_workshop_id params) element_id)
    = (inr resp, save_workshop store1 now2 w2) /\
    dr_name resp = ae_name params /\
    elements w2 = elements w /\
    bounded_contexts w2 = bounded_contexts w.
Proof.
  intros Hload Hmd [Hel Hctx] store1.
  assert (exists w1 e,
            store1 !! ae_workshop_id params = Some w1 /\
            elements w1 = elements w ++ [e] /\ el_id e = element_id /\
            el_name e = ae_name params /\
            map (fun c => set_element_ids c (without element_id (element_ids c)))
                (bounded_contexts w1)
            = map (fun c => set_element_ids c (without element_id (element_ids c)))
                  (bounded_contexts w)) as (w1 & e & Hw1 & Hels & Hid & Hname & Hcs).
  { unfold store1, add_element. rewrite (load_workshop_Some _ _ _ Hload).
    unfold save_workshop. cbn. rewrite Hmd, lookup_insert_eq.
    eexists _, _. split; [reflexivity|]. cbn. repeat (split; [reflexivity|]).
    destruct (truthy _); [|done]. apply map_update_first_absorb.
    intros c. unfold set_element_ids.
    cbn [ctx_id ctx_name ctx_description element_ids ctx_color].
    by rewrite without_append_if_absent. }
  assert (element_id ∉ map el_id (elements w)) as Hfresh.
  { intros (a & Ha & Hida)%elem_of_map_el_id. by destruct (Hel a Ha) as [? _]. }
  assert (find_element w1 element_id = Some e) as Hfind.
  { unfold find_element. rewrite Hels, next_match_app.
    apply find_element_None in Hfresh. unfold find_element in Hfresh.
    rewrite Hfresh. unfold next_match. cbn. rewrite Hid.
    by rewrite String.eqb_refl. }
  destruct (delete_element_run store1 now2
              (mkDeleteElementInput (ae_workshop_id params) element_id) w1 e Hw1 Hfind)
    as (resp & w2 & Hrun & Hrname & _ & Hels2 & Hcs2).
  exists resp, w2. split; [exact Hrun|]. split; [by rewrite Hrname|].
  cbn [de_element_id] in Hels2, Hcs2. split.
  - rewrite Hels2, Hels, filter_app, filter_cons, decide_False, filter_nil, app_nil_r
      by (intros H; by apply H).
    rewrite filter_all by (intros a Ha; by destruct (Hel a Ha) as [? _]).
    rewrite <- (map_id (elements w)) at 2. apply map_ext_in.
    intros a Ha%list_elem_of_In. destruct (Hel a Ha) as (_ & Ht & Htb).
    rewrite !without_absent by done. apply set_links_same.
  - rewrite Hcs2, Hcs. rewrite <- (map_id (bounded_contexts w)) at 2.
    apply map_ext_in. intros c Hc%list_elem_of_In.
    rewrite without_absent by (by apply Hctx). apply set_element_ids_same.
Qed.

Lemma sample_unused_D : unused_id Sample.workshop "D".
Proof.
  split.
  - intros e He. cbn in He.
    repeat (apply elem_of_cons in He as [->|He];
            [cbn; split; [discriminate|];
             split; by apply (bool_decide_unpack _)|]).
    by apply elem_of_nil in He.
  - intros c Hc. cbn in Hc.
    repeat (apply elem_of_cons in Hc as [->|Hc]; [by apply (bool_decide_unpack _)|]).
    by apply elem_of_nil in Hc.
Qed.

Lemma add_then_delete_witness :
  let store1 :=
    (add_element Sample.store "D" "t7" "t8"
       (mkAddElementInput "w1" EVENT "Order Shipped" None None None ["A"] ["C"]
                          (Some "ctx1"))).2 in
  exists resp w2,
    delete_element store1 "t9" (mkDeleteElementInput "w1" "D")
    = (inr resp, save_workshop store1 "t9" w2) /\
    elements w2 = elements Sample.workshop /\
    bounded_contexts w2 = bounded_contexts Sample.workshop.
Proof.
  destruct (add_then_delete Sample.store "D" "t7" "t8" "t9"
              (mkAddElementInput "w1" EVENT "Order Shipped" None None None ["A"] ["C"]
                                 (Some "ctx1"))
              Sample.workshop eq_refl eq_refl sample_unused_D)
    as (resp & w2 & Hrun & _ & Hels & Hcs).
  exists resp, w2. split; [exact Hrun|]. split; [exact Hels | exact Hcs].
Defined.

(** X13. A second [delete_element] with the parameters of a first is
    answered with the not-found error and writes nothing, whether the first
    one deleted the element or failed. *)
Theorem delete_element_twice (store : gmap string Workshop) (now1 now2 : string)
    (params : DeleteElementInput) (w : Workshop) :
  store !! de_workshop_id params = Some w ->
  md_id (metadata w) = de_workshop_id params ->
  let store1 := (delete_element store now1 params).2 in
  delete_element store1 now2 params
  = (inl (ElementNotFound (de_element_id params)), store1).
Proof.
  intros Hload Hmd store1.
  destruct (find_element w (de_element_id params)) as [e|] eqn:Hfind.
  - destruct (delete_element_run store now1 params w e Hload Hfind)
      as (resp & w1 & Hrun & _ & Hmd1 & Hels & _).
    unfold store1. rewrite Hrun. cbn [snd].
    unfold delete_element at 1, load_workshop, save_workshop. cbn.
    rewrite Hmd1, Hmd, lookup_insert_eq.
    assert (find_element
              (mkWorkshop (set_md_updated_at (metadata w) now1) (elements w1)
                          (bounded_contexts w1)) (de_element_id params) = None) as ->.
    { apply find_element_None. cbn. rewrite Hels, deleted_ids.
      by intros [_ ?]%elem_of_without. }
    done.
  - assert (forall now, delete_element store now params
                        = (inl (ElementNotFound (de_element_id params)), store)) as Hrun.
    { intros now. unfold delete_element.
      by rewrite (load_workshop_Some _ _ _ Hload), Hfind. }
    unfold store1. rewrite (Hrun now1). cbn [snd]. apply Hrun.
Qed.

Lemma delete_element_twice_witness :
  let store1 := (delete_element Sample.store "t8" (mkDeleteElementInput "w1" "B")).2 in
  delete_element store1 "t9" (mkDeleteElementInput "w1" "B")
  = (inl (ElementNotFound "B"), store1).
Proof.
  exact (delete_element_twice Sample.store "t8" "t9" (mkDeleteElementInput "w1" "B")
           Sample.workshop eq_refl eq_refl).
Defined.

(** X17. [delete_element] keeps a well-formed workshop well formed. *)
Theorem delete_element_well_formed (store : gmap string Workshop) (now : string)
    (params : DeleteElementInput) (w : Workshop) (e : EventStormingElement) :
  store !! de_workshop_id params = Some w ->
  find_element w (de_element_id params) = Some e ->
  well_formed w ->
  exists resp w',
    delete_element store now params = (inr resp, save_workshop store now w') /\
    well_formed w'.
Proof.
  intros Hload Hfind [Hnd Hctx].
  destruct (delete_element_run store now params w e Hload Hfind)
    as (resp & w' & Hrun & _ & _ & Hels & Hcs).
  exists resp, w'. split; [exact Hrun|]. split.
  - rewrite Hels, deleted_ids. by apply NoDup_filter.
  - rewrite Hels, deleted_ids, Hcs.
    intros c' (c & -> & Hc)%list_elem_of_fmap. cbn.
    destruct (Hctx c Hc) as [Hndc Hclosed]. split; [by apply NoDup_filter|].
    intros i [Hi Hne]%elem_of_without. apply elem_of_without. split; [|done].
    by apply Hclosed.
Qed.

Lemma delete_element_well_formed_witness :
  exists resp w',
    delete_element Sample.store "t9" (mkDeleteElementInput "w1" "B")
    = (inr resp, save_workshop Sample.store "t9" w') /\
    well_formed w'.
Proof.
  exact (delete_element_well_formed Sample.store "t9" (mkDeleteElementInput "w1" "B")
           Sample.workshop Sample.order_placed eq_refl eq_refl sample_well_formed).
Defined.

(** ** update_element *)

Lemma elem_of_remove_first_ne (x y : string) (l : list string) :
  y <> x -> y ∈ remove_first x l <-> y ∈ l.
Proof.
  intros Hne. induction l as [|z l IH]; simpl; [done|].
  destruct (String.eqb_spec z x) as [->|Hz].
  - rewrite elem_of_cons. split; [by right | intros [?|?]; done].
  - by rewrite !elem_of_cons, IH.
Qed.

Lemma elem_of_remove_first (x y : string) (l : list string) :
  y ∈ remove_first x l -> y ∈ l.
Proof.
  induction l as [|z l IH]; simpl; [done|].
  destruct (String.eqb_spec z x) as [->|Hz].
  - intros ?. by apply list_elem_of_further.
  - intros [->|?]%elem_of_cons; [apply list_elem_of_here|].
    apply list_elem_of_further. by apply IH.
Qed.

Lemma NoDup_remove_first (x : string) (l : list string) :
  NoDup l -> NoDup (remove_first x l) /\ x ∉ remove_first x l.
Proof.
  induction 1 as [|z l Hz Hnd IH]; simpl; [split; [constructor | apply not_elem_of_nil]|].
  destruct (String.eqb_spec z x) as [->|Hne]; [done|].
  destruct IH as [IH1 IH2]. split.
  - constructor; [|done]. intros H. apply Hz. by eapply elem_of_remove_first.
  - intros [?|?]%elem_of_cons; [congruence | done].
Qed.

(** The elements and contexts that [update_element] saves. *)
Lemma update_element_run (store : gmap string Workshop) (timestamp now : string)
    (params : UpdateElementInput) (w : Workshop) (e : EventStormingElement) :
  store !! ue_workshop_id params = Some w ->
  find_element w (ue_element_id params) = Some e ->
  let new_context :=
    match ue_bounded_context_id params with
    | Some b => if String.eqb b "null" then None else Some b
    | None => bounded_context_id e
    end in
  let e' :=
    set_updated_at (set_bounded_context_id (apply_patch params e).1 new_context)
                   timestamp in
  exists resp w',
    update_element store timestamp now params = (inr resp, save_workshop store now w') /\
    ur_element_id resp = ue_element_id params /\
    updated_fields resp
    = (apply_patch params e).2
      ++ (if ue_bounded_context_id params is Some _ then ["bounded_context_id"] else []) /\
    metadata w' = metadata w /\
    elements w' = update_first (has_id (ue_element_id params)) (fun _ => e') (elements w) /\
    bounded_contexts w'
    = (if ue_bounded_context_id params is Some _
       then map (move_membership (ue_element_id params) (bounded_context_id e) new_context)
                (bounded_contexts w)
       else bounded_contexts w).
Proof.
  intros Hload Hfind new_context e'. unfold update_element.
  rewrite (load_workshop_Some _ _ _ Hload), Hfind.
  destruct (find_element_Some _ _ _ Hfind) as [_ Hid].
  subst e' new_context. unfold apply_patch.
  destruct (ue_bounded_context_id params) as [b|];
    eexists _, _; (split; [reflexivity|]); cbn; rewrite ?app_nil_r, ?Hid;
    repeat split; try done.
Qed.

Lemma find_element_replaced (w : Workshop) (x : string) (e e' : EventStormingElement)
    (l : list EventStormingElement) :
  find_element w x = Some e -> el_id e' = x ->
  l = update_first (has_id x) (fun _ => e') (elements w) ->
  next_match (fun a => String.eqb (el_id a) x) l = Some e' /\
  (forall y, y <> x ->
     next_match (fun a => String.eqb (el_id a) y) l = find_element w y) /\
  map el_id l = map el_id (elements w).
Proof.
  intros Hfind Hid ->. unfold find_element in *. unfold has_id.
  split; [|split].
  - rewrite (find_update_first el_id) by done.
    rewrite decide_True by done. by rewrite Hfind.
  - intros y Hy. rewrite (find_update_first el_id) by done.
    by rewrite decide_False.
  - by apply (update_first_keys el_id).
Qed.

(** X11. [update_element] on an existing element gives the supplied fields
    their new values and leaves the others, stamps [updated_at], and never
    changes the id, the type, the creation time or the creator. The
    sentinel string null as [bounded_context_id] clears the assignment. No
    other element changes, so the [triggered_by] of the peers is not adjusted
    to new [triggers]. The list of updated fields names exactly the supplied
    fields. *)
Theorem update_element_patches (store : gmap string Workshop) (timestamp now : string)
    (params : UpdateElementInput) (w : Workshop) (e : EventStormingElement) :
  store !! ue_workshop_id params = Some w ->
  find_element w (ue_element_id params) = Some e ->
  exists resp w' e',
    update_element store timestamp now params = (inr resp, save_workshop store now w') /\
    find_element w' (ue_element_id params) = Some e' /\
    (el_id e' = el_id e /\ el_type e' = el_type e /\
     created_at e' = created_at e /\ created_by e' = created_by e /\
     updated_at e' = timestamp) /\
    (el_name e' = default (el_name e) (ue_name params) /\
     position e' = default (position e) (ue_position params) /\
     notes e' = (if ue_notes params is Some n then Some n else notes e) /\
     triggers e' = default (triggers e) (ue_triggers params) /\
     triggered_by e' = default (triggered_by e) (ue_triggered_by params) /\
     bounded_context_id e'
     = match ue_bounded_context_id params with
       | Some b => if String.eqb b "null" then None else Some b
       | None => bounded_context_id e
       end) /\
    (forall x, x <> ue_element_id params -> find_element w' x = find_element w x) /\
    map el_id (elements w') = map el_id (elements w) /\
    (("name" ∈ updated_fields resp <-> is_Some (ue_name params)) /\
     ("position" ∈ updated_fields resp <-> is_Some (ue_position params)) /\
     ("notes" ∈ updated_fields resp <-> is_Some (ue_notes params)) /\
     ("triggers" ∈ updated_fields resp <-> is_Some (ue_triggers params)) /\
     ("triggered_by" ∈ updated_fields resp <-> is_Some (ue_triggered_by params)) /\
     ("bounded_context_id" ∈ updated_fields resp
      <-> is_Some (ue_bounded_context_id params))).
Proof.
  intros Hload Hfind.
  destruct (update_element_run store timestamp now params w e Hload Hfind)
    as (resp & w' & Hrun & _ & Hfields & _ & Hels & _).
  destruct (find_element_Some _ _ _ Hfind) as [_ Hid].
  match type of Hels with
  | _ = update_first _ (fun _ => ?e1) _ => set (e' := e1) in *
  end.
  exists resp, w', e'. split; [exact Hrun|].
  destruct (find_element_replaced w (ue_element_id params) e e' (elements w') Hfind
              Hid Hels) as (Hnew & Hother & Hids).
  split; [exact Hnew|]. split; [done|]. split; [done|].
  split; [exact Hother|]. split; [exact Hids|].
  rewrite Hfields. unfold apply_patch. cbn [snd].
  rewrite !elem_of_app.
  destruct (ue_name params), (ue_position params), (ue_notes params),
    (ue_triggers params), (ue_triggered_by params), (ue_bounded_context_id params);
    rewrite ?elem_of_nil, ?list_elem_of_singleton, ?is_Some_alt;
    repeat split; intros; (done || intuition discriminate).
Qed.

Lemma update_element_patches_witness :
  exists resp w' e',
    update_element Sample.store "t8" "t9"
      (mkUpdateElementInput "w1" "B" (Some "Order Accepted") None None (Some []) None
                            (Some "null"))
    = (inr resp, save_workshop Sample.store "t9" w') /\
    find_element w' "B" = Some e' /\
    el_name e' = "Order Accepted" /\ position e' = 0 /\ triggers e' = [] /\
    bounded_context_id e' = None /\
    find_element w' "C" = Some Sample.payment_taken.
Proof.
  destruct (update_element_patches Sample.store "t8" "t9"
              (mkUpdateElementInput "w1" "B" (Some "Order Accepted") None None (Some [])
                                    None (Some "null"))
              Sample.workshop Sample.order_placed eq_refl eq_refl)
    as (resp & w' & e' & Hrun & Hfind & _ & (Hn & Hp & _ & Ht & _ & Hb) & Hother & _).
  exists resp, w', e'. split; [exact Hrun|]. split; [exact Hfind|].
  split; [exact Hn|]. split; [exact Hp|]. split; [exact Ht|]. split; [exact Hb|].
  exact (Hother "C" ltac:(discriminate)).
Defined.

Lemma move_membership_spec (x : string) (old new : option string) (c : BoundedContext) :
  let c' := move_membership x old new c in
  ctx_id c' = ctx_id c /\ ctx_name c' = ctx_name c /\
  (Some (ctx_id c) = new -> x ∈ element_ids c') /\
  (Some (ctx_id c) = old -> old <> new -> NoDup (element_ids c) -> x ∉ element_ids c') /\
  (Some (ctx_id c) <> old -> Some (ctx_id c) <> new -> c' = c) /\
  (forall y, y <> x -> y ∈ element_ids c' <-> y ∈ element_ids c) /\
  (NoDup (element_ids c) -> NoDup (element_ids c')) /\
  (forall y, y ∈ element_ids c' -> y = x \/ y ∈ element_ids c).
Proof.
  intros c'. subst c'. unfold move_membership.
  set (ids1 := if _ && _ then remove_first x (element_ids c) else element_ids c).
  assert ((forall y, y <> x -> y ∈ ids1 <-> y ∈ element_ids c) /\
          (forall y, y ∈ ids1 -> y ∈ element_ids c) /\
          (NoDup (element_ids c) -> NoDup ids1) /\
          (Some (ctx_id c) = old -> NoDup (element_ids c) -> x ∉ ids1) /\
          (Some (ctx_id c) <> old -> ids1 = element_ids c))
    as (Hne1 & Hin1 & Hnd1 & Hgone & Hsame1).
  { unfold ids1. case_bool_decide as Hold; case_bool_decide as Hin; cbn [andb].
    - split; [intros y Hy; by apply elem_of_remove_first_ne|].
      split; [intros y; apply elem_of_remove_first|].
      split; [intros Hnd; by apply NoDup_remove_first|].
      split; [intros _ Hnd; by apply NoDup_remove_first | done].
    - by repeat split.
    - by repeat split.
    - by repeat split. }
  clearbody ids1. cbn [ctx_id ctx_name element_ids set_element_ids].
  split; [done|]. split; [done|].
  case_bool_decide as Hnew; cbn [andb]; [case_bool_decide as Hin1'; cbn [negb]|].
  - split; [done|]. split; [intros Ho Hon; congruence|]. split; [congruence|].
    split; [exact Hne1|]. split; [exact Hnd1|]. intros y Hy. right. by apply Hin1.
  - split; [intros _; apply elem_of_app; right; apply list_elem_of_here|].
    split; [intros Ho Hon; congruence|]. split; [congruence|].
    split; [|split].
    + intros y Hy. rewrite elem_of_app, list_elem_of_singleton, Hne1 by done. tauto.
    + intros Hnd. apply NoDup_app. split; [by apply Hnd1|].
      split; [|apply NoDup_singleton].
      intros y Hy ->%list_elem_of_singleton. done.
    + intros y [Hy|Hy%list_elem_of_singleton]%elem_of_app; [right; by apply Hin1 | by left].
  - split; [done|]. split; [intros Ho _ Hnd; by apply Hgone|].
    split; [intros Ho _; rewrite (Hsame1 Ho); apply set_element_ids_same|].
    split; [exact Hne1|]. split; [exact Hnd1|]. intros y Hy. right. by apply Hin1.
Qed.

(** X12. When [update_element] is given a [bounded_context_id], every
    context keeps its place, id and name, and the ids of the other elements.
    Every context that has the new id lists the element afterwards. A
    context that has the old id, when the new one differs and the list had no
    duplicate, no longer lists it. A context with neither id is unchanged. *)
Theorem update_element_moves_membership (store : gmap string Workshop)
    (timestamp now : string) (params : UpdateElementInput) (w : Workshop)
    (e : EventStormingElement) (b : string) :
  store !! ue_workshop_id params = Some w ->
  find_element w (ue_element_id params) = Some e ->
  ue_bounded_context_id params = Some b ->
  let old := bounded_context_id e in
  let new := if String.eqb b "null" then None else Some b in
  exists resp w',
    update_element store timestamp now params = (inr resp, save_workshop store now w') /\
    length (bounded_contexts w') = length (bounded_contexts w) /\
    forall i c, bounded_contexts w !! i = Some c ->
      exists c',
        bounded_contexts w' !! i = Some c' /\
        ctx_id c' = ctx_id c /\ ctx_name c' = ctx_name c /\
        (Some (ctx_id c) = new -> ue_element_id params ∈ element_ids c') /\
        (Some (ctx_id c) = old -> old <> new -> NoDup (element_ids c) ->
         ue_element_id params ∉ element_ids c') /\
        (Some (ctx_id c) <> old -> Some (ctx_id c) <> new -> c' = c) /\
        (forall y, y <> ue_element_id params ->
           y ∈ element_ids c' <-> y ∈ element_ids c).
Proof.
  intros Hload Hfind Hb old new.
  destruct (update_element_run store timestamp now params w e Hload Hfind)
    as (resp & w' & Hrun & _ & _ & _ & _ & Hcs).
  rewrite Hb in Hcs. fold old new in Hcs.
  exists resp, w'. split; [exact Hrun|]. rewrite Hcs.
  split; [apply length_map|].
  intros i c Hc. exists (move_membership (ue_element_id params) old new c).
  split; [by rewrite list_lookup_fmap, Hc|].
  destruct (move_membership_spec (ue_element_id params) old new c)
    as (H1 & H2 & H3 & H4 & H5 & H6 & _).
  split; [exact H1|]. split; [exact H2|]. split; [exact H3|].
  split; [exact H4|]. split; [exact H5 | exact H6].
Qed.

Lemma update_element_moves_membership_witness :
  exists resp w' c1 c2,
    update_element Sample.store "t8" "t9"
      (mkUpdateElementInput "w1" "B" None None None None None (Some "ctx2"))
    = (inr resp, save_workshop Sample.store "t9" w') /\
    bounded_contexts w' = [c1; c2] /\
    ("B" ∉ element_ids c1) /\ "B" ∈ element_ids c2.
Proof.
  destruct (update_element_moves_membership Sample.store "t8" "t9"
              (mkUpdateElementInput "w1" "B" None None None None None (Some "ctx2"))
              Sample.workshop Sample.order_placed "ctx2" eq_refl eq_refl eq_refl)
    as (resp & w' & Hrun & Hlen & Hcs).
  destruct (Hcs 0%nat Sample.ordering eq_refl) as (c1 & H1 & _ & _ & _ & Hgone & _).
  destruct (Hcs 1%nat Sample.billing eq_refl) as (c2 & H2 & _ & _ & Hin & _).
  exists resp, w', c1, c2. split; [exact Hrun|].
  split.
  - destruct (bounded_contexts w') as [|a [|a' [|a'' l]]]; try discriminate Hlen.
    cbn in H1, H2. congruence.
  - split.
    + apply Hgone; [reflexivity | discriminate | by apply (bool_decide_unpack _)].
    + by apply Hin.
Defined.

(** X16. [update_element] keeps a well-formed workshop well formed. *)
Theorem update_element_well_formed (store : gmap string Workshop)
    (timestamp now : string) (params : UpdateElementInput) (w : Workshop)
    (e : EventStormingElement) :
  store !! ue_workshop_id params = Some w ->
  find_element w (ue_element_id params) = Some e ->
  well_formed w ->
  exists resp w',
    update_element store timestamp now params = (inr resp, save_workshop store now w') /\
    well_formed w'.
Proof.
  intros Hload Hfind [Hnd Hctx].
  destruct (update_element_run store timestamp now params w e Hload Hfind)
    as (resp & w' & Hrun & _ & _ & _ & Hels & Hcs).
  destruct (find_element_Some _ _ _ Hfind) as [He Hid].
  exists resp, w'. split; [exact Hrun|].
  assert (map el_id (elements w') = map el_id (elements w)) as Hids.
  { rewrite Hels. unfold has_id. by apply (update_first_keys el_id). }
  split; [by rewrite Hids|]. rewrite Hids, Hcs.
  destruct (ue_bounded_context_id params) as [b|]; [|exact Hctx].
  intros c' (c & -> & Hc)%list_elem_of_fmap.
  destruct (Hctx c Hc) as [Hndc Hclosed].
  destruct (move_membership_spec (ue_element_id params) (bounded_context_id e)
              (if String.eqb b "null" then None else Some b) c)
    as (_ & _ & _ & _ & _ & _ & Hnd' & Hin').
  split; [by apply Hnd'|].
  intros y [->|Hy]%Hin'; [|by apply Hclosed].
  apply elem_of_map_el_id. by exists e.
Qed.

Lemma update_element_well_formed_witness :
  exists resp w',
    update_element Sample.store "t8" "t9"
      (mkUpdateElementInput "w1" "B" None None None None None (Some "ctx2"))
    = (inr resp, save_workshop Sample.store "t9" w') /\
    well_formed w'.
Proof.
  exact (update_element_well_formed Sample.store "t8" "t9"
           (mkUpdateElementInput "w1" "B" None None None None None (Some "ctx2"))
           Sample.workshop Sample.order_placed eq_refl eq_refl sample_well_formed).
Defined.

(** ** assign_to_context, again *)

Lemma found_ids_same_keys (w1 w : Workshop) (ids : list string) :
  map el_id (elements w1) = map el_id (elements w) ->
  found_ids w1 ids = found_ids w ids /\ missing_ids w1 ids = missing_ids w ids.
Proof.
  intros Hk.
  assert (forall x, find_element w1 x = None <-> find_element w x = None) as Hnone
    by (intros x; by rewrite !find_element_None, Hk).
  split; apply list_filter_iff; intros x; [|done].
  by rewrite <- !not_eq_None_Some, Hnone.
Qed.

Lemma assign_all_keys (cid : string) (ids : list string) (l : list EventStormingElement) :
  map el_id (assign_all cid ids l) = map el_id l.
Proof.
  unfold assign_all. revert l. induction ids as [|a ids IH]; intros l; [done|].
  cbn [foldl]. rewrite IH. unfold has_id. by apply (update_first_keys el_id).
Qed.

Lemma assign_fold_elements (cid : string) (ids : list string) (st : AssignState) :
  elements (as_workshop (foldl (assign_one cid) st ids))
  = assign_all cid (found_ids (as_workshop st) ids) (elements (as_workshop st)).
Proof.
  revert st. induction ids as [|a ids IH]; intros st; [done|].
  cbn [foldl]. rewrite IH.
  destruct (find_element (as_workshop st) a) as [e|] eqn:Ha.
  - rewrite assign_one_found by (by eexists).
    cbn [as_workshop elements].
    destruct (ids_cons_found (as_workshop st) a ids) as [-> _]; [by eexists|].
    destruct (found_ids_same_keys
                (mkWorkshop (metadata (as_workshop st))
                   (update_first (has_id a)
                      (fun e => set_bounded_context_id e (Some cid))
                      (elements (as_workshop st)))
                   (update_first (ctx_has_id cid)
                      (fun c => set_element_ids c (append_if_absent a (element_ids c)))
                      (bounded_contexts (as_workshop st))))
                (as_workshop st) ids) as [-> _]; [|done].
    cbn [elements]. unfold has_id. by apply (update_first_keys el_id).
  - rewrite assign_one_missing by done. cbn [as_workshop].
    by destruct (ids_cons_missing (as_workshop st) a ids Ha) as [-> _].
Qed.

(** The response and the workshop that [assign_to_context] saves. *)
Lemma assign_to_context_run (store : gmap string Workshop) (now : string)
    (params : AssignToContextInput) (w : Workshop) (ctx : BoundedContext) :
  store !! ac_workshop_id params = Some w ->
  find_context w (ac_context_id params) = Some ctx ->
  let found := found_ids w (ac_element_ids params) in
  let missing := missing_ids w (ac_element_ids params) in
  exists w',
    assign_to_context store now params
    = (inr (mkAssignToContextResponse (ctx_name ctx) (len found) found
              (if missing is [] then None
               else Some ("Elements not found: " +:+ join ", " missing))),
       save_workshop store now w') /\
    metadata w' = metadata w /\
    elements w' = assign_all (ac_context_id params) found (elements w) /\
    bounded_contexts w'
    = update_first (ctx_has_id (ac_context_id params))
        (fun c => set_element_ids c (add_all (element_ids c) found))
        (bounded_contexts w).
Proof.
  intros Hload Hctx found missing. unfold assign_to_context.
  rewrite (load_workshop_Some _ _ _ Hload), Hctx.
  destruct (assign_fold (ac_context_id params) (ac_element_ids params)
              (mkAssignState w [] [])) as (Ha & Hn & Hmd & _ & Hc).
  pose proof (assign_fold_elements (ac_context_id params) (ac_element_ids params)
                (mkAssignState w [] [])) as He.
  cbn [as_workshop assigned not_found app] in *.
  eexists. unfold assign_loop. rewrite Ha, Hn. split; [reflexivity|].
  split; [exact Hmd|]. split; [exact He | exact Hc].
Qed.

Lemma assign_one_comm (cid a b : string) (l : list EventStormingElement) :
  update_first (has_id a) (fun e => set_bounded_context_id e (Some cid))
    (update_first (has_id b) (fun e => set_bounded_context_id e (Some cid)) l)
  = update_first (has_id b) (fun e => set_bounded_context_id e (Some cid))
      (update_first (has_id a) (fun e => set_bounded_context_id e (Some cid)) l).
Proof.
  unfold has_id. induction l as [|e l IH]; [done|]. cbn [update_first].
  destruct (String.eqb_spec (el_id e) a) as [Ha|Ha],
           (String.eqb_spec (el_id e) b) as [Hb|Hb]; cbn [update_first el_id
             set_bounded_context_id];
    rewrite ?(proj2 (String.eqb_eq _ _) Ha), ?(proj2 (String.eqb_eq _ _) Hb),
            ?(proj2 (String.eqb_neq _ _) Ha), ?(proj2 (String.eqb_neq _ _) Hb);
    try done.
  by rewrite IH.
Qed.

Lemma assign_all_comm (cid a : string) (ids : list string)
    (l : list EventStormingElement) :
  update_first (has_id a) (fun e => set_bounded_context_id e (Some cid))
               (assign_all cid ids l)
  = assign_all cid ids
      (update_first (has_id a) (fun e => set_bounded_context_id e (Some cid)) l).
Proof.
  unfold assign_all. revert l. induction ids as [|b ids IH]; intros l; [done|].
  cbn [foldl]. by rewrite IH, assign_one_comm.
Qed.

Lemma assign_all_idem (cid : string) (ids : list string) (l : list EventStormingElement) :
  assign_all cid ids (assign_all cid ids l) = assign_all cid ids l.
Proof.
  revert l. induction ids as [|a ids IH]; intros l; [done|].
  change (assign_all cid (a :: ids) l)
    with (assign_all cid ids
            (update_first (has_id a) (fun e => set_bounded_context_id e (Some cid)) l)).
  set (l1 := update_first (has_id a) _ l).
  change (assign_all cid (a :: ids) (assign_all cid ids l1))
    with (assign_all cid ids
            (update_first (has_id a) (fun e => set_bounded_context_id e (Some cid))
                          (assign_all cid ids l1))).
  rewrite assign_all_comm, IH. f_equal. unfold l1.
  rewrite update_first_compose by done. by apply update_first_ext.
Qed.

Lemma add_all_present (l ids : list string) :
  (forall x, x ∈ ids -> x ∈ l) -> add_all l ids = l.
Proof.
  unfold add_all. induction ids as [|a ids IH]; intros H; [done|].
  cbn [foldl]. unfold append_if_absent at 2.
  rewrite bool_decide_eq_true_2 by apply H, list_elem_of_here.
  apply IH. intros x Hx. by apply H, list_elem_of_further.
Qed.

Lemma add_all_idem (l ids : list string) :
  add_all (add_all l ids) ids = add_all l ids.
Proof.
  apply add_all_present. intros x Hx.
  destruct (add_all_spec l ids) as (new & -> & _ & Hin).
  apply elem_of_app. destruct (decide (x ∈ l)); [by left | right; by apply Hin].
Qed.

(** X14. A second [assign_to_context] with the parameters of a first gives
    the same response and leaves the elements and the contexts as the first
    call left them. *)
Theorem assign_to_context_idempotent (store : gmap string Workshop)
    (now1 now2 : string) (params : AssignToContextInput) (w : Workshop)
    (ctx : BoundedContext) :
  store !! ac_workshop_id params = Some w ->
  md_id (metadata w) = ac_workshop_id params ->
  find_context w (ac_context_id params) = Some ctx ->
  let first := assign_to_context store now1 params in
  let second := assign_to_context first.2 now2 params in
  second.1 = first.1 /\
  exists w1 w2,
    first.2 !! ac_workshop_id params = Some w1 /\
    second.2 !! ac_workshop_id params = Some w2 /\
    elements w2 = elements w1 /\
    bounded_contexts w2 = bounded_contexts w1.
Proof.
  intros Hload Hmd Hctx first second.
  destruct (assign_to_context_run store now1 params w ctx Hload Hctx)
    as (w' & Hrun & Hmd' & Hels & Hcs).
  set (found := found_ids w (ac_element_ids params)) in *.
  set (w1 := mkWorkshop (set_md_updated_at (metadata w') now1) (elements w')
                        (bounded_contexts w')).
  assert (first.2 !! ac_workshop_id params = Some w1) as Hw1.
  { unfold first. rewrite Hrun. unfold save_workshop. cbn.
    replace (md_id (metadata w')) with (ac_workshop_id params)
      by (by rewrite Hmd', Hmd).
    by rewrite lookup_insert_eq. }
  assert (map el_id (elements w1) = map el_id (elements w)) as Hkeys
    by (cbn; rewrite Hels; apply assign_all_keys).
  destruct (found_ids_same_keys w1 w (ac_element_ids params) Hkeys) as [Hf Hm].
  assert (find_context w1 (ac_context_id params)
          = Some (set_element_ids ctx (add_all (element_ids ctx) found))) as Hctx1.
  { unfold find_context. cbn [bounded_contexts w1]. rewrite Hcs. unfold ctx_has_id.
    rewrite (find_update_first ctx_id) by done.
    rewrite decide_True by done. unfold find_context in Hctx. by rewrite Hctx. }
  destruct (assign_to_context_run first.2 now2 params w1 _ Hw1 Hctx1)
    as (w2' & Hrun2 & Hmd2 & Hels2 & Hcs2).
  rewrite Hf, Hm in Hrun2. fold found in Hrun2, Hels2, Hcs2.
  rewrite Hf in Hels2, Hcs2. fold found in Hels2, Hcs2.
  split.
  - unfold second. rewrite Hrun2. unfold first. rewrite Hrun. reflexivity.
  - exists w1, (mkWorkshop (set_md_updated_at (metadata w2') now2) (elements w2')
                           (bounded_contexts w2')).
    split; [exact Hw1|]. split; [|split].
    + unfold second. rewrite Hrun2. unfold save_workshop. cbn.
      replace (md_id (metadata w2')) with (ac_workshop_id params)
        by (rewrite Hmd2; cbn; by rewrite Hmd', Hmd).
      by rewrite lookup_insert_eq.
    + cbn [elements]. rewrite Hels2. change (elements w1) with (elements w').
      rewrite Hels. apply assign_all_idem.
    + cbn [bounded_contexts]. rewrite Hcs2.
      change (bounded_contexts w1) with (bounded_contexts w').
      rewrite Hcs. rewrite update_first_compose by done.
      apply update_first_ext. intros c. cbn. by rewrite add_all_idem.
Qed.

Lemma assign_to_context_idempotent_witness :
  let first :=
    assign_to_context Sample.store "t8"
      (mkAssignToContextInput "w1" "ctx2" ["B"; "missing"]) in
  let second :=
    assign_to_context first.2 "t9"
      (mkAssignToContextInput "w1" "ctx2" ["B"; "missing"]) in
  second.1 = first.1.
Proof.
  exact (proj1 (assign_to_context_idempotent Sample.store "t8" "t9"
                  (mkAssignToContextInput "w1" "ctx2" ["B"; "missing"])
                  Sample.workshop Sample.billing eq_refl eq_refl eq_refl)).
Defined.

(** X18. [assign_to_context] keeps a well-formed workshop well formed. *)
Theorem assign_to_context_well_formed (store : gmap string Workshop) (now : string)
    (params : AssignToContextInput) (w : Workshop) (ctx : BoundedContext) :
  store !! ac_workshop_id params = Some w ->
  find_context w (ac_context_id params) = Some ctx ->
  well_formed w ->
  exists resp w',
    assign_to_context store now params = (inr resp, save_workshop store now w') /\
    well_formed w'.
Proof.
  intros Hload Hctx [Hnd Hcl].
  destruct (assign_to_context_run store now params w ctx Hload Hctx)
    as (w' & Hrun & _ & Hels & Hcs).
  eexists _, w'. split; [exact Hrun|].
  assert (map el_id (elements w') = map el_id (elements w)) as Hkeys
    by (rewrite Hels; apply assign_all_keys).
  split; [by rewrite Hkeys|]. rewrite Hkeys, Hcs.
  intros c' [Hc|(c & Hc & ->)]%elem_of_update_first; [by apply Hcl|].
  destruct (Hcl c Hc) as [Hndc Hclosed]. cbn.
  destruct (add_all_spec (element_ids c) (found_ids w (ac_element_ids params)))
    as (new & -> & Hndn & Hin).
  split.
  - apply NoDup_app. split; [done|]. split; [|done].
    intros x Hx Hx'. by apply Hin in Hx' as [_ ?].
  - intros x [Hx|Hx]%elem_of_app; [by apply Hclosed|].
    apply Hin in Hx as [[_ Hsome]%elem_of_found_ids _].
    destruct (decide (x ∈ map el_id (elements w))) as [|Hno]; [done|].
    apply find_element_None in Hno. rewrite Hno in Hsome. by destruct Hsome.
Qed.

Lemma assign_to_context_well_formed_witness :
  exists resp w',
    assign_to_context Sample.store "t9" (mkAssignToContextInput "w1" "ctx2" ["B"; "x"])
    = (inr resp, save_workshop Sample.store "t9" w') /\
    well_formed w'.
Proof.
  exact (assign_to_context_well_formed Sample.store "t9"
           (mkAssignToContextInput "w1" "ctx2" ["B"; "x"])
           Sample.workshop Sample.billing eq_refl eq_refl sample_well_formed).
Defined.

(** ** The flow of a workshop without a start element *)

(** X21. Without a start element, on a workshop in which every element is
    triggered by something (an empty workshop, or one whose elements all lie
    on cycles), the flow visualisation traverses nothing: it reports that no
    root was found. *)
Theorem flow_run_no_roots (fuel : nat) (w : Workshop) (params : VisualizeFlowInput) :
  truthy (start_element_id params) = false ->
  (forall e, e ∈ elements w -> triggered_by e <> []) ->
  0 < max_elements params ->
  flow_run fuel w params
  = Some (inr (mkFlowRun
                 ["# Event Flow Visualization: " +:+ md_name (metadata w); "";
                  "No root elements found (all elements are triggered by something).";
                  "This might indicate circular dependencies or incomplete modeling."]
                 0 [])).
Proof.
  intros Hstart Hall Hmax. unfold flow_run. rewrite Hstart.
  assert (filter (fun e => triggered_by e = []) (elements w) = []) as ->.
  { induction (elements w) as [|e l IH]; [done|].
    rewrite filter_cons, decide_False by apply Hall, list_elem_of_here.
    apply IH. intros a Ha. by apply Hall, list_elem_of_further. }
  cbn [fr_element_count]. destruct (Z.leb_spec (max_elements params) 0); [lia|done].
Qed.

Lemma flow_run_no_roots_witness :
  exists run,
    flow_run 0 Sample.cycle (mkVisualizeFlowInput "w1" None 5 100) = Some (inr run) /\
    fr_visited run = [] /\ fr_element_count run = 0.
Proof.
  eexists. split.
  - apply (flow_run_no_roots 0 Sample.cycle (mkVisualizeFlowInput "w1" None 5 100)).
    + reflexivity.
    + intros e He. cbn in He.
      repeat (apply elem_of_cons in He as [->|He]; [discriminate|]).
      by apply elem_of_nil in He.
    + cbn. lia.
  - by split.
Defined.

Lemma trace_flow_visits_start (fuel : nat) (w : Workshop) (params : VisualizeFlowInput)
    (element_id : string) (depth : Z) (indent : nat) (st : TraceState)
    (lines : list string) (st' : TraceState) :
  depth < max_depth params ->
  element_count st < max_elements params ->
  trace_flow fuel w params element_id depth indent st = Some (lines, st') ->
  element_id ∈ visited st'.
Proof.
  intros Hd Hmax Htrace.
  destruct (trace_flow_step w params _ _ _ _ _ _ _ Htrace) as (Hsub & _).
  destruct (decide (element_id ∈ visited st)) as [Hin|Hout]; [by apply Hsub|].
  destruct fuel as [|fuel]; [done|]. cbn [trace_flow] in Htrace.
  destruct (Z.leb_spec (max_depth params) depth); [lia|].
  rewrite bool_decide_eq_false_2 in Htrace by done. cbn [orb] in Htrace.
  destruct (Z.leb_spec (max_elements params) (element_count st)); [lia|].
  destruct (find_element w element_id).
  - assert (trace_step params
              (mkTraceState ({[element_id]} ∪ visited st) (element_count st + 1)) st')
      as (Hsub' & _).
    { eapply follow_triggers_step; [|exact Htrace].
      intros i s ls s'. apply trace_flow_step. }
    apply Hsub'. cbn. apply elem_of_union. left. by apply elem_of_singleton.
  - injection Htrace as _ <-. cbn. apply elem_of_union. left. by apply elem_of_singleton.
Qed.

(** The sets that the loop over the roots adds belong to the first roots, in
    order, and each holds the id of its root. *)
Lemma trace_roots_visited (fuel : nat) (w : Workshop) (params : VisualizeFlowInput)
    (roots : list EventStormingElement) (run run' : FlowRun) :
  0 < max_depth params ->
  trace_roots fuel w params roots run = Some run' ->
  exists sets,
    fr_visited run' = fr_visited run ++ sets /\
    (length sets <= length roots)%nat /\
    forall i X, sets !! i = Some X ->
      exists root, roots !! i = Some root /\ el_id root ∈ X.
Proof.
  intros Hd. revert run. induction roots as [|root roots IH]; intros run; cbn [trace_roots].
  - intros [= <-]. exists []. rewrite app_nil_r. split; [done|]. split; [done|].
    intros i X Hi. by rewrite lookup_nil in Hi.
  - destruct (Z.leb_spec (max_elements params) (fr_element_count run)) as [Hfull|Hroom].
    + intros [= <-]. exists []. cbn. rewrite app_nil_r. split; [done|]. split; [lia|].
      intros i X Hi. by rewrite lookup_nil in Hi.
    + destruct (trace_flow fuel w params (el_id root) 0 0 _) as [[sub st]|] eqn:Ht; [|done].
      intros Hrest. destruct (IH _ Hrest) as (sets & Heq & Hlen & Hsets).
      cbn [fr_visited] in Heq. exists (visited st :: sets).
      split; [by rewrite Heq, <- app_assoc|]. split; [cbn; lia|].
      intros [|i] X Hi; cbn in Hi.
      * injection Hi as <-. exists root. split; [done|].
        by apply (trace_flow_visits_start fuel w params _ 0 0
                    (mkTraceState ∅ (fr_element_count run)) sub st Hd Hroom Ht).
      * by apply Hsets.
Qed.

(** X22. Without a start element, the roots are traversed in the order of
    the workshop, each with the id of its root among the ids it visits, and
    the traversals stop with the budget: no more than [max_elements] roots
    are traversed, whatever the number of roots. *)
Theorem flow_run_roots_within_budget (w : Workshop) (params : VisualizeFlowInput) :
  truthy (start_element_id params) = false ->
  0 < max_depth params ->
  0 <= max_elements params ->
  let roots := filter (fun e => triggered_by e = []) (elements w) in
  exists run,
    flow_run (flow_fuel params) w params = Some (inr run) /\
    len (fr_visited run) <= max_elements params /\
    (length (fr_visited run) <= length roots)%nat /\
    forall i X, fr_visited run !! i = Some X ->
      exists root, roots !! i = Some root /\ el_id root ∈ X.
Proof.
  intros Hstart Hd Hmax roots.
  destruct (flow_run_enough_fuel w params (flow_fuel params) ltac:(lia)) as [_ [r Hr]].
  assert (exists run, r = inr run /\
            (length (fr_visited run) <= length roots)%nat /\
            forall i X, fr_visited run !! i = Some X ->
              exists root, roots !! i = Some root /\ el_id root ∈ X)
    as (run & -> & Hlen & Hsets).
  { revert Hr. unfold flow_run. rewrite Hstart. fold roots.
    destruct roots as [|root roots'] eqn:Hroots.
    - destruct (_ <=? _); intros [= <-]; eexists; (split; [reflexivity|]); cbn;
        (split; [lia|]); intros i X Hi; by rewrite lookup_nil in Hi.
    - destruct (trace_roots _ w params (root :: roots') _) as [run0|] eqn:Ht; [|done].
      destruct (trace_roots_visited _ w params _ _ _ Hd Ht) as (sets & Heq & Hlen & Hsets).
      cbn [fr_visited app] in Heq.
      destruct (_ <=? _); intros [= <-]; eexists; (split; [reflexivity|]);
        cbn [fr_visited]; rewrite Heq; by split. }
  exists run. split; [exact Hr|]. split; [|by split].
  destruct (flow_run_budget w params _ run Hmax Hr) as [Hsum Hle].
  assert (len (fr_visited run) <= visited_total (fr_visited run)); [|lia].
  clear -Hsets. clearbody roots. unfold len. revert roots Hsets.
  induction (fr_visited run) as [|X sets IH]; intros roots Hsets; [done|].
  cbn [length visited_total foldr]. fold (visited_total sets).
  assert (0 < size X)%nat.
  { destruct (Hsets 0%nat X eq_refl) as (root & _ & Hin).
    destruct (decide (size X = 0%nat)) as [H0|]; [|lia].
    apply size_empty_inv in H0. by apply H0 in Hin. }
  assert (Z.of_nat (length sets) <= visited_total sets); [|lia].
  apply (IH (tail roots)). intros i Y Hi.
  destruct (Hsets (S i) Y Hi) as (root & Hroot & Hin).
  exists root. split; [|done]. by destruct roots.
Qed.

Lemma flow_run_roots_within_budget_witness :
  exists run,
    flow_run 6 Sample.workshop (mkVisualizeFlowInput "w1" None 5 100) = Some (inr run) /\
    len (fr_visited run) <= 100 /\
    exists X, fr_visited run !! 0%nat = Some X /\ "A" ∈ X.
Proof.
  destruct (flow_run_roots_within_budget Sample.workshop
              (mkVisualizeFlowInput "w1" None 5 100) eq_refl
              ltac:(cbn; lia) ltac:(cbn; lia))
    as (run & Hrun & Hle & Hlen & Hsets).
  exists run. split; [exact Hrun|]. split; [exact Hle|].
  destruct (fr_visited run) as [|X sets] eqn:Hv.
  - exfalso. vm_compute in Hrun. injection Hrun as <-. discriminate Hv.
  - exists X. split; [reflexivity|].
    destruct (Hsets 0%nat X eq_refl) as (root & Hroot & Hin).
    injection Hroot as <-. exact Hin.
Defined.

(** ** The timeline *)

Section SortedFacts.
Context {A K : Type} `{!EqDecision K} (key : A -> K) (ltb : K -> K -> bool).
Hypothesis ltb_asym : forall a b, ltb a b = true -> ltb b a = false.
Hypothesis ltb_negtrans :
  forall a b c, ltb b a = false -> ltb c b = false -> ltb c a = false.

Lemma sorted_insert_perm (x : A) (l : list A) : sorted_insert key ltb x l ≡ₚ x :: l.
Proof.
  induction l as [|y l IH]; cbn; [done|].
  destruct (ltb (key y) (key x)); [|done].
  rewrite IH. apply Permutation_swap.
Qed.

Lemma py_sorted_perm (l : list A) : py_sorted key ltb l ≡ₚ l.
Proof.
  induction l as [|x l IH]; [done|].
  cbn. rewrite sorted_insert_perm. by rewrite IH.
Qed.

Lemma sorted_insert_stable (k : K) (x : A) (l : list A) :
  filter (fun a => key a = k) (sorted_insert key ltb x l)
  = filter (fun a => key a = k) (x :: l).
Proof.
  induction l as [|y l IH]; cbn [sorted_insert]; [done|].
  destruct (ltb (key y) (key x)) eqn:Hlt; [|done].
  rewrite filter_cons, IH, !filter_cons.
  destruct (decide (key y = k)) as [Hy|Hy], (decide (key x = k)) as [Hx|Hx]; try done.
  rewrite Hy, Hx in Hlt. by rewrite (ltb_asym _ _ Hlt) in Hlt.
Qed.

Lemma py_sorted_stable (k : K) (l : list A) :
  filter (fun a => key a = k) (py_sorted key ltb l) = filter (fun a => key a = k) l.
Proof.
  induction l as [|x l IH]; [done|].
  cbn [py_sorted foldr]. fold (py_sorted key ltb l).
  by rewrite sorted_insert_stable, !filter_cons, IH.
Qed.

Lemma sorted_insert_sorted (x : A) (l : list A) :
  StronglySorted (fun a b => ltb (key b) (key a) = false) l ->
  StronglySorted (fun a b => ltb (key b) (key a) = false) (sorted_insert key ltb x l).
Proof.
  induction 1 as [|y l Hl IH Hy]; cbn [sorted_insert].
  - by repeat constructor.
  - destruct (ltb (key y) (key x)) eqn:Hlt.
    + constructor; [exact IH|].
      rewrite sorted_insert_perm. constructor; [by apply ltb_asym|exact Hy].
    + constructor; [by constructor|].
      constructor; [exact Hlt|].
      eapply Forall_impl; [exact Hy|]. intros z Hz. cbn in Hz.
      by apply (ltb_negtrans _ (key y)).
Qed.

Lemma py_sorted_sorted (l : list A) :
  StronglySorted (fun a b => ltb (key b) (key a) = false) (py_sorted key ltb l).
Proof.
  induction l as [|x l IH]; [constructor|].
  by apply sorted_insert_sorted.
Qed.
End SortedFacts.

Lemma string_leb_ltb (s1 s2 : string) : String.ltb s2 s1 = negb (String.leb s1 s2).
Proof.
  unfold String.ltb, String.leb. rewrite (String.compare_antisym s2 s1).
  by destruct (String.compare s1 s2).
Qed.

Lemma string_leb_trans (a b c : string) :
  String.leb a b = true -> String.leb b c = true -> String.leb a c = true.
Proof.
  intros Hab Hbc. destruct (String.leb a c) eqn:Hac; [done|].
  assert (String.compare c a = Lt) as Hca.
  { unfold String.leb in Hac. rewrite String.compare_antisym.
    by destruct (String.compare a c). }
  unfold String.leb in Hab. destruct (String.compare a b) eqn:Hcmp; [| |done].
  - apply String.compare_eq_iff in Hcmp as ->. congruence.
  - assert (String.compare c b = Lt) as Hcb.
    { apply OrderedTypeEx.String_as_OT.cmp_lt.
      eapply OrderedTypeEx.String_as_OT.lt_trans;
        apply OrderedTypeEx.String_as_OT.cmp_lt; eassumption. }
    unfold String.leb in Hbc. rewrite String.compare_antisym, Hcb in Hbc. done.
Qed.

Lemma timeline_ltb_le (a b : EventStormingElement) :
  timeline_ltb (timeline_key b) (timeline_key a) = false <-> timeline_le a b.
Proof.
  unfold timeline_ltb, timeline_le, timeline_key. cbn [fst snd].
  rewrite string_leb_ltb.
  destruct (Z.ltb_spec (position b) (position a)),
    (Z.eqb_spec (position b) (position a)),
    (String.leb (created_at a) (created_at b)); cbn; split; intros; try done;
    try lia; try (right; split; [lia|done]); try (left; lia).
  all: destruct H1 as [|[? ?]]; try lia; done.
Qed.

Lemma timeline_ltb_asym (k1 k2 : Z * string) :
  timeline_ltb k1 k2 = true -> timeline_ltb k2 k1 = false.
Proof.
  destruct k1 as [p1 c1], k2 as [p2 c2]. unfold timeline_ltb. cbn [fst snd].
  rewrite (string_leb_ltb c1 c2).
  destruct (Z.ltb_spec p1 p2), (Z.ltb_spec p2 p1), (Z.eqb_spec p1 p2),
    (Z.eqb_spec p2 p1); cbn; try lia; try done.
  unfold String.ltb, String.leb. by destruct (String.compare c1 c2).
Qed.

Lemma timeline_ltb_negtrans (k1 k2 k3 : Z * string) :
  timeline_ltb k2 k1 = false -> timeline_ltb k3 k2 = false ->
  timeline_ltb k3 k1 = false.
Proof.
  destruct k1 as [p1 c1], k2 as [p2 c2], k3 as [p3 c3].
  unfold timeline_ltb. cbn [fst snd]. rewrite !string_leb_ltb.
  destruct (Z.ltb_spec p2 p1), (Z.ltb_spec p3 p2), (Z.ltb_spec p3 p1),
    (Z.eqb_spec p2 p1), (Z.eqb_spec p3 p2), (Z.eqb_spec p3 p1); cbn;
    try lia; try done.
  intros H12 H23. apply negb_false_iff in H12, H23. apply negb_false_iff.
  by apply (string_leb_trans c1 c2 c3).
Qed.

Lemma timeline_selected (w : Workshop) (params : GetTimelineInput) :
  timeline_elements w params
  = py_sorted timeline_key timeline_ltb
      (filter (fun e => passes_filters (gt_element_type params)
                          (gt_bounded_context_id params) e) (elements w)).
Proof.
  unfold timeline_elements. f_equal.
  unfold passes_filters, type_filter, context_filter.
  destruct (gt_element_type params) as [t|],
    (truthy (gt_bounded_context_id params)).
  - rewrite list_filter_filter. apply list_filter_iff. intros e.
    rewrite andb_True, !bool_decide_spec. split; intros [? ?]; by split.
  - apply list_filter_iff. intros e. rewrite andb_True, bool_decide_spec.
    split; [by split|by intros [? _]].
  - apply list_filter_iff. intros e. cbn. by rewrite bool_decide_spec.
  - symmetry. apply filter_all. by intros e _.
Qed.

(** X23. The timeline holds exactly the elements that pass the filters, in
    the order of their positions and, within one position, of their creation
    times; elements that agree on both keep the order of the workshop. *)
Theorem timeline_elements_sorted (w : Workshop) (params : GetTimelineInput) :
  let selected :=
    filter (fun e => passes_filters (gt_element_type params)
                       (gt_bounded_context_id params) e) (elements w) in
  timeline_elements w params ≡ₚ selected /\
  StronglySorted timeline_le (timeline_elements w params) /\
  forall k, filter (fun e => timeline_key e = k) (timeline_elements w params)
            = filter (fun e => timeline_key e = k) selected.
Proof.
  intros selected. rewrite timeline_selected. fold selected.
  split; [apply py_sorted_perm|]. split.
  - assert (StronglySorted
              (fun a b => timeline_ltb (timeline_key b) (timeline_key a) = false)
              (py_sorted timeline_key timeline_ltb selected)) as Hsorted.
    { apply py_sorted_sorted; [apply timeline_ltb_asym|apply timeline_ltb_negtrans]. }
    induction Hsorted as [|a l _ IH Ha]; constructor; [exact IH|].
    eapply Forall_impl; [exact Ha|]. intros b. apply timeline_ltb_le.
  - intros k. apply py_sorted_stable, timeline_ltb_asym.
Qed.

(** ** The search *)

Section SearchFacts.
Variable lower : string -> string.

Lemma search_matches_filter (params : SearchElementsInput) (q : string)
    (l : list EventStormingElement) :
  (forall e, e ∈ l ->
     passes_filters (se_element_type params) (se_bounded_context_id params) e ->
     name_matches lower q e = false -> notes e <> None) ->
  search_matches lower params q l
  = Some (filter (fun e => passes_filters (se_element_type params)
                             (se_bounded_context_id params) e
                           && (name_matches lower q e || notes_match lower q e)) l).
Proof.
  induction l as [|e l IH]; intros Hnotes; [done|].
  cbn [search_matches]. rewrite filter_cons.
  rewrite IH by (intros a Ha; apply Hnotes; by apply list_elem_of_further).
  pose proof (Hnotes e (list_elem_of_here _ _)) as He.
  unfold passes_filters in *.
  destruct (type_filter _ e); cbn [negb andb]; [|by rewrite decide_False by tauto].
  destruct (context_filter _ e); cbn [negb andb]; [|by rewrite decide_False by tauto].
  unfold query_matches, name_matches, notes_match in *.
  destruct (is_substring q (lower (el_name e))); cbn [orb].
  - by rewrite decide_True by done.
  - destruct (notes e) as [n|]; [|by destruct He].
    destruct (is_substring q (lower n)).
    + by rewrite decide_True by done.
    + by rewrite decide_False by tauto.
Qed.

Lemma search_matches_raises (params : SearchElementsInput) (q : string)
    (l : list EventStormingElement) (e : EventStormingElement) :
  e ∈ l ->
  passes_filters (se_element_type params) (se_bounded_context_id params) e ->
  name_matches lower q e = false -> notes e = None ->
  search_matches lower params q l = None.
Proof.
  intros Hin Hpass Hname Hnotes. induction l as [|a l IH]; [by apply elem_of_nil in Hin|].
  cbn [search_matches]. apply elem_of_cons in Hin as [<-|Hin].
  - unfold passes_filters in Hpass. apply andb_True in Hpass as [Ht Hc].
    destruct (type_filter _ e); [|done]. destruct (context_filter _ e); [|done].
    cbn [negb]. unfold query_matches. unfold name_matches in Hname.
    by rewrite Hname, Hnotes.
  - rewrite (IH Hin). destruct (negb _); [done|]. destruct (negb _); [done|].
    by destruct (query_matches _ _ _) as [[]|].
Qed.

(** X24. The search returns a page of the elements that pass the filters
    and hold the query, lower-cased, in their lower-cased name or notes, in
    the order of the workshop -- provided that every element that passes the
    filters without a match in its name has notes to look into. *)
Theorem search_elements_finds (store : gmap string Workshop)
    (params : SearchElementsInput) (w : Workshop) :
  let q := lower (se_query params) in
  store !! se_workshop_id params = Some w ->
  (forall e, e ∈ elements w ->
     passes_filters (se_element_type params) (se_bounded_context_id params) e ->
     name_matches lower q e = false -> notes e <> None) ->
  search_elements lower store params
  = Some (inr (paginate_list
                 (filter (fun e => passes_filters (se_element_type params)
                                     (se_bounded_context_id params) e
                                   && (name_matches lower q e || notes_match lower q e))
                         (elements w))
                 (se_page params) (se_page_size params))).
Proof.
  intros q Hload Hnotes. unfold search_elements.
  rewrite (load_workshop_Some _ _ _ Hload). fold q.
  by rewrite search_matches_filter.
Qed.

(** X25. The search raises, whatever the page asked for, as soon as the
    workshop holds an element without notes that passes the filters and does
    not hold the query in its name: the notes are lower-cased without a test
    for their absence. *)
Theorem search_elements_raises (store : gmap string Workshop)
    (params : SearchElementsInput) (w : Workshop) (e : EventStormingElement) :
  store !! se_workshop_id params = Some w ->
  e ∈ elements w ->
  passes_filters (se_element_type params) (se_bounded_context_id params) e ->
  name_matches lower (lower (se_query params)) e = false ->
  notes e = None ->
  search_elements lower store params = None.
Proof.
  intros Hload Hin Hpass Hname Hnotes. unfold search_elements.
  rewrite (load_workshop_Some _ _ _ Hload).
  by rewrite (search_matches_raises _ _ _ e).
Qed.

(** X26. [add_element] stores notes with every element, the empty string
    for none given, so that a search that follows it on a workshop whose
    elements all had notes does not raise. *)
Theorem add_element_then_search (store : gmap string Workshop)
    (element_id timestamp now : string) (added : AddElementInput)
    (params : SearchElementsInput) (w : Workshop) :
  store !! ae_workshop_id added = Some w ->
  md_id (metadata w) = ae_workshop_id added ->
  se_workshop_id params = ae_workshop_id added ->
  notes_present w ->
  exists w' page,
    (add_element store element_id timestamp now added).2 !! ae_workshop_id added
    = Some w' /\
    notes_present w' /\
    search_elements lower (add_element store element_id timestamp now added).2 params
    = Some (inr page).
Proof.
  intros Hload Hmd Hid Hnotes.
  unfold add_element. rewrite (load_workshop_Some _ _ _ Hload). cbn [snd].
  match goal with |- context [save_workshop store now ?x] => set (w' := x) end.
  set (w1 := mkWorkshop (set_md_updated_at (metadata w') now)
                        (elements w') (bounded_contexts w')).
  assert (save_workshop store now w' !! ae_workshop_id added = Some w1) as Hlook.
  { unfold save_workshop. rewrite <- Hmd. apply lookup_insert_eq. }
  assert (notes_present w1) as Hpresent.
  { intros e He. cbn in He.
    apply elem_of_app in He as [He|He]; [by apply Hnotes|].
    by apply list_elem_of_singleton in He as ->. }
  exists w1. eexists. split; [exact Hlook|]. split; [exact Hpresent|].
  unfold search_elements. rewrite Hid, (load_workshop_Some _ _ _ Hlook).
  rewrite search_matches_filter; [reflexivity|].
  intros e He _ _. by apply Hpresent.
Qed.
End SearchFacts.

Lemma search_elements_finds_witness :
  exists info,
    search_elements Sample.lower Sample.store
      (mkSearchElementsInput "w1" "ORDER" None None 1 50)
    = Some (inr ([Sample.place_order; Sample.order_placed], info)).
Proof.
  eexists.
  rewrite (search_elements_finds Sample.lower Sample.store
             (mkSearchElementsInput "w1" "ORDER" None None 1 50) Sample.workshop eq_refl).
  - vm_compute. reflexivity.
  - intros e He _ _. cbn in He.
    repeat (apply elem_of_cons in He as [->|He]; [discriminate|]).
    by apply elem_of_nil in He.
Defined.

Lemma search_elements_raises_witness :
  search_elements Sample.lower Sample.legacy_store
    (mkSearchElementsInput "w1" "order" None None 1 50) = None.
Proof.
  apply (search_elements_raises Sample.lower Sample.legacy_store
           (mkSearchElementsInput "w1" "order" None None 1 50)
           Sample.legacy Sample.unnoted eq_refl).
  - apply list_elem_of_further, list_elem_of_here.
  - reflexivity.
  - reflexivity.
  - reflexivity.
Defined.

Lemma add_element_then_search_witness :
  exists w' page,
    (add_element Sample.store "D" "t8" "t9"
       (mkAddElementInput "w1" EVENT "Order Shipped" None None None [] [] None)).2 !! "w1"
    = Some w' /\
    notes_present w' /\
    search_elements Sample.lower
      (add_element Sample.store "D" "t8" "t9"
         (mkAddElementInput "w1" EVENT "Order Shipped" None None None [] [] None)).2
      (mkSearchElementsInput "w1" "shipped" None None 1 50)
    = Some (inr page).
Proof.
  apply (add_element_then_search Sample.lower Sample.store "D" "t8" "t9"
           (mkAddElementInput "w1" EVENT "Order Shipped" None None None [] [] None)
           (mkSearchElementsInput "w1" "shipped" None None 1 50)
           Sample.workshop eq_refl eq_refl eq_refl).
  intros e He. cbn in He.
  repeat (apply elem_of_cons in He as [->|He]; [discriminate|]).
  by apply elem_of_nil in He.
Defined.
